(** * WhenWhere: offset search, grouping, pin set and URL state

    A shallow embedding of the search box ([CitySearch]), of the
    formatting helper [formatDiff] and of the state handlers of
    [TimezoneExplorer] (pin set, hidden set, URL read and write), with
    the properties of the written specification stated against it.
    Further modules embed [formatOffset], the derived values of the
    cards, the search box as a component with its keys, the home zone
    picker ([HomeTimezonePicker]), the theme with the script of
    [layout.tsx], and the hover tooltip with its dismiss timer.

    Conventions of the embedding.
    - A JavaScript string is a [string]: a sequence of 8-bit characters,
      each read as the UTF-16 code unit of the same number.  The string
      functions below ([trim], [toLowerCase], the regular expression
      classes) are written for that range, the characters up to
      U+00FF; the URL functions write such a character as the UTF-8
      bytes of its code point and read those bytes back.
    - A JavaScript number that holds a count of minutes is a [jsnum]:
      an integer or [NaN].
    - A [Map] whose iteration order is observed is an association list
      in insertion order; a [Set] of names is a [gset string].
    - [try]/[catch] is a result type [Res] with [Ok] and [Throw]. *)

From Stdlib Require Import ZArith QArith Ascii.
From stdpp Require Import base option list strings pretty gmap.

Local Open Scope Z_scope.

(* ================================================================== *)
(** * Part I: definitions *)
(* ================================================================== *)

(** ** Characters and strings *)

Module Js.

(** The members of the regular expression class [\s] (and of the set
    [trim] strips) below 256: tab, line feed, vertical tab, form
    feed, carriage return, space, no-break space. *)
Definition is_space (c : ascii) : bool :=
  match c with
  | "009" | "010" | "011" | "012" | "013" | " " | "160" => true
  | _ => false
  end%char.

(** The class [\d]: the ten ASCII digits. *)
Definition is_digit (c : ascii) : bool :=
  match c with
  | "0" | "1" | "2" | "3" | "4" | "5" | "6" | "7" | "8" | "9" => true
  | _ => false
  end%char.

Definition digit_value (c : ascii) : Z := Z.of_N (N_of_ascii c) - 48.

(** [parseInt(s, 10)] on a string of digits, most significant first. *)
Fixpoint parseInt_go (acc : Z) (s : string) : Z :=
  match s with
  | "" => acc
  | String c s' => parseInt_go (acc * 10 + digit_value c) s'
  end.
Definition parseInt (s : string) : Z := parseInt_go 0 s.

(** [String.prototype.toLowerCase] on code units below 256: the
    letters A-Z and the Latin-1 capitals 192-222 (without the
    multiplication sign 215) move up by 32. *)
Definition lower_char (c : ascii) : ascii :=
  let n := N_of_ascii c in
  if ((65 <=? n) && (n <=? 90))%N then ascii_of_N (n + 32)
  else if ((192 <=? n) && (n <=? 222) && negb (n =? 215))%N
       then ascii_of_N (n + 32)
  else c.

Fixpoint toLowerCase (s : string) : string :=
  match s with
  | "" => ""
  | String c s' => String (lower_char c) (toLowerCase s')
  end.

Fixpoint trimStart (s : string) : string :=
  match s with
  | String c s' => if is_space c then trimStart s' else s
  | "" => ""
  end.

Definition trimEnd (s : string) : string :=
  String.rev (trimStart (String.rev s)).

Definition trim (s : string) : string := trimEnd (trimStart s).

(** [s.startsWith(p)] *)
Fixpoint startsWith (s p : string) : bool :=
  match p, s with
  | "", _ => true
  | String a p', String b s' => bool_decide (a = b) && startsWith s' p'
  | String _ _, "" => false
  end.

(** [s.includes(q)]: [q] occurs in [s] as a substring. *)
Fixpoint includes (s q : string) : bool :=
  startsWith s q ||
  match s with
  | "" => false
  | String _ s' => includes s' q
  end.

(** [s.split(sep)] for a one-character separator. *)
Fixpoint split_go (sep : ascii) (cur : string) (s : string) : list string :=
  match s with
  | "" => [String.rev cur]
  | String c s' =>
      if bool_decide (c = sep) then String.rev cur :: split_go sep "" s'
      else split_go sep (String c cur) s'
  end.
Definition split (sep : ascii) (s : string) : list string := split_go sep "" s.

(** [parts.join(sep)] *)
Fixpoint join (sep : string) (parts : list string) : string :=
  match parts with
  | [] => ""
  | [p] => p
  | p :: rest => p +:+ sep +:+ join sep rest
  end.

(** A number of minutes as the date library hands it out. *)
Inductive jsnum := Num (z : Z) | NaN.

(** [a === b] on numbers: [NaN] equals nothing, itself included. *)
Definition strict_eq (a b : jsnum) : bool :=
  match a, b with
  | Num x, Num y => bool_decide (x = y)
  | _, _ => false
  end.

#[global] Instance jsnum_eq_dec : EqDecision jsnum.
Proof. solve_decision. Defined.

(** [a - b], [a > b], [Math.abs(a)], [Math.floor(a / b)], [a % b] and
    [String(a)] on such numbers.  Any operation on [NaN] gives [NaN],
    any comparison with [NaN] is false.  [%] takes the sign of the
    dividend. *)
Definition sub (a b : jsnum) : jsnum :=
  match a, b with Num x, Num y => Num (x - y) | _, _ => NaN end.

Definition gt (a b : jsnum) : bool :=
  match a, b with Num x, Num y => bool_decide (y < x) | _, _ => false end.

Definition Math_abs (a : jsnum) : jsnum :=
  match a with Num x => Num (Z.abs x) | NaN => NaN end.

Definition floor_div (a : jsnum) (b : Z) : jsnum :=
  match a with
  | Num x => if bool_decide (b = 0) then NaN else Num (x / b)
  | NaN => NaN
  end.

Definition rem (a : jsnum) (b : Z) : jsnum :=
  match a with
  | Num x => if bool_decide (b = 0) then NaN else Num (Z.rem x b)
  | NaN => NaN
  end.

Definition toString (a : jsnum) : string :=
  match a with Num x => pretty x | NaN => "NaN" end.

(** [try]/[catch]: a computation returns or throws. *)
Inductive Res (A : Type) := Ok (a : A) | Throw (e : string).
Arguments Ok {A} a.
Arguments Throw {A} e.

#[global] Instance Res_eq_dec {A} `{EqDecision A} : EqDecision (Res A).
Proof. solve_decision. Defined.

Definition bind {A B} (r : Res A) (k : A → Res B) : Res B :=
  match r with Ok a => k a | Throw e => Throw e end.

Definition try_catch {A} (body : Res A) (handler : string → Res A) : Res A :=
  match body with Ok a => Ok a | Throw e => handler e end.

(** [xs.filter(f)] for a callback that may throw. *)
Fixpoint filterM {A} (f : A → Res bool) (xs : list A) : Res (list A) :=
  match xs with
  | [] => Ok []
  | x :: xs' =>
      bind (f x) (λ keep,
      bind (filterM f xs') (λ rest,
      Ok (if keep then x :: rest else rest)))
  end.

End Js.


(** ** The city catalog *)

(** [type City] of [@/data/cities].  The coordinates are decimal
    degrees; no function below reads them. *)
Record City := mkCity {
  name : string;
  country : string;
  tz : string;
  lat : Q;
  lon : Q;
}.

#[global] Instance Q_eq_dec : EqDecision Q.
Proof. solve_decision. Defined.

#[global] Instance City_eq_dec : EqDecision City.
Proof. solve_decision. Defined.

(** ** The offset query parser ([CitySearch.tsx]) *)

Module OffsetQuery.

(** The groups captured by
    [/^(?:utc|gmt)\s*([+-])?\s*(\d{1,2})(?::(\d{2}))?$/]:
    [m[1]] (the sign, when present), [m[2]] (the hour digits) and
    [m[3]] (the minute digits, when present). *)
Record Match := mkMatch {
  m1 : option ascii;
  m2 : string;
  m3 : option string;
}.

(** [^(?:utc|gmt)]: one of the two literals, at the start. *)
Definition literal (q : string) : option string :=
  match q with
  | String "u" (String "t" (String "c" r)) => Some r
  | String "g" (String "m" (String "t" r)) => Some r
  | _ => None
  end%char.

(** [\s*]: greedy.  The item after each [\s*] of the expression starts
    with a character that is no white space, so giving back white space
    never turns a failure into a match. *)
Definition spaces (s : string) : string := Js.trimStart s.

(** [([+-])?] *)
Definition sign (s : string) : option ascii * string :=
  match s with
  | String "+" r => (Some "+", r)
  | String "-" r => (Some "-", r)
  | _ => (None, s)
  end%char.

(** [(\d{1,2})]: greedy, two digits when there are two.  What follows
    is [:] or the end, so after two digits were taken a retry with one
    digit fails on the second digit. *)
Definition hours (s : string) : option (string * string) :=
  match s with
  | String a (String b r) =>
      if Js.is_digit a then
        if Js.is_digit b then Some (String a (String b ""), r)
        else Some (String a "", String b r)
      else None
  | String a "" => if Js.is_digit a then Some (String a "", "") else None
  | "" => None
  end.

(** [(?::(\d{2}))?$] *)
Definition minutes (s : string) : option (option string) :=
  match s with
  | "" => Some None
  | String ":"%char (String a (String b "")) =>
      if Js.is_digit a && Js.is_digit b
      then Some (Some (String a (String b ""))) else None
  | _ => None
  end.

(** [q.match(/^(?:utc|gmt)\s*([+-])?\s*(\d{1,2})(?::(\d{2}))?$/)] *)
Definition regex_match (q : string) : option Match :=
  r0 ← literal q;
  let r1 := spaces r0 in
  let '(sg, r2) := sign r1 in
  let r3 := spaces r2 in
  '(hh, r4) ← hours r3;
  mm ← minutes r4;
  Some (mkMatch sg hh mm).

(** [/^(?:utc|gmt)$/.test(q)] *)
Definition bare_literal (q : string) : bool :=
  bool_decide (q = "utc") || bool_decide (q = "gmt").

(** [parseOffsetQuery]: [None] is JavaScript's [null].  With sign [-]
    and a zero amount JavaScript yields [-0], which [===] does not tell
    from [0]; both are [0] here. *)
Definition parseOffsetQuery (q : string) : option Z :=
  match regex_match q with
  | None => if bare_literal q then Some 0 else None
  | Some m =>
      let sign := if bool_decide (m1 m = Some "-"%char) then -1 else 1 in
      let hours := Js.parseInt (m2 m) in
      let mins := match m3 m with Some d => Js.parseInt d | None => 0 end in
      Some (sign * (hours * 60 + mins))
  end.

End OffsetQuery.

(** ** Search and grouping ([CitySearch.tsx]) *)

Module Search.

(** A [Map<string, City[]>] in insertion order. *)
Definition CountryMap := list (string * list City).

(** [map.get(key)] *)
Fixpoint map_get (key : string) (map : CountryMap) : option (list City) :=
  match map with
  | [] => None
  | (k, v) :: rest => if bool_decide (k = key) then Some v else map_get key rest
  end.

(** [map.set(key, value)]: a present key keeps its place, a new key goes
    to the end. *)
Fixpoint map_set (key : string) (value : list City) (map : CountryMap)
  : CountryMap :=
  match map with
  | [] => [(key, value)]
  | (k, v) :: rest =>
      if bool_decide (k = key) then (k, value) :: rest
      else (k, v) :: map_set key value rest
  end.

(** One entry of [GroupedResults]. *)
Record Group := mkGroup {
  group_country : string;
  cities : list City;
}.

Definition GroupedResults := list Group.

(** The body of the loop of [groupByCountry].  [existing.push(city)]
    changes the array the map holds for that country, which is the
    same as storing the longer array under the same key. *)
Definition group_step (map : CountryMap) (city : City) : CountryMap :=
  match map_get (country city) map with
  | Some existing => map_set (country city) (existing ++ [city]) map
  | None => map_set (country city) [city] map
  end.

Definition groupByCountry (cs : list City) : GroupedResults :=
  let map := foldl group_step [] cs in
  (λ '(country, cities), mkGroup country cities) <$> map.

(** What the [useMemo] of [CitySearch] returns. *)
Record SearchResult := mkSearchResult {
  results : list City;
  grouped : GroupedResults;
  showGroups : bool;
}.

(** The first loop of the free-text branch: the cities matched by name,
    and the set [seen] of their names. *)
Definition name_step (q : string) (acc : list City * gset string) (c : City)
  : list City * gset string :=
  let '(cityMatches, seen) := acc in
  if Js.includes (Js.toLowerCase (name c)) q
  then (cityMatches ++ [c], seen ∪ {[name c]})
  else (cityMatches, seen).

(** The second loop: the cities matched by country whose name is not in
    [seen]. *)
Definition country_step (q : string) (seen : gset string)
    (countryMatches : list City) (c : City) : list City :=
  if negb (bool_decide (name c ∈ seen))
     && Js.includes (Js.toLowerCase (country c)) q
  then countryMatches ++ [c]
  else countryMatches.

(** The callback of the filter of the offset branch, with its
    [try]/[catch].  [zoneOffset now tz] stands for
    [DateTime.fromMillis(now).setZone(tz).offset]. *)
Definition offset_matches (zoneOffset : Z → string → Js.Res Js.jsnum)
    (now : Z) (offsetMinutes : Z) (c : City) : Js.Res bool :=
  Js.try_catch
    (Js.bind (zoneOffset now (tz c)) (λ offset,
     Js.Ok (Js.strict_eq offset (Js.Num offsetMinutes))))
    (λ _, Js.Ok false).

(** The memo of [CitySearch].  [CITIES] is the catalog, [now] the value
    the one call of [Date.now()] returns. *)
Definition search (CITIES : list City)
    (zoneOffset : Z → string → Js.Res Js.jsnum)
    (now : Z) (query : string) : Js.Res SearchResult :=
  let q := Js.toLowerCase (Js.trim query) in
  if bool_decide (String.length q = 0%nat)
  then Js.Ok (mkSearchResult [] [] false)
  else
    match OffsetQuery.parseOffsetQuery q with
    | Some offsetMinutes =>
        Js.bind (Js.filterM (offset_matches zoneOffset now offsetMinutes) CITIES)
          (λ all,
           let matched := take 12 all in
           Js.Ok (mkSearchResult matched (groupByCountry matched) true))
    | None =>
        let '(cityMatches, seen) := foldl (name_step q) ([], ∅) CITIES in
        let countryMatches := foldl (country_step q seen) [] CITIES in
        let combined := take 12 (cityMatches ++ countryMatches) in
        let hasCountryMatches := bool_decide (0 < length countryMatches)%nat in
        let multipleCountries :=
          bool_decide
            (1 < size (list_to_set (country <$> combined) : gset string))%nat in
        Js.Ok (mkSearchResult combined (groupByCountry combined)
                 (hasCountryMatches || multipleCountries))
    end.

(** [grouped.flatMap((g) => g.cities)] *)
Definition flatten (g : GroupedResults) : list City :=
  concat (cities <$> g).

(** The memo [flatResults], the sequence the arrow keys walk. *)
Definition flatResults (r : SearchResult) : list City :=
  if showGroups r then flatten (grouped r) else results r.

End Search.

(** ** Formatting ([lib/utils.ts]) *)

Module Utils.

(** [formatDiff] *)
Definition formatDiff (minutes : Js.jsnum) : string :=
  if Js.strict_eq minutes (Js.Num 0) then "same time"
  else
    let sign := if Js.gt minutes (Js.Num 0) then "+" else "-" in
    let abs := Js.Math_abs minutes in
    let h := Js.floor_div abs 60 in
    let m := Js.rem abs 60 in
    if Js.strict_eq m (Js.Num 0) then sign +:+ Js.toString h +:+ "h"
    else sign +:+ Js.toString h +:+ "h " +:+ Js.toString m +:+ "m".

End Utils.

(** ** The explorer state ([TimezoneExplorer.tsx]) *)

Module Explorer.

(** The part of the component state the handlers below touch. *)
Record State := mkState {
  homeTz : string;
  pinnedCities : list City;
  highlightedCities : list City;
  hiddenCities : gset string;
}.

(** The [useState] initial values. *)
Definition initial : State := mkState "Europe/Sarajevo" [] [] ∅.

(** What a state updater [(prev) => ...] hands back: [prev] itself,
    the same object, or a new value. *)
Inductive Update (A : Type) := Same | Fresh (next : A).
Arguments Same {A}.
Arguments Fresh {A} next.

Definition apply_update {A} (prev : A) (u : Update A) : A :=
  match u with Same => prev | Fresh next => next end.

(** [xs.findIndex(p)]: the first index where [p] holds, [-1] if none. *)
Fixpoint findIndex_from {A} (i : Z) (p : A → bool) (xs : list A) : Z :=
  match xs with
  | [] => -1
  | x :: xs' => if p x then i else findIndex_from (i + 1) p xs'
  end.
Definition findIndex {A} (p : A → bool) (xs : list A) : Z :=
  findIndex_from 0 p xs.

(** [xs.filter((x, i) => p(x, i))] *)
Fixpoint filter_index_from {A} (i : Z) (p : A → Z → bool) (xs : list A)
  : list A :=
  match xs with
  | [] => []
  | x :: xs' =>
      if p x i then x :: filter_index_from (i + 1) p xs'
      else filter_index_from (i + 1) p xs'
  end.
Definition filter_index {A} (p : A → Z → bool) (xs : list A) : list A :=
  filter_index_from 0 p xs.

(** [xs.some(p)] *)
Definition some {A} (p : A → bool) (xs : list A) : bool := existsb p xs.

(** The updater [handleCityPin] gives to [setPinnedCities]. *)
Definition pin_updater (city : City) (prev : list City) : Update (list City) :=
  let exists_ := findIndex (λ c, bool_decide (name c = name city)) prev in
  if bool_decide (0 ≤ exists_)
  then Fresh (filter_index (λ _ i, negb (bool_decide (i = exists_))) prev)
  else if bool_decide (4 ≤ length prev)%nat then Same
  else Fresh (prev ++ [city]).

(** The updater [handleCityPin] gives to [setHiddenCities]. *)
Definition unhide_updater (city : City) (prev : gset string)
  : Update (gset string) :=
  if negb (bool_decide (name city ∈ prev)) then Same
  else
    let next := prev in
    Fresh (next ∖ {[name city]}).

(** [handleCityPin]: the toggle path (map click, remove button). *)
Definition handleCityPin (city : City) (st : State) : State :=
  mkState (homeTz st)
    (apply_update (pinnedCities st) (pin_updater city (pinnedCities st)))
    (highlightedCities st)
    (apply_update (hiddenCities st) (unhide_updater city (hiddenCities st))).

(** [handleSelect] of [CitySearch], with [onSelect = handleCityPin] and
    [pinnedCities] the current pinned set: the search-select path. *)
Definition handleSelect (city : City) (st : State) : State :=
  if negb (some (λ c, bool_decide (name c = name city)) (pinnedCities st))
  then handleCityPin city st
  else st.

(** The "Clear all" button: [setPinnedCities([])]. *)
Definition clearAll (st : State) : State :=
  mkState (homeTz st) [] (highlightedCities st) (hiddenCities st).

(** The remove button of the map tooltip: unpin if pinned, then hide. *)
Definition removeFromMap (city : City) (st : State) : State :=
  let isPinned :=
    some (λ c, bool_decide (name c = name city)) (pinnedCities st) in
  let st1 := if isPinned then handleCityPin city st else st in
  mkState (homeTz st1) (pinnedCities st1) (highlightedCities st1)
    (hiddenCities st1 ∪ {[name city]}).

(** The memo [visibleCities]: the cities drawn on the map. *)
Definition visibleCities (CITIES : list City)
    (FEATURED_CITY_NAMES : gset string) (st : State) : list City :=
  let pinnedNames : gset string := list_to_set (name <$> pinnedCities st) in
  let highlightedNames : gset string :=
    list_to_set (name <$> highlightedCities st) in
  List.filter
    (λ c, bool_decide (name c ∈ highlightedNames)
          || bool_decide (name c ∈ pinnedNames)
          || (negb (bool_decide (name c ∈ hiddenCities st))
              && bool_decide (name c ∈ FEATURED_CITY_NAMES)))
    CITIES.

(** The user actions that change the pinned set. *)
Inductive Action :=
| Toggle (city : City)
| Select (city : City)
| RemoveFromMap (city : City)
| ClearAll.

Definition step (st : State) (a : Action) : State :=
  match a with
  | Toggle city => handleCityPin city st
  | Select city => handleSelect city st
  | RemoveFromMap city => removeFromMap city st
  | ClearAll => clearAll st
  end.

Definition run (st : State) (actions : list Action) : State :=
  foldl step st actions.

(** The [diff] field of one entry of [pinnedDerived]. *)
Definition pinnedDiff (zoneOffset : Z → string → Js.Res Js.jsnum)
    (now : Z) (home : string) (city : City) : list string :=
  match
    Js.try_catch
      (Js.bind (zoneOffset now (tz city)) (λ zoneTime_offset,
       Js.bind (zoneOffset now home) (λ homeTime_offset,
       let diffMinutes := Js.sub zoneTime_offset homeTime_offset in
       Js.Ok [Utils.formatDiff diffMinutes])))
      (λ _, Js.Ok [])
  with
  | Js.Ok l => l
  | Js.Throw _ => []
  end.

End Explorer.

(** ** The URL ([TimezoneExplorer.tsx], and the browser's side of it) *)

Module Url.

(** [name.replace(/ /g, "%20")] *)
Fixpoint encodeSpaces (s : string) : string :=
  match s with
  | "" => ""
  | String c s' =>
      if bool_decide (c = " "%char) then "%20" +:+ encodeSpaces s'
      else String c (encodeSpaces s')
  end.

(** The string the URL effect hands to [history.replaceState]. *)
Definition syncUrl (pathname : string) (st : Explorer.State) : string :=
  let parts : list string :=
    (if bool_decide (0 < length (Explorer.pinnedCities st))%nat
     then ["compare=" +:+
           Js.join "," ((λ c, encodeSpaces (name c)) <$> Explorer.pinnedCities st)]
     else [])
    ++ ["home=" +:+ Explorer.homeTz st] in
  pathname +:+ "?" +:+ Js.join "&" parts.

(** *** The browser: from the URL given to [replaceState] to
    [window.location.search] (URL Standard, basic URL parser). *)

Definition code (c : ascii) : N := N_of_ascii c.

(** Leading and trailing C0 controls and spaces are stripped. *)
Fixpoint strip_leading (s : string) : string :=
  match s with
  | String c s' => if (code c <=? 32)%N then strip_leading s' else s
  | "" => ""
  end.
Definition strip (s : string) : string :=
  String.rev (strip_leading (String.rev (strip_leading s))).

(** Tabs and newlines are removed everywhere. *)
Fixpoint remove_tab_newline (s : string) : string :=
  match s with
  | "" => ""
  | String c s' =>
      if bool_decide (c = "009"%char) || bool_decide (c = "010"%char)
         || bool_decide (c = "013"%char)
      then remove_tab_newline s'
      else String c (remove_tab_newline s')
  end.

(** The part of [s] before the first [stop], and the part after it
    ([None] when [stop] does not occur). *)
Fixpoint cut (stop : ascii) (s : string) : string * option string :=
  match s with
  | "" => ("", None)
  | String c s' =>
      if bool_decide (c = stop) then ("", Some s')
      else let '(a, b) := cut stop s' in (String c a, b)
  end.

Definition hex_digit (n : N) : ascii :=
  if (n <? 10)%N then ascii_of_N (48 + n) else ascii_of_N (55 + n).

(** The UTF-8 bytes of a character below 256: the character itself
    below 128, two bytes from there on. *)
Definition utf8_char (c : ascii) : string :=
  if (code c <? 128)%N then String c ""
  else String (ascii_of_N (192 + code c / 64))
         (String (ascii_of_N (128 + code c mod 64)) "").

Fixpoint utf8_encode (s : string) : string :=
  match s with
  | "" => ""
  | String c s' => utf8_char c +:+ utf8_encode s'
  end.

Definition percent_encode_byte (b : ascii) : string :=
  String "%" (String (hex_digit (code b / 16)) (String (hex_digit (code b mod 16)) "")).

Fixpoint percent_encode_bytes (bytes : string) : string :=
  match bytes with
  | "" => ""
  | String b r => percent_encode_byte b +:+ percent_encode_bytes r
  end.

(** UTF-8 percent-encoding of a character. *)
Definition percent_encode (c : ascii) : string :=
  percent_encode_bytes (utf8_char c).

(** The special-query percent-encode set: controls, space, the double
    quote (code 34), [#], [<], [>], the single quote, and everything
    from code 127 on. *)
Definition in_query_set (c : ascii) : bool :=
  (code c <=? 32)%N || (127 <=? code c)%N
  || bool_decide (c = "034"%char) || bool_decide (c = "#"%char)
  || bool_decide (c = "<"%char) || bool_decide (c = ">"%char)
  || bool_decide (c = "'"%char).

Fixpoint encode_query (s : string) : string :=
  match s with
  | "" => ""
  | String c s' =>
      if in_query_set c then percent_encode c +:+ encode_query s'
      else String c (encode_query s')
  end.

(** [window.location.search] once [replaceState(null, "", url)] ran,
    for a [url] that starts with a path. *)
Definition location_search (url : string) : string :=
  let input := remove_tab_newline (strip url) in
  let '(before_fragment, _) := cut "#" input in
  match cut "?" before_fragment with
  | (_, Some query) =>
      if bool_decide (query = "") then "" else "?" +:+ encode_query query
  | (_, None) => ""
  end.

(** *** The browser: [new URLSearchParams(search)] and [get]. *)

Definition hex_value (c : ascii) : option N :=
  let n := code c in
  if ((48 <=? n) && (n <=? 57))%N then Some (n - 48)%N
  else if ((65 <=? n) && (n <=? 70))%N then Some (n - 55)%N
  else if ((97 <=? n) && (n <=? 102))%N then Some (n - 87)%N
  else None.

(** Percent-decoding, from bytes to bytes. *)
Fixpoint percent_decode (s : string) : string :=
  match s with
  | "" => ""
  | String c rest =>
      match rest with
      | String a (String b r) =>
          match bool_decide (c = "%"%char), hex_value a, hex_value b with
          | true, Some x, Some y =>
              String (ascii_of_N (16 * x + y)) (percent_decode r)
          | _, _, _ => String c (percent_decode rest)
          end
      | _ => String c (percent_decode rest)
      end
  end.

Fixpoint plus_to_space (s : string) : string :=
  match s with
  | "" => ""
  | String c s' =>
      String (if bool_decide (c = "+"%char) then " "%char else c) (plus_to_space s')
  end.

(** UTF-8 decoding, for the byte sequences that stand for characters
    below 256: a byte below 128 is its character, and the bytes 194 or
    195 followed by a continuation byte are one character from 128 to
    255.  For any other byte the browser yields a character beyond 255
    or the replacement character U+FFFD, which the strings of this
    embedding do not have; the byte is kept as it is there. *)
Fixpoint utf8_decode (bytes : string) : string :=
  match bytes with
  | "" => ""
  | String b rest =>
      match rest with
      | String b' r =>
          if ((194 <=? code b) && (code b <=? 195)
              && (128 <=? code b') && (code b' <=? 191))%N
          then String (ascii_of_N ((code b - 192) * 64 + (code b' - 128)))
                 (utf8_decode r)
          else String b (utf8_decode rest)
      | "" => String b ""
      end
  end.

Definition decode_component (s : string) : string :=
  utf8_decode (percent_decode (plus_to_space s)).

(** The [application/x-www-form-urlencoded] parser: the input is
    turned into its UTF-8 bytes, cut at every [&], each piece is cut at
    its first [=], and both halves are decoded. *)
Definition parse_pair (seq : string) : string * string :=
  let '(n, v) := cut "=" seq in
  (decode_component n, decode_component (default "" v)).

Definition URLSearchParams (search : string) : list (string * string) :=
  let input :=
    match search with
    | String "?"%char rest => rest
    | _ => search
    end in
  parse_pair <$>
    List.filter (λ seq, negb (bool_decide (seq = "")))
      (Js.split "&" (utf8_encode input)).

(** [params.get(key)]: the value of the first pair named [key];
    [None] is [null]. *)
Fixpoint get (key : string) (params : list (string * string)) : option string :=
  match params with
  | [] => None
  | (n, v) :: rest => if bool_decide (n = key) then Some v else get key rest
  end.

(** *** The URL part of the mount effect. *)

(** [if (s)] on a string or [null]: true for a non-empty string. *)
Definition truthy (s : option string) : bool :=
  match s with Some v => negb (bool_decide (v = "")) | None => false end.

(** [names.map((name) => CITIES.find(...)).filter(Boolean)] *)
Definition lookup_names (CITIES : list City) (names : list string) : list City :=
  omap (λ n, List.find (λ c, bool_decide (name c = n)) CITIES) names.

(** The mount effect on the pinned set and the home zone.
    [browserTz] stands for
    [Intl.DateTimeFormat().resolvedOptions().timeZone], which may throw. *)
Definition mount (CITIES : list City) (browserTz : Js.Res string)
    (search : string) (st : Explorer.State) : Explorer.State :=
  let params := URLSearchParams search in
  let compareParam := get "compare" params in
  let homeParam := get "home" params in
  let pinned :=
    if truthy compareParam then
      let names := Js.trim <$> Js.split "," (default "" compareParam) in
      let found := lookup_names CITIES names in
      if bool_decide (0 < length found)%nat then take 4 found
      else Explorer.pinnedCities st
    else Explorer.pinnedCities st in
  let home :=
    if truthy homeParam then default "" homeParam
    else
      match browserTz with
      | Js.Ok b => if truthy (Some b) then b else Explorer.homeTz st
      | Js.Throw _ => Explorer.homeTz st
      end in
  Explorer.mkState home pinned (Explorer.highlightedCities st)
    (Explorer.hiddenCities st).

(** Write the URL for [st], then open that URL in a fresh page. *)
Definition reload (CITIES : list City) (browserTz : Js.Res string)
    (pathname : string) (st : Explorer.State) : Explorer.State :=
  mount CITIES browserTz (location_search (syncUrl pathname st)) Explorer.initial.

End Url.

(** ** The written specification, as definitions *)

Module Spec.

Fixpoint string_forall (p : ascii → bool) (s : string) : bool :=
  match s with
  | "" => true
  | String c s' => p c && string_forall p s'
  end.

(** "optional sign ([+]/[-], default [+])" *)
Definition sign_field (sg : string) (sgn : Z) : Prop :=
  (sg = "" ∧ sgn = 1) ∨ (sg = "+" ∧ sgn = 1) ∨ (sg = "-" ∧ sgn = -1).

(** "1-2 digits of hours" *)
Definition hour_field (hh : string) (h : Z) : Prop :=
  string_forall Js.is_digit hh = true ∧
  (1 ≤ String.length hh ≤ 2)%nat ∧
  h = Js.parseInt hh.

(** "optional [:MM] minutes (2 digits)" *)
Definition minute_field (mm : string) (m : Z) : Prop :=
  (mm = "" ∧ m = 0) ∨
  (∃ dd, mm = ":" +:+ dd ∧ string_forall Js.is_digit dd = true ∧
         String.length dd = 2%nat ∧ m = Js.parseInt dd).

(** "literal [utc] or [gmt]" *)
Definition literal_field (lit : string) : Prop := lit = "utc" ∨ lit = "gmt".

(** The number a decimal numeral stands for: each digit times the
    power of ten of its place. *)
Fixpoint decimal (s : string) : Z :=
  match s with
  | "" => 0
  | String c s' =>
      (Z.of_N (N_of_ascii c) - 48) * 10 ^ Z.of_nat (String.length s')
      + decimal s'
  end.

(** "1-2 digits of hours" and "optional [:MM] minutes (2 digits)", with
    the numbers the digits stand for. *)
Definition hours_written (hh : string) (h : Z) : Prop :=
  string_forall Js.is_digit hh = true ∧
  (1 ≤ String.length hh ≤ 2)%nat ∧
  h = decimal hh.

Definition minutes_written (mm : string) (m : Z) : Prop :=
  (mm = "" ∧ m = 0) ∨
  (∃ dd, mm = ":" +:+ dd ∧ string_forall Js.is_digit dd = true ∧
         String.length dd = 2%nat ∧ m = decimal dd).

(** The grammar as the specification words it: "optional literal [utc]
    or [gmt], optional whitespace, optional sign ([+]/[-], default
    [+]), 1-2 digits of hours, optional [:MM] minutes (2 digits)".
    [lit] is the literal of the input, empty when it is left out;
    white space stands in one place, before the sign. *)
Definition written_query (lit q : string) (sgn h m : Z) : Prop :=
  (lit = "" ∨ literal_field lit) ∧
  ∃ ws sg hh mm,
    q = lit +:+ ws +:+ sg +:+ hh +:+ mm ∧
    string_forall Js.is_space ws = true ∧
    sign_field sg sgn ∧
    hours_written hh h ∧
    minutes_written mm m.

(** The offset grammar with the literal left out: white space, the
    sign, white space, the hours, the minutes.  A trimmed input has no
    white space in front. *)
Definition offset_query_without_literal (q : string) (sgn h m : Z) : Prop :=
  ∃ ws1 sg ws2 hh mm,
    q = ws1 +:+ sg +:+ ws2 +:+ hh +:+ mm ∧
    string_forall Js.is_space ws1 = true ∧
    sign_field sg sgn ∧
    string_forall Js.is_space ws2 = true ∧
    hour_field hh h ∧
    minute_field mm m.

(** The home difference: "same time" when zero; otherwise the sign,
    the hours, and the minutes only when they are not zero. *)
Definition diff_text (d : Z) : string :=
  if decide (d = 0) then "same time"
  else
    (if decide (0 < d) then "+" else "-")
    +:+ pretty (Z.abs d / 60) +:+ "h"
    +:+ (if decide (Z.abs d mod 60 = 0) then ""
         else " " +:+ pretty (Z.abs d mod 60) +:+ "m").

(** The pinned set: "length ≤ 4; no duplicate names". *)
Definition pin_invariant (pinned : list City) : Prop :=
  (length pinned ≤ 4)%nat ∧ NoDup (name <$> pinned).

(** A city is pinned when its name is the name of a pinned city. *)
Definition is_pinned (city : City) (pinned : list City) : Prop :=
  name city ∈ (name <$> pinned).

(** Two characters that are the same letter, whatever their case: the
    same character, or a capital (A-Z, or the Latin-1 capitals 192-222
    without the multiplication sign 215) and its small letter, which
    stands 32 places further on. *)
Definition is_capital (n : N) : bool :=
  ((65 <=? n) && (n <=? 90) || (192 <=? n) && (n <=? 222) && negb (n =? 215))%N.

Definition same_letter (c d : ascii) : bool :=
  let x := N_of_ascii c in
  let y := N_of_ascii d in
  ((x =? y) || is_capital x && (y =? x + 32) || is_capital y && (x =? y + 32))%N.

(** Two texts that are equal up to the case of their letters. *)
Fixpoint equal_ci (a b : string) : Prop :=
  match a, b with
  | "", "" => True
  | String c a', String d b' => same_letter c d = true ∧ equal_ci a' b'
  | _, _ => False
  end.

(** [text] starts with [query], up to case; [query] occurs in [text],
    up to case. *)
Fixpoint starts_ci (text query : string) : bool :=
  match query, text with
  | "", _ => true
  | String q query', String t text' => same_letter t q && starts_ci text' query'
  | String _ _, "" => false
  end.

Fixpoint occurs_ci (text query : string) : bool :=
  starts_ci text query ||
  match text with
  | "" => false
  | String _ text' => occurs_ci text' query
  end.

(** "contains the query as a case-insensitive substring" *)
Definition contains_ci (text query : string) : Prop :=
  occurs_ci text query = true.

#[global] Instance contains_ci_dec text query : Decision (contains_ci text query).
Proof. unfold contains_ci. apply _. Defined.

(** The free-text result: "(a) cities whose name contains the query ...
    in catalog order; (b) cities not already in (a) whose country
    contains the query ..., in catalog order.  Concatenate (a) then
    (b), truncate to 12."  The query is the trimmed input. *)
Definition free_text_results (CITIES : list City) (query : string)
  : list City :=
  let needle := Js.trim query in
  let a := filter (λ c, contains_ci (name c) needle) CITIES in
  let b := filter (λ c, (c ∉ a) ∧ contains_ci (country c) needle) CITIES in
  take 12 (a ++ b).

(** The offset result: the catalog cities whose zone has the requested
    offset at [now], in catalog order, truncated to 12. *)
Definition offset_results (CITIES : list City)
    (zoneOffset : Z → string → Js.Res Js.jsnum) (now offsetMinutes : Z)
  : list City :=
  take 12
    (filter (λ c, zoneOffset now (tz c) = Js.Ok (Js.Num offsetMinutes)) CITIES).

(** The first occurrences of a list of keys, in order. *)
Fixpoint first_seen (ks : list string) : list string :=
  match ks with
  | [] => []
  | k :: ks' => k :: filter (λ x, x ≠ k) (first_seen ks')
  end.

(** "partition the ... result list into groups keyed by country,
    preserving first-occurrence order of countries and of cities within
    each country" *)
Definition partition_by_country (l : list City) : list (string * list City) :=
  (λ k, (k, filter (λ c, country c = k) l)) <$> first_seen (country <$> l).

(** The cities of each country stand next to each other: a city is
    followed by a city of its country, or its country does not come
    back. *)
Fixpoint adjacent_by_country (l : list City) : Prop :=
  match l with
  | [] => True
  | c :: l' =>
      (match l' with
       | [] => True
       | d :: _ => country c = country d ∨ country c ∉ (country <$> l')
       end) ∧ adjacent_by_country l'
  end.

(** The cities of the countries [ks], country by country. *)
Definition runs (ks : list string) (l : list City) : list City :=
  concat ((λ k, filter (λ c, country c = k) l) <$> ks).

(** The order of the grouped view: the partition by country, flattened. *)
Definition grouped_order (l : list City) : list City :=
  runs (first_seen (country <$> l)) l.

(** A character that the URL carries as it is: printable ASCII without
    the characters the URL gives a meaning to or rewrites (code 34 is
    the double quote). *)
Definition url_plain (c : ascii) : bool :=
  (33 <=? N_of_ascii c)%N && (N_of_ascii c <=? 126)%N &&
  negb (bool_decide
          (c ∈ ["034"; "#"; "%"; "&"; "'"; "+"; ","; "<"; "="; ">"; "?"]%char)).

(** The characters a value cannot have in the URL: [#] starts the
    fragment, [&] ends the parameter, [+] is read back as a space, and
    tabs and line breaks are taken out of a URL. *)
Definition url_char (c : ascii) : bool :=
  negb (bool_decide (c ∈ ["#"; "&"; "+"; "009"; "010"; "013"]%char)).

Definition is_hex (c : ascii) : bool :=
  let n := N_of_ascii c in
  ((48 <=? n) && (n <=? 57) || (65 <=? n) && (n <=? 70)
   || (97 <=? n) && (n <=? 102))%N.

(** Whether [s] starts with a percent escape, [%] and two hexadecimal
    digits, which is read back as one character; and a text with no
    escape in it. *)
Definition escape_at (s : string) : bool :=
  match s with
  | String c (String a (String b _)) =>
      bool_decide (c = "%"%char) && is_hex a && is_hex b
  | _ => false
  end.

Fixpoint no_escape (s : string) : bool :=
  match s with
  | "" => true
  | String _ s' => negb (escape_at s) && no_escape s'
  end.

(** A text the URL carries as a value. *)
Definition url_text (s : string) : Prop :=
  string_forall url_char s = true ∧ no_escape s = true.

(** A city name the URL carries: not empty, no white space at either
    end, no comma, and a text the URL carries. *)
Definition url_name (n : string) : Prop :=
  n ≠ "" ∧ Js.trim n = n ∧
  string_forall (λ c, negb (bool_decide (c = ","%char))) n = true ∧
  url_text n.

(** A home zone the URL carries: a text the URL carries whose last
    character is neither a space nor a control character (the zone
    stands at the end of the URL, where those are cut off); this leaves
    the empty text out. *)
Definition ends_visibly (s : string) : Prop :=
  match String.rev s with
  | String c _ => (32 < N_of_ascii c)%N
  | "" => False
  end.

Definition url_zone (z : string) : Prop := url_text z ∧ ends_visibly z.

(** A pathname, which has no [?] and no [#]: the first ends the path
    of a URL and the second starts the fragment. *)
Definition path_char (c : ascii) : bool :=
  negb (bool_decide (c = "?"%char)) && negb (bool_decide (c = "#"%char)).

Definition url_pathname (p : string) : Prop := string_forall path_char p = true.

End Spec.

(** ** The language of the regular expression *)

Module Regex.

(** What [/^(?:utc|gmt)\s*([+-])?\s*(\d{1,2})(?::(\d{2}))?$/] matches,
    read off the expression item by item: the literal, white space, the
    sign when there is one, white space again, one or two digits, and
    [:] with two digits when they are there.  [sgn], [h] and [m] are
    the sign and the numbers the two digit groups stand for. *)
Definition language (q : string) (sgn h m : Z) : Prop :=
  ∃ lit ws1 sg ws2 hh mm,
    q = lit +:+ ws1 +:+ sg +:+ ws2 +:+ hh +:+ mm ∧
    Spec.literal_field lit ∧
    Spec.string_forall Js.is_space ws1 = true ∧
    Spec.sign_field sg sgn ∧
    Spec.string_forall Js.is_space ws2 = true ∧
    Spec.hours_written hh h ∧
    Spec.minutes_written mm m.

End Regex.

(** ** A small catalog for the worked instances *)

Module Sample.

Definition London := mkCity "London" "United Kingdom" "Europe/London" (515 # 10) (-1 # 10).
Definition Paris := mkCity "Paris" "France" "Europe/Paris" (489 # 10) (24 # 10).
Definition Madrid := mkCity "Madrid" "Spain" "Europe/Madrid" (404 # 10) (-37 # 10).
Definition Marseille := mkCity "Marseille" "France" "Europe/Paris" (433 # 10) (54 # 10).
Definition New_York := mkCity "New York" "United States" "America/New_York" (407 # 10) (-740 # 10).
Definition Tokyo := mkCity "Tokyo" "Japan" "Asia/Tokyo" (357 # 10) (1397 # 10).
Definition Sydney := mkCity "Sydney" "Australia" "Australia/Sydney" (-339 # 10) (1512 # 10).
(** A name with a comma in it. *)
Definition Washington :=
  mkCity "Washington, D.C." "United States" "America/New_York" (389 # 10) (-770 # 10).
(** Names with an apostrophe and with a letter beyond ASCII (code 227,
    a with tilde). *)
Definition St_Johns :=
  mkCity "St. John's" "Canada" "America/St_Johns" (476 # 10) (-527 # 10).
Definition Sao_Paulo :=
  mkCity (String "S" (String "227" "o Paulo")) "Brazil" "America/Sao_Paulo"
    (-235 # 10) (-466 # 10).
(** Two entries whose zones the date library does not know. *)
Definition Atlantis := mkCity "Atlantis" "Nowhere" "Sea/Atlantis" 0 0.
Definition Lemuria := mkCity "Lemuria" "Nowhere" "Sea/Lemuria" 0 0.

Definition CITIES : list City :=
  [London; Paris; Madrid; Marseille; New_York; Tokyo; Sydney; Atlantis; Lemuria].

Definition FEATURED_CITY_NAMES : gset string :=
  {["London"; "New York"; "Tokyo"]}.

(** Winter offsets.  For a zone it does not know the date library
    hands out a date that is not valid, whose offset is [NaN]; it does
    not throw. *)
Definition zoneOffset (now : Z) (zone : string) : Js.Res Js.jsnum :=
  if bool_decide (zone = "Europe/London") then Js.Ok (Js.Num 0)
  else if bool_decide (zone = "Europe/Paris") then Js.Ok (Js.Num 60)
  else if bool_decide (zone = "Europe/Madrid") then Js.Ok (Js.Num 60)
  else if bool_decide (zone = "America/New_York") then Js.Ok (Js.Num (-300))
  else if bool_decide (zone = "Asia/Tokyo") then Js.Ok (Js.Num 540)
  else if bool_decide (zone = "Australia/Sydney") then Js.Ok (Js.Num 660)
  else Js.Ok Js.NaN.

End Sample.

(** ** More of the JavaScript library *)

Module JsExtra.

(** [a >= b] and [a < b] on numbers; false when either is [NaN]. *)
Definition ge (a b : Js.jsnum) : bool :=
  match a, b with Js.Num x, Js.Num y => bool_decide (y ≤ x) | _, _ => false end.

Definition lt (a b : Js.jsnum) : bool :=
  match a, b with Js.Num x, Js.Num y => bool_decide (x < y) | _, _ => false end.

(** [n] copies of [c]. *)
Fixpoint repeat_char (n : nat) (c : ascii) : string :=
  match n with
  | O => ""
  | S n' => String c (repeat_char n' c)
  end.

(** [s.padStart(n, fill)] for a one-character [fill]. *)
Definition padStart (n : nat) (fill : ascii) (s : string) : string :=
  repeat_char (n - String.length s) fill +:+ s.

(** [s.replace(/c/g, by)] for one character [c]. *)
Fixpoint replace_char (c : ascii) (by_ : string) (s : string) : string :=
  match s with
  | "" => ""
  | String x s' =>
      if bool_decide (x = c) then by_ +:+ replace_char c by_ s'
      else String x (replace_char c by_ s')
  end.

(** [xs[i]] for a number [i] that is an integer: [None] is
    [undefined]. *)
Definition index {A} (xs : list A) (i : Z) : option A :=
  if bool_decide (0 ≤ i) then xs !! Z.to_nat i else None.

(** Whether a computation returned. *)
Definition returns {A} (r : Js.Res A) : bool :=
  match r with Js.Ok _ => true | Js.Throw _ => false end.

End JsExtra.

(** ** [formatOffset] ([lib/utils.ts]) *)

Module Format.

Definition formatOffset (minutes : Js.jsnum) : string :=
  let sign := if JsExtra.ge minutes (Js.Num 0) then "+" else "-" in
  let abs := Js.Math_abs minutes in
  let h := JsExtra.padStart 2 "0" (Js.toString (Js.floor_div abs 60)) in
  let m := JsExtra.padStart 2 "0" (Js.toString (Js.rem abs 60)) in
  "UTC" +:+ sign +:+ h +:+ ":" +:+ m.

End Format.

(** ** The derived values ([TimezoneExplorer.tsx]) *)

Module Derived.

(** What the handlers read of a luxon [DateTime]. *)
Record DateTime := mkDateTime {
  offset : Js.jsnum;
  hour : Js.jsnum;
  minute : Js.jsnum;
  second : Js.jsnum;
  offsetNameShort : option string;
  toFormat : string → string;
}.

(** One entry of [pinnedDerived]. *)
Record Pinned := mkPinned {
  city : City;
  zoneTime : DateTime;
  utcOffset : string;
  diff : string;
  diffMinutes : Js.jsnum;
  abbrev : string;
  displayTime : string;
  displayDate : string;
  isDaytime : bool;
}.

(** The body of the [flatMap] of [pinnedDerived], inside its [try]. *)
Definition pinned_entry (setZone : Z → string → Js.Res DateTime)
    (now : Z) (homeTz : string) (c : City) : Js.Res (list Pinned) :=
  Js.bind (setZone now (tz c)) (λ zoneTime,
  Js.bind (setZone now homeTz) (λ homeTime,
  let diffMinutes := Js.sub (offset zoneTime) (offset homeTime) in
  let h := hour zoneTime in
  let isDaytime := JsExtra.ge h (Js.Num 6) && JsExtra.lt h (Js.Num 20) in
  Js.Ok
    [mkPinned c zoneTime
       (Format.formatOffset (offset zoneTime))
       (Utils.formatDiff diffMinutes)
       diffMinutes
       (default "" (offsetNameShort zoneTime))
       (toFormat zoneTime "HH:mm:ss")
       (toFormat zoneTime "dd LLL yyyy")
       isDaytime])).

(** The memo [pinnedDerived].  [setZone now zone] stands for
    [DateTime.fromMillis(now).setZone(zone)]; [now] is [None] before
    the first tick, and [!now] also holds for the number 0. *)
Definition pinnedDerived (setZone : Z → string → Js.Res DateTime)
    (now : option Z) (homeTz : string) (pinnedCities : list City)
  : list Pinned :=
  match now with
  | None => []
  | Some n =>
      if bool_decide (n = 0) then []
      else
        pinnedCities ≫= (λ c,
          match pinned_entry setZone n homeTz c with
          | Js.Ok entry => entry
          | Js.Throw _ => []
          end)
  end.

(** The three colours of the difference text. *)
Inductive Colour := green | sky | orange.

(** The colour of the difference in the hover panel. *)
Definition hoveredDiffColour (diff : string) : Colour :=
  if bool_decide (diff = "same time") then green
  else if Js.startsWith diff "+" then sky
  else orange.

(** The colour of the difference on a card of the compare panel. *)
Definition pinnedDiffColour (d : Pinned) : Colour :=
  if bool_decide (diff d = "same time") then green
  else if Js.gt (diffMinutes d) (Js.Num 0) then sky
  else orange.

(** The text under the clock of a card. *)
Definition pinnedDiffText (d : Pinned) : string :=
  if bool_decide (diff d = "same time") then "= home"
  else diff d +:+ " vs home".

End Derived.

(** ** The search box as a component ([CitySearch.tsx]) *)

Module SearchBox.

(** The state of [CitySearch], with the value its memo holds. *)
Record Box := mkBox {
  query : string;
  open : bool;
  activeIndex : Z;
  memo : Search.SearchResult;
}.

(** The search box and the explorer that owns it: [onSelect] is
    [handleCityPin], [onHighlight] is [setHighlightedCities], and
    [pinnedCities] is the pinned set of the explorer. *)
Record World := mkWorld {
  box : Box;
  app : Explorer.State;
}.

Definition initial : World :=
  mkWorld (mkBox "" false (-1) (Search.mkSearchResult [] [] false))
          Explorer.initial.

Inductive Key := Escape | ArrowDown | ArrowUp | Enter | OtherKey.

Inductive Event :=
| Change (text : string) (now : Z)
| Focus
| KeyDown (key : Key)
| ClickResult (city : City)
| ClickClear
| ClickOutside.

(** [setHighlightedCities(cities)] *)
Definition onHighlight (cities : list City) (st : Explorer.State)
  : Explorer.State :=
  Explorer.mkState (Explorer.homeTz st) (Explorer.pinnedCities st) cities
    (Explorer.hiddenCities st).

(** [setQuery(text)] and the render after it: the memo is computed
    again when the query differs from the one it was computed for, and
    the effect then hands the new results to [onHighlight].  [now] is
    what [Date.now()] returns during that render. *)
Definition setQuery (CITIES : list City)
    (zoneOffset : Z → string → Js.Res Js.jsnum)
    (text : string) (now : Z) (w : World) : Js.Res World :=
  if bool_decide (text = query (box w)) then Js.Ok w
  else
    Js.bind (Search.search CITIES zoneOffset now text) (λ r,
    Js.Ok (mkWorld (mkBox text (open (box w)) (activeIndex (box w)) r)
                   (onHighlight (Search.results r) (app w)))).

Definition setOpen (o : bool) (w : World) : World :=
  mkWorld (mkBox (query (box w)) o (activeIndex (box w)) (memo (box w))) (app w).

Definition setActiveIndex (i : Z) (w : World) : World :=
  mkWorld (mkBox (query (box w)) (open (box w)) i (memo (box w))) (app w).

(** [clearSearch].  The empty query reads no clock. *)
Definition clearSearch (CITIES : list City)
    (zoneOffset : Z → string → Js.Res Js.jsnum) (w : World) : Js.Res World :=
  Js.bind (setQuery CITIES zoneOffset "" 0 w) (λ w1,
  let w2 := setActiveIndex (-1) (setOpen false w1) in
  Js.Ok (mkWorld (box w2) (onHighlight [] (app w2)))).

(** [handleSelect] *)
Definition handleSelect (city : City) (w : World) : World :=
  let w1 :=
    if negb (Explorer.some (λ c, bool_decide (name c = name city))
               (Explorer.pinnedCities (app w)))
    then mkWorld (box w) (Explorer.handleCityPin city (app w))
    else w in
  setActiveIndex (-1) (setOpen false w1).

(** [handleKeyDown] *)
Definition handleKeyDown (CITIES : list City)
    (zoneOffset : Z → string → Js.Res Js.jsnum) (key : Key) (w : World)
  : Js.Res World :=
  let flatResults := Search.flatResults (memo (box w)) in
  let i := activeIndex (box w) in
  match key with
  | Escape => clearSearch CITIES zoneOffset w
  | ArrowDown =>
      Js.Ok (setActiveIndex (Z.min (i + 1) (Z.of_nat (length flatResults) - 1)) w)
  | ArrowUp => Js.Ok (setActiveIndex (Z.max (i - 1) 0) w)
  | Enter =>
      match bool_decide (0 ≤ i), JsExtra.index flatResults i with
      | true, Some city => Js.Ok (handleSelect city w)
      | _, _ => Js.Ok w
      end
  | OtherKey => Js.Ok w
  end.

Definition step (CITIES : list City)
    (zoneOffset : Z → string → Js.Res Js.jsnum) (w : World) (e : Event)
  : Js.Res World :=
  match e with
  | Change text now =>
      Js.bind (setQuery CITIES zoneOffset text now w) (λ w1,
      Js.Ok (setActiveIndex (-1) (setOpen true w1)))
  | Focus => Js.Ok (setOpen true w)
  | KeyDown key => handleKeyDown CITIES zoneOffset key w
  | ClickResult city => Js.Ok (handleSelect city w)
  | ClickClear => clearSearch CITIES zoneOffset w
  | ClickOutside => Js.Ok (setOpen false w)
  end.

Fixpoint run (CITIES : list City)
    (zoneOffset : Z → string → Js.Res Js.jsnum) (w : World) (es : list Event)
  : Js.Res World :=
  match es with
  | [] => Js.Ok w
  | e :: es' =>
      Js.bind (step CITIES zoneOffset w e) (λ w', run CITIES zoneOffset w' es')
  end.

End SearchBox.

(** ** The home zone picker ([HomeTimezonePicker.tsx]) *)

Module Picker.

Definition fallbackTzList : list string :=
  ["Africa/Cairo"; "Africa/Johannesburg"; "Africa/Lagos"; "Africa/Nairobi";
   "America/Anchorage"; "America/Argentina/Buenos_Aires"; "America/Bogota";
   "America/Chicago"; "America/Denver"; "America/Lima"; "America/Los_Angeles";
   "America/Mexico_City"; "America/New_York"; "America/Santiago"; "America/Sao_Paulo";
   "America/Toronto"; "America/Vancouver";
   "Asia/Bangkok"; "Asia/Dubai"; "Asia/Hong_Kong"; "Asia/Jakarta"; "Asia/Jerusalem";
   "Asia/Karachi"; "Asia/Kolkata"; "Asia/Manila"; "Asia/Riyadh"; "Asia/Seoul";
   "Asia/Shanghai"; "Asia/Singapore"; "Asia/Tokyo";
   "Atlantic/Reykjavik";
   "Australia/Melbourne"; "Australia/Sydney";
   "Europe/Amsterdam"; "Europe/Athens"; "Europe/Berlin"; "Europe/Copenhagen";
   "Europe/Dublin"; "Europe/Helsinki"; "Europe/Istanbul"; "Europe/London";
   "Europe/Madrid"; "Europe/Moscow"; "Europe/Oslo"; "Europe/Paris";
   "Europe/Rome"; "Europe/Sarajevo"; "Europe/Stockholm";
   "Pacific/Auckland"; "Pacific/Honolulu"; "UTC"].

(** [getAllTimezones].  [supportedValuesOf] stands for
    [Intl.supportedValuesOf?.("timeZone")]: it throws, or gives
    [undefined] ([None]) where the function is missing, or the list. *)
Definition getAllTimezones (supportedValuesOf : Js.Res (option (list string)))
  : list string :=
  match supportedValuesOf with
  | Js.Ok (Some zones) => zones
  | Js.Ok None => fallbackTzList
  | Js.Throw _ => fallbackTzList
  end.

(** The memo [filtered]. *)
Definition filtered (allTzs : list string) (query : string) : list string :=
  let q := Js.trim (Js.toLowerCase query) in
  if bool_decide (q = "") then allTzs
  else List.filter (λ tz, Js.includes (Js.toLowerCase tz) q) allTzs.

(** [displayLabel]: [value.split("/").pop()?.replace(/_/g, " ") ?? value].
    [TimezoneExplorer] computes [homeTzLabel] with the same expression. *)
Definition displayLabel (value : string) : string :=
  match last (Js.split "/" value) with
  | Some segment => JsExtra.replace_char "_" " " segment
  | None => value
  end.

(** The memo [currentOffset], and the offset text of a row of the list. *)
Definition currentOffset (zoneOffset : Z → string → Js.Res Js.jsnum)
    (now : Z) (value : string) : string :=
  match zoneOffset now value with
  | Js.Ok offset => Format.formatOffset offset
  | Js.Throw _ => ""
  end.

Record State := mkState {
  open : bool;
  query : string;
}.

(** [handleSelect(tz)], with [onChange = setHomeTz]. *)
Definition handleSelect (tz : string) (p : State * Explorer.State)
  : State * Explorer.State :=
  (mkState false "",
   Explorer.mkState tz (Explorer.pinnedCities p.2)
     (Explorer.highlightedCities p.2) (Explorer.hiddenCities p.2)).

End Picker.

(** ** The theme ([TimezoneExplorer.tsx], [layout.tsx]) *)

Module Theme.

Inductive Theme := dark | light.

#[global] Instance Theme_eq_dec : EqDecision Theme.
Proof. solve_decision. Defined.

(** The string a theme is at run time. *)
Definition to_string (t : Theme) : string :=
  match t with dark => "dark" | light => "light" end.

(** What the theme code sees and changes of the page: whether the
    root element has the class [dark], and [localStorage]. *)
Record Page := mkPage {
  darkClass : bool;
  localStorage : gmap string string;
}.

(** [localStorage.getItem(key)]; [None] is [null]. *)
Definition getItem (key : string) (p : Page) : option string :=
  localStorage p !! key.

(** [localStorage.setItem(key, value)] *)
Definition setItem (key value : string) (p : Page) : Page :=
  mkPage (darkClass p) (<[key := value]> (localStorage p)).

(** [classList.toggle("dark", force)]: the class is there exactly when
    [force] holds. *)
Definition classList_toggle (force : bool) (p : Page) : Page :=
  mkPage force (localStorage p).

(** The [useState] initial value. *)
Definition initial : Theme := dark.

(** The theme part of the mount effect: the state after it. *)
Definition mountTheme (p : Page) (theme : Theme) : Theme :=
  let savedTheme := getItem "tz-theme" p in
  if bool_decide (savedTheme = Some "light") then light
  else if bool_decide (savedTheme = Some "dark") then dark
  else theme.

(** The effect that syncs the theme to the page. *)
Definition syncTheme (mounted : bool) (theme : Theme) (p : Page) : Page :=
  if negb mounted then p
  else
    setItem "tz-theme" (to_string theme)
      (classList_toggle (bool_decide (theme = dark)) p).

(** The script [layout.tsx] runs before the first paint.  [storage] is
    what [localStorage.getItem('tz-theme')] does: it returns, or it
    throws where storage is blocked, and the [catch] leaves the page as
    it is. *)
Definition prepaint (storage : Js.Res (option string)) (p : Page) : Page :=
  match storage with
  | Js.Ok t =>
      if bool_decide (t = Some "light")
      then mkPage false (localStorage p)
      else mkPage true (localStorage p)
  | Js.Throw _ => p
  end.

(** A visit of the page: the script; then the effects of the first
    render, where the component is not mounted yet; then the sync
    effect again, for the theme the mount effect has set. *)
Definition visit (p : Page) : Theme * Page :=
  let p1 := prepaint (Js.Ok (getItem "tz-theme" p)) p in
  let theme := mountTheme p1 initial in
  let p2 := syncTheme false initial p1 in
  (theme, syncTheme true theme p2).

End Theme.

(** ** The hover tooltip and its dismiss timer ([TimezoneExplorer.tsx]) *)

Module Hover.

(** The tooltip.  [P] is the type of its viewport position, which the
    code computes in floating point from the projection of the city
    and the rectangle of the map. *)
Record Tooltip (P : Type) := mkTooltip {
  tip_city : City;
  tip_at : P;
  tip_time : string;
}.
Arguments mkTooltip {P} _ _ _.
Arguments tip_city {P} _.
Arguments tip_at {P} _.
Arguments tip_time {P} _.

(** The hover state of the component together with the timers the
    browser holds for it: [timer] is [hoverDismissTimer.current],
    [pending] the ids of the timeouts set and neither fired nor
    cleared, [fresh] the id the next [setTimeout] returns (ids are
    positive and never used twice). *)
Record State (P : Type) := mkState {
  hoveredCity : option City;
  tooltip : option (Tooltip P);
  timer : option positive;
  pending : gset positive;
  fresh : positive;
}.
Arguments mkState {P} _ _ _ _ _.
Arguments hoveredCity {P} _.
Arguments tooltip {P} _.
Arguments timer {P} _.
Arguments pending {P} _.
Arguments fresh {P} _.

Definition initial {P} : State P := mkState None None None ∅ 1%positive.

(** [clearTimeout(id)] *)
Definition clearTimeout {P} (id : positive) (s : State P) : State P :=
  mkState (hoveredCity s) (tooltip s) (timer s) (pending s ∖ {[id]}) (fresh s).

(** [scheduleDismiss] *)
Definition scheduleDismiss {P} (s : State P) : State P :=
  let s1 := match timer s with Some id => clearTimeout id s | None => s end in
  let id := fresh s1 in
  mkState (hoveredCity s1) (tooltip s1) (Some id)
    (pending s1 ∪ {[id]}) (Pos.succ id).

(** [cancelDismiss] *)
Definition cancelDismiss {P} (s : State P) : State P :=
  match timer s with
  | Some id =>
      let s1 := clearTimeout id s in
      mkState (hoveredCity s1) (tooltip s1) None (pending s1) (fresh s1)
  | None => s
  end.

(** The browser runs the callback of timeout [id], when it is still
    pending. *)
Definition timeout {P} (id : positive) (s : State P) : State P :=
  if bool_decide (id ∈ pending s)
  then mkState None None (timer s) (pending s ∖ {[id]}) (fresh s)
  else s.

(** [handleCityHover(city, svgRect)].  [place city rect] stands for
    the projection of the city and the viewport arithmetic ([None]
    when the projection gives [null]), [clock now tz] for
    [DateTime.fromMillis(now).setZone(tz).toFormat("HH:mm")]. *)
Definition handleCityHover {P R} (place : City → R → option P)
    (clock : Z → string → string) (now : option Z)
    (city : option City) (svgRect : option R) (s : State P) : State P :=
  match city, svgRect, now with
  | Some city, Some svgRect, Some now =>
      let s1 := cancelDismiss s in
      let s2 := mkState (Some city) (tooltip s1) (timer s1) (pending s1) (fresh s1) in
      match place city svgRect with
      | None => s2
      | Some at_ =>
          mkState (hoveredCity s2)
            (Some (mkTooltip city at_ (clock now (tz city))))
            (timer s2) (pending s2) (fresh s2)
      end
  | _, _, _ => scheduleDismiss s
  end.

(** The remove button of the tooltip, as far as the hover state goes. *)
Definition removeClick {P} (s : State P) : State P :=
  mkState None None (timer s) (pending s) (fresh s).

(** What happens to the hover state. *)
Inductive Event (R : Type) :=
| DotEnter (now : option Z) (city : City) (svgRect : option R)
| DotLeave (now : option Z)
| TooltipEnter
| TooltipLeave
| RemoveClick
| Timeout (id : positive).
Arguments DotEnter {R} _ _ _.
Arguments DotLeave {R} _.
Arguments TooltipEnter {R}.
Arguments TooltipLeave {R}.
Arguments RemoveClick {R}.
Arguments Timeout {R} _.

Definition step {P R} (place : City → R → option P)
    (clock : Z → string → string) (s : State P) (e : Event R) : State P :=
  match e with
  | DotEnter now city svgRect =>
      handleCityHover place clock now (Some city) svgRect s
  | DotLeave now => handleCityHover place clock now None None s
  | TooltipEnter => cancelDismiss s
  | TooltipLeave => scheduleDismiss s
  | RemoveClick => removeClick s
  | Timeout id => timeout id s
  end.

Definition run {P R} (place : City → R → option P)
    (clock : Z → string → string) (s : State P) (es : list (Event R)) : State P :=
  foldl (step place clock) s es.

End Hover.

(** ** Invariants and checks the properties below are stated with *)

Module Invariant.

(** Whether the text [formatOffset] makes for [m] minutes, typed into
    the search box, is read back as [m] minutes. *)
Definition parses_back (m : Z) : bool :=
  bool_decide
    (OffsetQuery.parseOffsetQuery
       (Js.toLowerCase (Format.formatOffset (Js.Num m))) = Some m).

(** What holds of the search box between events: the active row is a
    row of the list or -1 (or 0 when the list is empty), the map
    highlights the results the memo holds, and the memo holds the
    results of the query. *)
Definition box_invariant (CITIES : list City)
    (zoneOffset : Z → string → Js.Res Js.jsnum) (w : SearchBox.World) : Prop :=
  let b := SearchBox.box w in
  let n := Z.of_nat (length (Search.flatResults (SearchBox.memo b))) in
  (-1 ≤ SearchBox.activeIndex b ≤ Z.max 0 (n - 1)) ∧
  Explorer.highlightedCities (SearchBox.app w) = Search.results (SearchBox.memo b) ∧
  (∃ now, Search.search CITIES zoneOffset now (SearchBox.query b)
          = Js.Ok (SearchBox.memo b)).

(** A character of a query as the browser reports it that stands for
    itself and does not end a parameter. *)
Definition written_char (c : ascii) : bool :=
  negb (Url.in_query_set c)
  && negb (bool_decide (c ∈ ["&"; "+"]%char)).

(** A character of a zone label: neither the path separator nor the
    underscore. *)
Definition label_char (c : ascii) : bool :=
  negb (bool_decide (c = "/"%char)) && negb (bool_decide (c = "_"%char)).

(** The component has not lost track of a timeout: one that is
    pending is the one it remembers. *)
Definition timer_invariant {P} (s : Hover.State P) : Prop :=
  ∀ id, id ∈ Hover.pending s → Hover.timer s = Some id.

End Invariant.

(* ================================================================== *)
(** * Part II: properties *)
(* ================================================================== *)

(** ** Strings *)

Section strings.

Lemma app_cons c s t : String c s +:+ t = String c (s +:+ t).
Proof. reflexivity. Qed.

Lemma app_empty_l s : "" +:+ s = s.
Proof. reflexivity. Qed.

Lemma app_empty_r s : s +:+ "" = s.
Proof. induction s as [|c s IH]; [done|]. by rewrite app_cons, IH. Qed.

Lemma app_assoc_s (s t u : string) : (s +:+ t) +:+ u = s +:+ t +:+ u.
Proof. induction s as [|c s IH]; [done|]. by rewrite !app_cons, IH. Qed.

Lemma trimStart_spaces ws r :
  Spec.string_forall Js.is_space ws = true →
  Js.trimStart (ws +:+ r) = Js.trimStart r.
Proof.
  induction ws as [|c ws IH]; [done|]. simpl.
  intros [Hc Hws]%andb_prop. rewrite Hc. auto.
Qed.

Lemma trimStart_split s :
  ∃ ws, s = ws +:+ Js.trimStart s ∧ Spec.string_forall Js.is_space ws = true.
Proof.
  induction s as [|c s (ws & Hs & Hws)]; [by exists ""|].
  simpl. destruct (Js.is_space c) eqn:Hc.
  - exists (String c ws). rewrite app_cons, <- Hs. simpl. by rewrite Hc, Hws.
  - by exists "".
Qed.

Lemma digit_not_space c : Js.is_digit c = true → Js.is_space c = false.
Proof. by destruct c as [[] [] [] [] [] [] [] []]. Qed.

End strings.

(** ** The offset query parser *)

Section offset_query.
Import OffsetQuery.

Lemma sign_digit c r :
  Js.is_digit c = true → sign (String c r) = (None, String c r).
Proof. by destruct c as [[] [] [] [] [] [] [] []]. Qed.

Lemma parseInt_go_decimal s acc :
  Js.parseInt_go acc s = acc * 10 ^ Z.of_nat (String.length s) + Spec.decimal s.
Proof.
  revert acc. induction s as [|c s IH]; intros acc; simpl String.length.
  - simpl. lia.
  - cbn [Js.parseInt_go Spec.decimal]. rewrite IH. unfold Js.digit_value.
    rewrite Nat2Z.inj_succ, Z.pow_succ_r by lia. lia.
Qed.

Lemma parseInt_decimal s : Js.parseInt s = Spec.decimal s.
Proof. unfold Js.parseInt. rewrite parseInt_go_decimal. lia. Qed.

Lemma hours_written_field hh h : Spec.hours_written hh h ↔ Spec.hour_field hh h.
Proof.
  unfold Spec.hours_written, Spec.hour_field. by rewrite parseInt_decimal.
Qed.

Lemma minutes_written_field mm m :
  Spec.minutes_written mm m ↔ Spec.minute_field mm m.
Proof.
  unfold Spec.minutes_written, Spec.minute_field.
  split; (intros [?|(dd & ? & ? & ? & ?)]; [by left|right; exists dd]).
  - by rewrite parseInt_decimal.
  - by rewrite <- parseInt_decimal.
Qed.

Lemma hours_minutes_field hh mm h m :
  Spec.hour_field hh h → Spec.minute_field mm m →
  ∃ c r, hh +:+ mm = String c r ∧ Js.is_digit c = true ∧
    hours (hh +:+ mm) = Some (hh, mm) ∧
    minutes mm = Some (if bool_decide (mm = "") then None else Some (String.substring 1 2 mm)) ∧
    (if bool_decide (mm = "") then m = 0 else m = Js.parseInt (String.substring 1 2 mm)).
Proof.
  intros (Hd & Hlen & _) Hmm.
  destruct hh as [|a [|b [|? ?]]]; simpl in Hlen; try lia.
  - simpl in Hd. apply andb_prop in Hd as [Ha _].
    exists a, mm. split; [done|]. split; [done|].
    destruct Hmm as [[-> ->]|(dd & -> & Hdd & Hl & ->)].
    + simpl. by rewrite Ha.
    + destruct dd as [|x [|y [|? ?]]]; simplify_eq/=.
      apply andb_prop in Hdd as [Hx [Hy _]%andb_prop].
      rewrite Ha, Hx, Hy. done.
  - simpl in Hd. apply andb_prop in Hd as [Ha [Hb _]%andb_prop].
    exists a, (String b mm). split; [done|]. split; [done|].
    destruct Hmm as [[-> ->]|(dd & -> & Hdd & Hl & ->)].
    + simpl. by rewrite Ha, Hb.
    + destruct dd as [|x [|y [|? ?]]]; simplify_eq/=.
      apply andb_prop in Hdd as [Hx [Hy _]%andb_prop].
      rewrite Ha, Hb, Hx, Hy. done.
Qed.

(** Every way of reading [q] along the expression gives the same
    number, the one [parseOffsetQuery] returns: the result does not
    depend on the order in which a matcher tries the readings. *)
Lemma regex_match_complete q sgn h m :
  Regex.language q sgn h m →
  parseOffsetQuery q = Some (sgn * (h * 60 + m)).
Proof.
  intros (lit & ws1 & sg & ws2 & hh & mm & -> & Hlit & Hws1 & Hsg & Hws2 & Hh & Hm).
  apply hours_written_field in Hh. apply minutes_written_field in Hm.
  destruct (hours_minutes_field _ _ _ _ Hh Hm) as (c & r & Hcr & Hc & Hhours & Hmins & Hmval).
  assert (Hsp : Js.trimStart (ws2 +:+ hh +:+ mm) = hh +:+ mm).
  { rewrite trimStart_spaces by done. rewrite Hcr. simpl.
    by rewrite (digit_not_space _ Hc). }
  assert (Hsp0 : Js.trimStart (hh +:+ mm) = hh +:+ mm).
  { rewrite Hcr. simpl. by rewrite (digit_not_space _ Hc). }
  assert (Hmatch : regex_match (lit +:+ ws1 +:+ sg +:+ ws2 +:+ hh +:+ mm) =
    Some (mkMatch (if bool_decide (sg = "") then None
                   else if bool_decide (sg = "+") then Some "+"%char else Some "-"%char)
            hh (if bool_decide (mm = "") then None else Some (String.substring 1 2 mm)))).
  { unfold regex_match, spaces.
    assert (literal (lit +:+ ws1 +:+ sg +:+ ws2 +:+ hh +:+ mm)
            = Some (ws1 +:+ sg +:+ ws2 +:+ hh +:+ mm)) as ->.
    { by destruct Hlit as [-> | ->]. }
    simpl. rewrite trimStart_spaces by done.
    destruct Hsg as [[-> ->]|[[-> ->]|[-> ->]]].
    - rewrite app_empty_l, Hsp.
      rewrite Hcr at 1. rewrite (sign_digit _ _ Hc). rewrite <- Hcr, Hsp0, Hhours.
      simpl. rewrite Hmins. done.
    - simpl. rewrite app_empty_l, Hsp, Hhours. simpl. by rewrite Hmins.
    - simpl. rewrite app_empty_l, Hsp, Hhours. simpl. by rewrite Hmins.
  }
  unfold parseOffsetQuery. rewrite Hmatch. simpl.
  destruct Hh as (_ & _ & ->). f_equal.
  destruct Hsg as [[-> ->]|[[-> ->]|[-> ->]]]; simpl;
    destruct (bool_decide (mm = "")); subst; done.
Qed.

Lemma literal_inv q r :
  literal q = Some r → ∃ lit, Spec.literal_field lit ∧ q = lit +:+ r.
Proof.
  unfold literal. intros H.
  repeat (match type of H with
          | match ?s with _ => _ end = _ => destruct s as [|? ?]; try discriminate
          | match ?c with _ => _ end = _ => destruct c as [[] [] [] [] [] [] [] []]; try discriminate
          end); simplify_eq.
  - exists "gmt". split; [by right|done].
  - exists "utc". split; [by left|done].
Qed.

Lemma sign_inv s sg r :
  sign s = (sg, r) →
  ∃ t, s = t +:+ r ∧ Spec.sign_field t (if bool_decide (sg = Some "-"%char) then -1 else 1).
Proof.
  unfold sign. intros H.
  destruct s as [|c s]; [simplify_eq; exists ""; split; [done|by left]|].
  destruct (decide (c = "+"%char)) as [->|Hp].
  { simplify_eq. exists "+". split; [done|]. right; by left. }
  destruct (decide (c = "-"%char)) as [->|Hm].
  { simplify_eq. exists "-". split; [done|]. right; by right. }
  assert (sg = None ∧ r = String c s) as [-> ->].
  { destruct c as [[] [] [] [] [] [] [] []]; simplify_eq; done. }
  exists "". split; [done|by left].
Qed.

Lemma hours_inv s hh r :
  hours s = Some (hh, r) → s = hh +:+ r ∧ Spec.hour_field hh (Js.parseInt hh).
Proof.
  unfold hours, Spec.hour_field. intros H.
  destruct s as [|a [|b s]]; [done| |].
  - destruct (Js.is_digit a) eqn:Ha; simplify_eq/=. rewrite Ha. repeat split; lia.
  - destruct (Js.is_digit a) eqn:Ha; [|done].
    destruct (Js.is_digit b) eqn:Hb; simplify_eq/=; rewrite ?Ha, ?Hb; repeat split; lia.
Qed.

Lemma minutes_inv s mm :
  minutes s = Some mm →
  Spec.minute_field s (match mm with Some d => Js.parseInt d | None => 0 end).
Proof.
  unfold minutes, Spec.minute_field. intros H.
  destruct s as [|c [|a [|b [|? ?]]]]; simplify_eq/=; [by left|..];
    try (destruct c as [[] [] [] [] [] [] [] []]; done).
  destruct (decide (c = ":"%char)) as [->|Hc];
    [|destruct c as [[] [] [] [] [] [] [] []]; done].
  destruct (Js.is_digit a) eqn:Ha; [|done].
  destruct (Js.is_digit b) eqn:Hb; [|done].
  simplify_eq/=. right. exists (String a (String b "")).
  simpl. rewrite Ha, Hb. done.
Qed.

Lemma regex_match_sound q mt :
  regex_match q = Some mt →
  Regex.language q
    (if bool_decide (m1 mt = Some "-"%char) then -1 else 1)
    (Js.parseInt (m2 mt))
    (match m3 mt with Some d => Js.parseInt d | None => 0 end).
Proof.
  unfold regex_match, spaces. intros H.
  destruct (literal q) as [r0|] eqn:Hlit; [|done]. simpl in H.
  destruct (sign (Js.trimStart r0)) as [sg r2] eqn:Hsg.
  destruct (hours (Js.trimStart r2)) as [[hh r4]|] eqn:Hh; [|done]. simpl in H.
  destruct (minutes r4) as [mm|] eqn:Hm; [|done]. simplify_eq/=.
  apply literal_inv in Hlit as (lit & Hlit & ->).
  destruct (trimStart_split r0) as (ws1 & Hr0 & Hws1).
  destruct (trimStart_split r2) as (ws2 & Hr2 & Hws2).
  apply sign_inv in Hsg as (t & Ht & Hsgn).
  apply hours_inv in Hh as [Hr3 Hhf].
  apply minutes_inv in Hm.
  exists lit, ws1, t, ws2, hh, r4.
  split; [by rewrite <- Hr3, <- Hr2, <- Ht, <- Hr0|].
  by rewrite hours_written_field, minutes_written_field.
Qed.

Lemma parseOffsetQuery_sound q v :
  parseOffsetQuery q = Some v →
  (Spec.literal_field q ∧ v = 0) ∨
  ∃ sgn h m, Regex.language q sgn h m ∧ v = sgn * (h * 60 + m).
Proof.
  unfold parseOffsetQuery. intros H.
  destruct (regex_match q) as [mt|] eqn:Hm.
  - right. apply regex_match_sound in Hm. injection H as <-.
    eexists _, _, _. split; [exact Hm|done].
  - left. unfold bare_literal in H.
    destruct (bool_decide_reflect (q = "utc")), (bool_decide_reflect (q = "gmt"));
      simplify_eq/=; (split; [|done]); [by left|by right].
Qed.

Lemma literal_first c r r' :
  literal (String c r) = Some r' → c = "u"%char ∨ c = "g"%char.
Proof.
  destruct c as [[] [] [] [] [] [] [] []]; try done; auto.
Qed.

Lemma first_char_rejected c r :
  c ≠ "u"%char → c ≠ "g"%char → parseOffsetQuery (String c r) = None.
Proof.
  intros Hu Hg. unfold parseOffsetQuery, regex_match.
  destruct (literal (String c r)) as [r'|] eqn:Hl.
  { apply literal_first in Hl as [?|?]; done. }
  simpl. unfold bare_literal.
  rewrite !bool_decide_eq_false_2; [done|..]; intros ?; simplify_eq.
Qed.

Lemma space_not_literal c :
  Js.is_space c = true → c ≠ "u"%char ∧ c ≠ "g"%char.
Proof. by destruct c as [[] [] [] [] [] [] [] []]. Qed.

Lemma digit_not_literal c :
  Js.is_digit c = true → c ≠ "u"%char ∧ c ≠ "g"%char.
Proof. by destruct c as [[] [] [] [] [] [] [] []]. Qed.

End offset_query.

(** The first character of an offset query that has no literal: white
    space, a sign or a digit. *)
Lemma without_literal_first q sgn h m :
  Spec.offset_query_without_literal q sgn h m →
  ∃ c r, q = String c r ∧ c ≠ "u"%char ∧ c ≠ "g"%char.
Proof.
  intros (ws1 & sg & ws2 & hh & mm & -> & Hws1 & Hsg & Hws2 & Hh & _).
  destruct ws1 as [|c ws1].
  2:{ exists c, (ws1 +:+ sg +:+ ws2 +:+ hh +:+ mm). split; [done|].
      simpl in Hws1. apply andb_prop in Hws1 as [Hc _].
      by apply space_not_literal. }
  rewrite app_empty_l.
  destruct Hsg as [[-> _]|[[-> _]|[-> _]]].
  2,3: eexists _, _; split; [reflexivity|done].
  rewrite app_empty_l.
  destruct ws2 as [|c ws2].
  2:{ exists c, (ws2 +:+ hh +:+ mm). split; [done|].
      simpl in Hws2. apply andb_prop in Hws2 as [Hc _].
      by apply space_not_literal. }
  rewrite app_empty_l.
  destruct Hh as (Hd & Hlen & _).
  destruct hh as [|c hh]; [simpl in Hlen; lia|].
  exists c, (hh +:+ mm). split; [done|].
  simpl in Hd. apply andb_prop in Hd as [Hc _].
  by apply digit_not_literal.
Qed.

(** Closes the side conditions of a concrete instance of the grammar. *)
Ltac solve_field :=
  first
    [ done
    | simpl; lia
    | by left
    | by right
    | right; by left
    | right; by right
    | right; eexists; repeat split; done ].

(** C2, as stated, fails: ["+1"] has the form of the grammar without
    its literal and would stand for 60 minutes, and the parser gives
    the absent result. *)
Lemma parseOffsetQuery_plus_one_absent :
  Spec.offset_query_without_literal "+1" 1 1 0 ∧
  1 * (1 * 60 + 0) = 60 ∧
  OffsetQuery.parseOffsetQuery "+1" = None.
Proof.
  split; [|done].
  exists "", "+", "", "1", "". repeat split; try done.
  all: solve_field.
Qed.

(** C2, amended: the literal [utc] or [gmt] is required.  Every input
    that has the form of the grammar without the literal (["+1"],
    ["-5"], ["5:30"]) gets the absent result. *)
Theorem parseOffsetQuery_requires_literal q sgn h m :
  Spec.offset_query_without_literal q sgn h m →
  OffsetQuery.parseOffsetQuery q = None.
Proof.
  intros (c & r & -> & Hu & Hg)%without_literal_first.
  by apply first_char_rejected.
Qed.

Lemma parseOffsetQuery_requires_literal_witness :
  Spec.offset_query_without_literal "5:30" 1 5 30 ∧
  OffsetQuery.parseOffsetQuery "5:30" = None.
Proof.
  assert (H : Spec.offset_query_without_literal "5:30" 1 5 30).
  { exists "", "", "", "5", ":30". repeat split; try done.
    all: solve_field. }
  split; [exact H|].
  exact (parseOffsetQuery_requires_literal "5:30" 1 5 30 H).
Defined.

(** The first character of the digits of the hours. *)
Lemma hours_written_first hh h rest c r :
  Spec.hours_written hh h → hh +:+ rest = String c r → Js.is_digit c = true.
Proof.
  intros (Hd & Hlen & _) Heq. destruct hh as [|d hh]; [simpl in Hlen; lia|].
  rewrite app_cons in Heq. injection Heq as <- _.
  simpl in Hd. by apply andb_prop in Hd as [? _].
Qed.

(** White space in front of a character that is none is empty. *)
Lemma spaces_before ws rest c r :
  Spec.string_forall Js.is_space ws = true →
  ws +:+ rest = String c r → Js.is_space c = false → ws = "".
Proof.
  intros Hws Heq Hc. destruct ws as [|d ws]; [done|].
  rewrite app_cons in Heq. injection Heq as <- _.
  simpl in Hws. apply andb_prop in Hws as [Hd _]. congruence.
Qed.

(** C3, as stated, fails: ["utc+ 5"] has white space between the sign
    and the hours, for which the grammar as it is written has no
    place, with the literal or without it; it is no bare literal
    either; and the parser does not give the absent result, it reads
    300 minutes.  And ["+1"] is an input of the grammar as written,
    with the literal left out, for which the parser gives the absent
    result and not 60. *)
Lemma parseOffsetQuery_space_after_sign :
  (∀ lit sgn h m, ¬ Spec.written_query lit "utc+ 5" sgn h m) ∧
  ¬ Spec.literal_field "utc+ 5" ∧
  OffsetQuery.parseOffsetQuery "utc+ 5" = Some 300 ∧
  Spec.written_query "" "+1" 1 1 0 ∧
  OffsetQuery.parseOffsetQuery "+1" = None.
Proof.
  split; [|split; [by intros [?|?]|split; [done|split; [|done]]]]; cycle 1.
  { split; [by left|]. exists "", "+", "1", "".
    split; [done|]. split; [done|]. split; [right; by left|].
    split; [|by left]. split; [done|]. split; [simpl; lia|done]. }
  intros lit sgn h m (Hlit & ws & sg & hh & mm & Heq & Hws & Hsg & Hh & _).
  assert (∃ rest, (rest = "utc+ 5" ∨ rest = "+ 5") ∧
                  rest = ws +:+ sg +:+ hh +:+ mm)
    as (rest & Hcase & Hrest).
  { destruct Hlit as [->|[->| ->]].
    - exists "utc+ 5". split; [by left|]. by rewrite app_empty_l in Heq.
    - exists "+ 5". split; [by right|].
      change ("utc" +:+ ws +:+ sg +:+ hh +:+ mm)
        with (String "u" (String "t" (String "c" (ws +:+ sg +:+ hh +:+ mm))))
        in Heq.
      by injection Heq.
    - discriminate Heq. }
  assert (Hws0 : ws = "").
  { destruct Hcase as [->| ->]; by eapply spaces_before. }
  subst ws. rewrite app_empty_l in Hrest.
  destruct Hcase as [->| ->], Hsg as [[-> _]|[[-> _]|[-> _]]];
    try discriminate Hrest.
  - rewrite app_empty_l in Hrest.
    by pose proof (hours_written_first _ _ _ _ _ Hh (eq_sym Hrest)).
  - rewrite app_empty_l in Hrest.
    by pose proof (hours_written_first _ _ _ _ _ Hh (eq_sym Hrest)).
  - injection Hrest as Hrest.
    by pose proof (hours_written_first _ _ _ _ _ Hh (eq_sym Hrest)).
Qed.

(** An input of the grammar as written that has its literal is an
    input of the expression, with no white space after the sign. *)
Lemma written_query_language lit q sgn h m :
  Spec.literal_field lit →
  Spec.written_query lit q sgn h m → Regex.language q sgn h m.
Proof.
  intros Hlit (_ & ws & sg & hh & mm & -> & Hws & Hsg & Hh & Hm).
  exists lit, ws, sg, "", hh, mm. by rewrite app_empty_l.
Qed.

(** C3, amended: on an input of the grammar as written that has its
    literal, and on every input the expression of the code accepts
    besides, which is the same with white space also between the sign
    and the hours, the parser returns [sign * (hours * 60 + minutes)],
    whatever the two numbers are; the bare literal gives 0; a text that
    is neither gives the absent result. *)
Theorem parseOffsetQuery_on_match :
  (∀ lit q sgn h m,
     Spec.literal_field lit →
     Spec.written_query lit q sgn h m →
     OffsetQuery.parseOffsetQuery q = Some (sgn * (h * 60 + m))) ∧
  (∀ q sgn h m,
     Regex.language q sgn h m →
     OffsetQuery.parseOffsetQuery q = Some (sgn * (h * 60 + m))) ∧
  (∀ q, Spec.literal_field q → OffsetQuery.parseOffsetQuery q = Some 0) ∧
  (∀ q,
     ¬ Spec.literal_field q →
     (∀ sgn h m, ¬ Regex.language q sgn h m) →
     OffsetQuery.parseOffsetQuery q = None) ∧
  OffsetQuery.parseOffsetQuery "utc+1" = Some 60 ∧
  OffsetQuery.parseOffsetQuery "gmt-5:30" = Some (-330) ∧
  OffsetQuery.parseOffsetQuery "utc" = Some 0 ∧
  OffsetQuery.parseOffsetQuery "utc+99" = Some 5940 ∧
  OffsetQuery.parseOffsetQuery "banana" = None ∧
  OffsetQuery.parseOffsetQuery "utc+ 5" = Some 300.
Proof.
  split.
  { intros lit q sgn h m Hlit Hq.
    by apply regex_match_complete, (written_query_language lit). }
  split; [exact regex_match_complete|].
  split; [by intros q [-> | ->]|].
  split; [|done].
  intros q Hlit Hno.
  destruct (OffsetQuery.parseOffsetQuery q) as [v|] eqn:Hq; [|done].
  apply parseOffsetQuery_sound in Hq as [[? _]|(sgn & h & m & Hg & _)]; [done|].
  by destruct (Hno sgn h m).
Qed.

Lemma parseOffsetQuery_on_match_witness :
  Spec.written_query "gmt" "gmt +12:45" 1 12 45 ∧
  OffsetQuery.parseOffsetQuery "gmt +12:45" = Some 765.
Proof.
  assert (H : Spec.written_query "gmt" "gmt +12:45" 1 12 45).
  { split; [right; by right|].
    exists " ", "+", "12", ":45". repeat split; try done.
    all: solve_field. }
  split; [exact H|].
  exact (proj1 parseOffsetQuery_on_match "gmt" "gmt +12:45" 1 12 45
           (or_intror eq_refl) H).
Defined.

(** ** The home difference *)

Lemma formatDiff_diff_text d :
  Utils.formatDiff (Js.Num d) = Spec.diff_text d.
Proof.
  unfold Utils.formatDiff, Spec.diff_text. simpl.
  rewrite Z.rem_mod_nonneg by lia.
  repeat case_bool_decide; repeat case_decide; try lia; done.
Qed.


(** An entry of [pinnedDerived] carries the text for the difference of
    the two offsets the date library reports. *)
Lemma pinnedDiff_offsets zoneOffset now home city t h :
  zoneOffset now (tz city) = Js.Ok (Js.Num t) →
  zoneOffset now home = Js.Ok (Js.Num h) →
  Explorer.pinnedDiff zoneOffset now home city = [Spec.diff_text (t - h)].
Proof.
  intros Ht Hh. unfold Explorer.pinnedDiff. rewrite Ht. simpl. rewrite Hh. simpl.
  f_equal. apply formatDiff_diff_text.
Qed.


(** ** The pinned set and the hidden set *)

Section pin_set.
Import Explorer.

Lemma findIndex_from_found {A} (p : A → bool) l1 x l2 i :
  Forall (λ y, p y = false) l1 → p x = true →
  findIndex_from i p (l1 ++ x :: l2) = i + Z.of_nat (length l1).
Proof.
  intros Hl1 Hx. revert i. induction Hl1 as [|y l1 Hy _ IH]; intros i; simpl.
  - rewrite Hx. lia.
  - rewrite Hy, IH. lia.
Qed.

Lemma findIndex_from_none {A} (p : A → bool) xs i :
  Forall (λ y, p y = false) xs → findIndex_from i p xs = -1.
Proof.
  intros H. revert i. induction H as [|y l Hy _ IH]; intros i; simpl; [done|].
  by rewrite Hy.
Qed.

Lemma first_match {A} (p : A → bool) xs :
  Forall (λ y, p y = false) xs ∨
  ∃ l1 x l2, xs = l1 ++ x :: l2 ∧ Forall (λ y, p y = false) l1 ∧ p x = true.
Proof.
  induction xs as [|y xs IH]; [by left|].
  destruct (p y) eqn:Hy.
  - right. exists [], y, xs. by repeat split.
  - destruct IH as [IH|(l1 & x & l2 & -> & Hl1 & Hx)].
    + left. by constructor.
    + right. exists (y :: l1), x, l2. repeat split; [|done]. by constructor.
Qed.

Lemma filter_index_from_keep {A} (xs : list A) i t :
  t < i →
  filter_index_from i (λ _ j, negb (bool_decide (j = t))) xs = xs.
Proof.
  revert i. induction xs as [|x xs IH]; intros i Hi; simpl; [done|].
  rewrite bool_decide_eq_false_2 by lia. simpl. f_equal. apply IH. lia.
Qed.

Lemma filter_index_from_drop {A} (l1 : list A) x l2 i :
  filter_index_from i
    (λ _ j, negb (bool_decide (j = i + Z.of_nat (length l1)))) (l1 ++ x :: l2)
  = l1 ++ l2.
Proof.
  revert i. induction l1 as [|y l1 IH]; intros i; simpl.
  - rewrite bool_decide_eq_true_2 by lia. simpl.
    apply filter_index_from_keep. lia.
  - rewrite bool_decide_eq_false_2 by lia. simpl. f_equal.
    specialize (IH (i + 1)).
    replace (i + 1 + Z.of_nat (length l1)) with (i + Z.of_nat (S (length l1))) in IH by lia.
    exact IH.
Qed.

Lemma no_name_match (city : City) (prev : list City) :
  Forall (λ c, bool_decide (name c = name city) = false) prev ↔
  name city ∉ (name <$> prev).
Proof.
  rewrite Forall_forall, list_elem_of_fmap. split.
  - intros H (c & Hc & Hin). specialize (H c Hin).
    by rewrite bool_decide_eq_false in H.
  - intros H c Hin. rewrite bool_decide_eq_false. intros Heq. apply H. eauto.
Qed.

(** The two behaviours of the updater of the pinned set. *)
Lemma pin_updater_cases city prev :
  ((name city ∉ (name <$> prev)) ∧
   pin_updater city prev =
     if decide (4 ≤ length prev)%nat then Same else Fresh (prev ++ [city])) ∨
  (∃ l1 c l2,
     prev = l1 ++ c :: l2 ∧ name c = name city ∧
     (name city ∉ (name <$> l1)) ∧
     pin_updater city prev = Fresh (l1 ++ l2)).
Proof.
  unfold pin_updater, findIndex, filter_index.
  destruct (first_match (λ c, bool_decide (name c = name city)) prev)
    as [Hnone|(l1 & c & l2 & -> & Hl1 & Hc)].
  - left. split; [by apply no_name_match|].
    rewrite findIndex_from_none by done.
    rewrite bool_decide_eq_false_2 by lia.
    case_bool_decide; case_decide; done || lia.
  - right. exists l1, c, l2.
    apply bool_decide_eq_true in Hc.
    split; [done|]. split; [done|]. split; [by apply no_name_match|].
    rewrite findIndex_from_found by (done || by apply bool_decide_eq_true).
    rewrite bool_decide_eq_true_2 by lia.
    f_equal. apply (filter_index_from_drop l1 c l2 0).
Qed.

Lemma pin_updater_invariant city prev :
  Spec.pin_invariant prev →
  Spec.pin_invariant (apply_update prev (pin_updater city prev)).
Proof.
  intros [Hlen Hnd].
  destruct (pin_updater_cases city prev)
    as [[Hnew ->]|(l1 & c & l2 & -> & Hc & Hl1 & ->)].
  - case_decide; simpl; [done|]. split.
    + rewrite length_app. simpl. lia.
    + rewrite fmap_app. simpl. apply NoDup_app. split; [done|].
      split; [|apply NoDup_singleton].
      intros n Hn ->%list_elem_of_singleton. done.
  - simpl. split.
    + rewrite length_app in *. simpl in Hlen. lia.
    + rewrite fmap_app in *. simpl in Hnd.
      apply NoDup_app in Hnd as (H1 & H2 & H3).
      apply NoDup_cons in H3 as [_ H3].
      apply NoDup_app. split; [done|]. split; [|done].
      intros n Hn Hn'. apply (H2 n Hn). by right.
Qed.

Lemma some_is_pinned city pinned :
  some (λ c, bool_decide (name c = name city)) pinned = true ↔
  Spec.is_pinned city pinned.
Proof.
  unfold some, Spec.is_pinned. rewrite existsb_exists, list_elem_of_fmap.
  split.
  - intros (c & Hin & Hc). apply bool_decide_eq_true in Hc.
    exists c. split; [done|]. by apply list_elem_of_In.
  - intros (c & Hc & Hin). exists c. split; [by apply list_elem_of_In|].
    by apply bool_decide_eq_true.
Qed.

Lemma step_invariant st a :
  Spec.pin_invariant (pinnedCities st) →
  Spec.pin_invariant (pinnedCities (step st a)).
Proof.
  intros Hinv. destruct a as [city|city|city|]; simpl.
  - by apply pin_updater_invariant.
  - unfold handleSelect. destruct (negb _); [|done].
    by apply pin_updater_invariant.
  - unfold removeFromMap. simpl. destruct (some _ _); [|done].
    by apply pin_updater_invariant.
  - split; [simpl; lia|constructor].
Qed.

Lemma run_invariant st actions :
  Spec.pin_invariant (pinnedCities st) →
  Spec.pin_invariant (pinnedCities (run st actions)).
Proof.
  unfold run. revert st. induction actions as [|a actions IH]; intros st H; [done|].
  simpl. apply IH. by apply step_invariant.
Qed.

Lemma initial_invariant : Spec.pin_invariant (pinnedCities initial).
Proof. split; [simpl; lia|constructor]. Qed.

Lemma handleCityPin_pinned city st :
  pinnedCities (handleCityPin city st)
  = apply_update (pinnedCities st) (pin_updater city (pinnedCities st)).
Proof. done. Qed.

Lemma pin_when_absent city prev :
  ¬ Spec.is_pinned city prev →
  pin_updater city prev =
    (if decide (4 ≤ length prev)%nat then Same else Fresh (prev ++ [city])).
Proof.
  intros Hn.
  destruct (pin_updater_cases city prev) as [[_ ->]|(l1 & c & l2 & -> & Hc & _)]; [done|].
  destruct Hn. unfold Spec.is_pinned. rewrite fmap_app, fmap_cons, <- Hc.
  apply elem_of_app. right. by left.
Qed.

(** From a pinned set with at most four entries and no repeated name
    (the empty initial set is one), every sequence of toggle,
    search-select, remove-from-map and clear-all actions ends in such a
    set; pinning one more city on a full set changes nothing, and
    pinning under capacity appends the city at the end.  The pinned set
    the page starts with is the one the mount effect reads from the
    URL, which need not be such a set. *)
Theorem pinned_set_invariant st actions :
  Spec.pin_invariant (pinnedCities st) →
  let st' := run st actions in
  Spec.pin_invariant (pinnedCities st') ∧
  (∀ city,
     ¬ Spec.is_pinned city (pinnedCities st') →
     length (pinnedCities st') = 4%nat →
     pin_updater city (pinnedCities st') = Same ∧
     pinnedCities (handleCityPin city st') = pinnedCities st' ∧
     pinnedCities (handleSelect city st') = pinnedCities st') ∧
  (∀ city,
     ¬ Spec.is_pinned city (pinnedCities st') →
     (length (pinnedCities st') < 4)%nat →
     pinnedCities (handleCityPin city st') = pinnedCities st' ++ [city] ∧
     pinnedCities (handleSelect city st') = pinnedCities st' ++ [city]).
Proof.
  intros Hinv st'. split; [by apply run_invariant|].
  split; intros city Hn Hlen.
  - assert (Hu : pin_updater city (pinnedCities st') = Same).
    { rewrite pin_when_absent by done. case_decide; [done|lia]. }
    split; [done|].
    assert (pinnedCities (handleCityPin city st') = pinnedCities st') as Hp.
    { by rewrite handleCityPin_pinned, Hu. }
    split; [done|]. unfold handleSelect. by destruct (negb _).
  - assert (Hp : pinnedCities (handleCityPin city st') = pinnedCities st' ++ [city]).
    { rewrite handleCityPin_pinned, pin_when_absent by done. case_decide; [lia|done]. }
    split; [done|]. unfold handleSelect.
    destruct (some _ _) eqn:Hs; [|done].
    by apply some_is_pinned in Hs.
Qed.

Lemma pinned_set_invariant_witness :
  let actions :=
    [Toggle Sample.Tokyo; Select Sample.London; Toggle Sample.Paris;
     Toggle Sample.London; Select Sample.Madrid; Toggle Sample.Sydney] in
  pinnedCities (run initial actions)
    = [Sample.Tokyo; Sample.Paris; Sample.Madrid; Sample.Sydney] ∧
  Spec.pin_invariant (pinnedCities (run initial actions)) ∧
  pinnedCities (handleCityPin Sample.New_York (run initial actions))
    = pinnedCities (run initial actions).
Proof.
  intros actions. split; [reflexivity|].
  pose proof (pinned_set_invariant initial actions initial_invariant) as (Hinv & Hfull & _).
  split; [exact Hinv|].
  refine (proj1 (proj2 (Hfull Sample.New_York _ _))).
  - unfold Spec.is_pinned. vm_compute. intros H. 
    repeat (apply elem_of_cons in H as [H|H]; [discriminate H|]).
    by apply elem_of_nil in H.
  - reflexivity.
Defined.

Lemma filter_name_absent (city : City) (l : list City) :
  name city ∉ (name <$> l) → filter (λ c, name c ≠ name city) l = l.
Proof.
  induction l as [|c l IH]; [done|]. rewrite fmap_cons, not_elem_of_cons.
  intros [Hc Hl]. rewrite filter_cons_True by done. f_equal. auto.
Qed.

(** C7: on a city that is already pinned, the toggle path takes its
    first entry out of the pinned set, and with it the name under the
    no-duplicates invariant; the search-select path changes nothing. *)
Theorem toggle_removes_select_keeps city st :
  Spec.is_pinned city (pinnedCities st) →
  (∃ l1 c l2,
     pinnedCities st = l1 ++ c :: l2 ∧ name c = name city ∧
     (name city ∉ (name <$> l1)) ∧
     pinnedCities (handleCityPin city st) = l1 ++ l2) ∧
  (NoDup (name <$> pinnedCities st) →
     ¬ Spec.is_pinned city (pinnedCities (handleCityPin city st)) ∧
     pinnedCities (handleCityPin city st)
     = filter (λ c, name c ≠ name city) (pinnedCities st)) ∧
  handleSelect city st = st.
Proof.
  intros Hp.
  assert (Hcase : ∃ l1 c l2,
     pinnedCities st = l1 ++ c :: l2 ∧ name c = name city ∧
     (name city ∉ (name <$> l1)) ∧
     pinnedCities (handleCityPin city st) = l1 ++ l2).
  { rewrite handleCityPin_pinned.
    destruct (pin_updater_cases city (pinnedCities st))
      as [[Hn _]|(l1 & c & l2 & Heq & Hc & Hl1 & ->)]; [done|].
    exists l1, c, l2. done. }
  split; [exact Hcase|]. split.
  - destruct Hcase as (l1 & c & l2 & Heq & Hc & Hl1 & ->). rewrite Heq.
    rewrite fmap_app, fmap_cons, Hc. intros Hnd.
    apply NoDup_app in Hnd as (_ & Hdisj & [Hl2 _]%NoDup_cons).
    split.
    + unfold Spec.is_pinned. rewrite fmap_app, elem_of_app. tauto.
    + rewrite filter_app, filter_cons_False by (intros H; by apply H).
      by rewrite !filter_name_absent.
  - unfold handleSelect. apply some_is_pinned in Hp. by rewrite Hp.
Qed.

Lemma toggle_removes_select_keeps_witness :
  let st := mkState "Europe/Sarajevo" [Sample.Tokyo; Sample.London; Sample.Paris] [] ∅ in
  pinnedCities (handleCityPin Sample.London st) = [Sample.Tokyo; Sample.Paris] ∧
  handleSelect Sample.London st = st.
Proof.
  intros st. split; [reflexivity|].
  refine (proj2 (proj2 (toggle_removes_select_keeps Sample.London st _))).
  unfold Spec.is_pinned. simpl. apply elem_of_cons. right. apply elem_of_cons. by left.
Defined.

Lemma visible_iff CITIES FEATURED st c :
  c ∈ visibleCities CITIES FEATURED st ↔
  c ∈ CITIES ∧
  (name c ∈ (name <$> highlightedCities st) ∨
   name c ∈ (name <$> pinnedCities st) ∨
   ((name c ∉ hiddenCities st) ∧ name c ∈ FEATURED)).
Proof.
  unfold visibleCities. rewrite list_elem_of_In, filter_In, <- list_elem_of_In.
  rewrite !orb_true_iff, andb_true_iff, negb_true_iff.
  rewrite !bool_decide_eq_true, bool_decide_eq_false.
  rewrite !elem_of_list_to_set. tauto.
Qed.

(** C10: pinning on the toggle path takes the name of the city out of
    the hidden set and touches no other name; a city that is not hidden
    leaves the set as it is, the very same object; and the city, when
    in the catalog and pinned or featured afterwards, is drawn on the
    map again. *)
Theorem pin_unhides city st :
  let st' := handleCityPin city st in
  (name city ∉ hiddenCities st') ∧
  (∀ n, n ≠ name city → n ∈ hiddenCities st' ↔ n ∈ hiddenCities st) ∧
  (name city ∉ hiddenCities st →
     unhide_updater city (hiddenCities st) = Same ∧
     hiddenCities st' = hiddenCities st) ∧
  (name city ∈ hiddenCities st →
     unhide_updater city (hiddenCities st)
     = Fresh (hiddenCities st ∖ {[name city]})) ∧
  (¬ Spec.is_pinned city (pinnedCities st) →
     (length (pinnedCities st) < 4)%nat →
     Spec.is_pinned city (pinnedCities st')) ∧
  (∀ CITIES FEATURED,
     city ∈ CITIES →
     Spec.is_pinned city (pinnedCities st') ∨ name city ∈ FEATURED →
     city ∈ visibleCities CITIES FEATURED st').
Proof.
  intros st'.
  assert (Hh : hiddenCities st' =
    apply_update (hiddenCities st) (unhide_updater city (hiddenCities st))) by done.
  assert (Hnot : name city ∉ hiddenCities st').
  { rewrite Hh. unfold unhide_updater. case_bool_decide; simpl; [|done].
    rewrite elem_of_difference, elem_of_singleton. tauto. }
  split; [exact Hnot|].
  split; [|split; [|split; [|split]]].
  - intros n Hn. rewrite Hh. unfold unhide_updater.
    case_bool_decide; simpl; [|done].
    rewrite elem_of_difference, elem_of_singleton. tauto.
  - intros Hn. unfold unhide_updater in *.
    rewrite Hh. unfold unhide_updater.
    rewrite bool_decide_eq_false_2 by done. done.
  - intros Hin. unfold unhide_updater. by rewrite bool_decide_eq_true_2.
  - intros Hn Hlen. subst st'. rewrite handleCityPin_pinned, pin_when_absent by done.
    case_decide; [lia|]. simpl. unfold Spec.is_pinned.
    rewrite fmap_app, elem_of_app. right. by left.
  - intros CITIES FEATURED Hc Hor. apply visible_iff. split; [done|].
    destruct Hor as [?|?]; [right; by left|]. right; right. done.
Qed.

Lemma pin_unhides_witness :
  let st := mkState "Europe/Sarajevo" [Sample.Paris] [] {["Tokyo"; "Madrid"]} in
  (Sample.Tokyo ∉ visibleCities Sample.CITIES Sample.FEATURED_CITY_NAMES st) ∧
  hiddenCities (handleCityPin Sample.Tokyo st) = {["Madrid"]} ∧
  Sample.Tokyo ∈
    visibleCities Sample.CITIES Sample.FEATURED_CITY_NAMES
      (handleCityPin Sample.Tokyo st).
Proof.
  intros st. split; [|split].
  - rewrite visible_iff. vm_compute. intros [_ [H|[H|[H _]]]].
    + by apply elem_of_nil in H.
    + apply elem_of_cons in H as [H|H]; [discriminate H|by apply elem_of_nil in H].
    + apply H. set_solver.
  - apply set_eq. intros n. 
    destruct (decide (n = "Tokyo")) as [->|Hn].
    + split; [|by intros ?%elem_of_singleton]. intros H. by apply (proj1 (pin_unhides Sample.Tokyo st)) in H.
    + rewrite (proj1 (proj2 (pin_unhides Sample.Tokyo st)) n Hn). simpl.
      rewrite elem_of_union, !elem_of_singleton. tauto.
  - apply (proj2 (proj2 (proj2 (proj2 (proj2 (pin_unhides Sample.Tokyo st)))))).
    + unfold Sample.CITIES. set_solver.
    + right. unfold Sample.FEATURED_CITY_NAMES. set_solver.
Defined.

End pin_set.

(** ** Grouping and search *)

Section grouping.
Import Search.

Lemma first_seen_elem ks k : k ∈ Spec.first_seen ks ↔ k ∈ ks.
Proof.
  induction ks as [|a ks IH]; simpl; [done|].
  rewrite !elem_of_cons, list_elem_of_filter, IH.
  destruct (decide (k = a)); tauto.
Qed.

Lemma first_seen_NoDup ks : NoDup (Spec.first_seen ks).
Proof.
  induction ks as [|a ks IH]; simpl; [constructor|].
  apply NoDup_cons. split.
  - rewrite list_elem_of_filter. tauto.
  - by apply NoDup_filter.
Qed.

Lemma filter_ne_absent (k : string) (ks : list string) :
  k ∉ ks → filter (λ x, x ≠ k) ks = ks.
Proof.
  induction ks as [|a ks IH]; [done|]. rewrite not_elem_of_cons.
  intros [Hk Hks]. rewrite filter_cons_True by done. f_equal. auto.
Qed.

Lemma first_seen_snoc ks k :
  Spec.first_seen (ks ++ [k]) =
    (if decide (k ∈ ks) then Spec.first_seen ks else Spec.first_seen ks ++ [k]).
Proof.
  induction ks as [|a ks IH]; simpl; [done|]. rewrite IH.
  destruct (decide (k ∈ a :: ks)) as [Hin|Hnin];
    destruct (decide (k ∈ ks)) as [Hin'|Hnin']; try done.
  - apply elem_of_cons in Hin as [->|?]; [|done].
    rewrite filter_app, filter_cons_False by tauto.
    by rewrite filter_nil, app_nil_r.
  - destruct Hnin. by right.
  - apply not_elem_of_cons in Hnin as [Hne _].
    by rewrite filter_app, filter_cons_True, filter_nil.
Qed.

(** Maps of the shape the grouping loop builds. *)
Lemma map_get_shape (g : string → list City) ks key :
  map_get key ((λ k, (k, g k)) <$> ks)
  = (if decide (key ∈ ks) then Some (g key) else None).
Proof.
  induction ks as [|a ks IH]; csimpl; [done|].
  case_bool_decide as Ha.
  - subst. by rewrite decide_True by (by left).
  - rewrite IH. case_decide as Hin.
    + by rewrite decide_True by (by right).
    + rewrite decide_False; [done|]. rewrite elem_of_cons. intros [?|?]; by subst.
Qed.

Lemma map_set_shape_new (g : string → list City) ks key v :
  key ∉ ks →
  map_set key v ((λ k, (k, g k)) <$> ks) = ((λ k, (k, g k)) <$> ks) ++ [(key, v)].
Proof.
  induction ks as [|a ks IH]; csimpl; [done|]. rewrite not_elem_of_cons.
  intros [Hne Hks]. rewrite bool_decide_eq_false_2 by done. f_equal. auto.
Qed.

Lemma map_set_shape_old (g : string → list City) ks key v :
  key ∈ ks → NoDup ks →
  map_set key v ((λ k, (k, g k)) <$> ks)
  = (λ k, (k, if decide (k = key) then v else g k)) <$> ks.
Proof.
  induction ks as [|a ks IH]; csimpl; [by intros ?%elem_of_nil|].
  intros Hin [Ha Hnd]%NoDup_cons.
  case_bool_decide as Hak.
  - subst. rewrite decide_True by done. f_equal.
    apply list_fmap_ext. intros i k Hk. rewrite decide_False; [done|].
    intros ->. apply Ha. by eapply list_elem_of_lookup_2.
  - rewrite decide_False by done. f_equal. apply IH; [|done].
    apply elem_of_cons in Hin as [->|?]; done.
Qed.

Lemma filter_country_absent (k : string) (l : list City) :
  k ∉ (country <$> l) → filter (λ c : City, country c = k) l = [].
Proof.
  induction l as [|c l IH]; [done|]. rewrite fmap_cons, not_elem_of_cons.
  intros [Hc Hl]. rewrite filter_cons_False by done. auto.
Qed.

(** The loop of [groupByCountry] builds the partition by country. *)
Lemma group_fold_partition l :
  foldl group_step [] l = Spec.partition_by_country l.
Proof.
  induction l as [|c l IH] using rev_ind; [done|].
  rewrite foldl_app. simpl. rewrite IH. unfold group_step, Spec.partition_by_country.
  rewrite map_get_shape, fmap_app. simpl. rewrite first_seen_snoc.
  rewrite (decide_ext _ _ _ _ (first_seen_elem (country <$> l) (country c))).
  case_decide as Hin.
  - rewrite map_set_shape_old
      by (by apply first_seen_elem || apply first_seen_NoDup).
    apply list_fmap_ext. intros i k Hk. f_equal.
    rewrite filter_app. case_decide as Hk'.
    + subst. by rewrite filter_cons_True, filter_nil.
    + by rewrite filter_cons_False, filter_nil, app_nil_r.
  - rewrite map_set_shape_new by (by rewrite first_seen_elem).
    rewrite fmap_app. simpl. f_equal.
    + apply list_fmap_ext. intros i k Hk. f_equal.
      rewrite filter_app, filter_cons_False, filter_nil, app_nil_r; [done|].
      intros Heq. apply Hin. apply first_seen_elem. rewrite Heq.
      by eapply list_elem_of_lookup_2.
    + rewrite filter_app, filter_country_absent by done.
      by rewrite filter_cons_True, filter_nil.
Qed.

Lemma groupByCountry_partition l :
  groupByCountry l
  = (λ '(k, v), mkGroup k v) <$> Spec.partition_by_country l.
Proof. unfold groupByCountry. by rewrite group_fold_partition. Qed.

Lemma flatten_groupByCountry l : flatten (groupByCountry l) = Spec.grouped_order l.
Proof.
  unfold flatten, Spec.grouped_order, Spec.runs. rewrite groupByCountry_partition.
  unfold Spec.partition_by_country. rewrite <- !list_fmap_compose. done.
Qed.


Lemma filter_iff_in {A} (P1 P2 : A → Prop)
    `{!∀ x, Decision (P1 x), !∀ x, Decision (P2 x)} (l : list A) :
  (∀ x, x ∈ l → P1 x ↔ P2 x) → filter P1 l = filter P2 l.
Proof.
  induction l as [|a l IH]; [done|]. intros Hiff.
  assert (Hl : filter P1 l = filter P2 l).
  { apply IH. intros x Hx. apply Hiff. by right. }
  destruct (decide (P1 a)) as [Ha|Ha].
  - rewrite !filter_cons_True; [by rewrite Hl|by apply Hiff; [left|]|done].
  - rewrite !filter_cons_False; [done| |done].
    intros Ha'. apply Ha. apply Hiff; [by left|done].
Qed.

Lemma filter_true_all {A} (P : A → Prop) `{!∀ x, Decision (P x)} (l : list A) :
  (∀ x, x ∈ l → P x) → filter P l = l.
Proof.
  induction l as [|a l IH]; [done|]. intros Hall.
  rewrite filter_cons_True by (apply Hall; by left). f_equal.
  apply IH. intros x Hx. apply Hall. by right.
Qed.

Lemma filter_false_all {A} (P : A → Prop) `{!∀ x, Decision (P x)} (l : list A) :
  (∀ x, x ∈ l → ¬ P x) → filter P l = [].
Proof.
  induction l as [|a l IH]; [done|]. intros Hall.
  rewrite filter_cons_False by (apply Hall; by left).
  apply IH. intros x Hx. apply Hall. by right.
Qed.

Lemma runs_cons k ks l :
  Spec.runs (k :: ks) l = filter (λ c, country c = k) l ++ Spec.runs ks l.
Proof. done. Qed.

Lemma runs_restrict k ks l :
  k ∉ ks → Spec.runs ks (filter (λ c, country c ≠ k) l) = Spec.runs ks l.
Proof.
  intros Hk. unfold Spec.runs. f_equal. apply list_fmap_ext. intros i k' Hk'.
  rewrite list_filter_filter. apply list_filter_iff. intros c.
  split; [tauto|]. intros Hc. split; [done|]. rewrite Hc. intros ->.
  apply Hk. by eapply list_elem_of_lookup_2.
Qed.

Lemma runs_cons_other c ks l :
  country c ∉ ks → Spec.runs ks (c :: l) = Spec.runs ks l.
Proof.
  intros Hk. unfold Spec.runs. f_equal. apply list_fmap_ext. intros i k' Hk'.
  rewrite filter_cons_False; [done|]. intros Hc. apply Hk. rewrite Hc.
  by eapply list_elem_of_lookup_2.
Qed.

Lemma runs_Permutation ks l :
  NoDup ks → (∀ c, c ∈ l → country c ∈ ks) → Spec.runs ks l ≡ₚ l.
Proof.
  revert l. induction ks as [|k ks IH]; intros l Hnd Hl.
  - destruct l as [|c l]; [done|]. specialize (Hl c). 
    by apply elem_of_nil in Hl; [|left].
  - apply NoDup_cons in Hnd as [Hk Hnd]. rewrite runs_cons.
    rewrite <- (runs_restrict k) by done.
    rewrite IH; [apply filter_app_complement|done|].
    intros c [Hne Hc]%list_elem_of_filter.
    specialize (Hl c Hc). apply elem_of_cons in Hl as [?|?]; done.
Qed.

Lemma runs_filter ks l k :
  NoDup ks →
  filter (λ c, country c = k) (Spec.runs ks l)
  = (if decide (k ∈ ks) then filter (λ c, country c = k) l else []).
Proof.
  induction ks as [|k0 ks IH]; intros Hnd; [done|].
  apply NoDup_cons in Hnd as [Hk0 Hnd].
  rewrite runs_cons, filter_app, IH by done.
  rewrite list_filter_filter.
  destruct (decide (k = k0)) as [->|Hne].
  - rewrite (decide_False (P := k0 ∈ ks)) by done.
    rewrite (decide_True (P := k0 ∈ k0 :: ks)) by (by left).
    rewrite app_nil_r. apply list_filter_iff. tauto.
  - rewrite (filter_false_all (λ c, country c = k ∧ country c = k0))
      by (intros c _ [? ?]; congruence).
    simpl. apply decide_ext. rewrite elem_of_cons. tauto.
Qed.

Lemma by_country_runs l : Spec.grouped_order l = Spec.runs (Spec.first_seen (country <$> l)) l.
Proof. done. Qed.

Lemma by_country_Permutation l : Spec.grouped_order l ≡ₚ l.
Proof.
  rewrite by_country_runs. apply runs_Permutation; [apply first_seen_NoDup|].
  intros c Hc. apply first_seen_elem. by apply list_elem_of_fmap_2.
Qed.

Lemma by_country_filter l k :
  filter (λ c, country c = k) (Spec.grouped_order l) = filter (λ c, country c = k) l.
Proof.
  rewrite by_country_runs, runs_filter by apply first_seen_NoDup.
  case_decide as Hk; [done|]. symmetry. apply filter_country_absent.
  by rewrite <- first_seen_elem.
Qed.

Lemma by_country_cons c l :
  Spec.grouped_order (c :: l)
  = c :: filter (λ d, country d = country c) l
      ++ Spec.runs (filter (λ x, x ≠ country c) (Spec.first_seen (country <$> l))) l.
Proof.
  rewrite by_country_runs. csimpl. rewrite runs_cons.
  rewrite filter_cons_True by done. simpl. f_equal. f_equal.
  apply runs_cons_other. rewrite list_elem_of_filter. tauto.
Qed.

Lemma by_country_cons_fresh c l :
  country c ∉ (country <$> l) → Spec.grouped_order (c :: l) = c :: Spec.grouped_order l.
Proof.
  intros Hc. rewrite by_country_cons, filter_country_absent by done.
  rewrite filter_ne_absent by (by rewrite first_seen_elem). done.
Qed.

Lemma by_country_cons_same c d l :
  country c = country d → Spec.grouped_order (c :: d :: l) = c :: Spec.grouped_order (d :: l).
Proof.
  intros Hcd. rewrite !by_country_cons, <- Hcd. f_equal.
  rewrite filter_cons_True by done. rewrite <- app_comm_cons. f_equal. f_equal.
  rewrite fmap_cons, <- Hcd.
  change (Spec.first_seen (country c :: (country <$> l)))
    with (country c :: filter (λ x, x ≠ country c) (Spec.first_seen (country <$> l))).
  rewrite filter_cons_False by tauto.
  rewrite list_filter_filter.
  rewrite runs_cons_other by (rewrite <- Hcd, list_elem_of_filter; tauto).
  f_equal. apply list_filter_iff. tauto.
Qed.

(** Grouping leaves the order alone exactly when the cities of each
    country already stand together. *)
Lemma by_country_fixed l : Spec.grouped_order l = l ↔ Spec.adjacent_by_country l.
Proof.
  induction l as [|c l IH]; [done|].
  destruct l as [|d l].
  { simpl. split; [done|]. intros _. by rewrite by_country_cons_fresh by apply not_elem_of_nil. }
  change (Spec.adjacent_by_country (c :: d :: l)) with
    ((country c = country d ∨ country c ∉ (country <$> d :: l))
     ∧ Spec.adjacent_by_country (d :: l)).
  split.
  - intros Heq.
    assert (Hhead : country c = country d ∨ country c ∉ (country <$> d :: l)).
    { destruct (decide (country c = country d)) as [|Hne]; [by left|]. right.
      intros Hin. rewrite by_country_cons in Heq. 
      destruct (filter (λ d0, country d0 = country c) (d :: l)) as [|e es] eqn:He.
      - apply list_elem_of_fmap in Hin as (x & Hx & Hxin).
        by destruct (filter_nil_not_elem_of _ _ x He).
      - assert (e ∈ filter (λ d0, country d0 = country c) (d :: l)) as Hein
          by (rewrite He; by left).
        apply list_elem_of_filter in Hein as [Hec _].
        simpl in Heq. by simplify_eq. }
    split; [done|]. apply IH.
    destruct Hhead as [Hs|Hf].
    + rewrite by_country_cons_same in Heq by done. by simplify_eq.
    + rewrite by_country_cons_fresh in Heq by done. by simplify_eq.
  - intros [Hhead Hadj]. apply IH in Hadj.
    destruct Hhead as [Hs|Hf].
    + rewrite by_country_cons_same by done. by rewrite Hadj.
    + rewrite by_country_cons_fresh by done. by rewrite Hadj.
Qed.

End grouping.


(** ** Substrings up to case *)

Section ignoring_case.

(** The characters below 256, by their numbers. *)
Lemma code_listed c : N_of_ascii c ∈ N.of_nat <$> seq 0 256.
Proof.
  apply list_elem_of_fmap. exists (N.to_nat (N_of_ascii c)).
  split; [by rewrite N2Nat.id|].
  apply list_elem_of_In, in_seq. pose proof (N_ascii_bounded c). lia.
Qed.

(** Lowering the case tells two characters apart exactly when they are
    not the same letter: checked on every pair of characters. *)
Lemma same_letter_table :
  forallb (λ x,
    forallb (λ y,
      Bool.eqb
        (bool_decide (Js.lower_char (ascii_of_N x) = Js.lower_char (ascii_of_N y)))
        (Spec.same_letter (ascii_of_N y) (ascii_of_N x)))
      (N.of_nat <$> seq 0 256))
    (N.of_nat <$> seq 0 256) = true.
Proof. by vm_compute. Qed.

Lemma lower_char_same_letter q t :
  bool_decide (Js.lower_char q = Js.lower_char t) = Spec.same_letter t q.
Proof.
  pose proof same_letter_table as Ht. rewrite forallb_forall in Ht.
  specialize (Ht (N_of_ascii q) (proj1 (list_elem_of_In _ _) (code_listed q))).
  rewrite forallb_forall in Ht.
  specialize (Ht (N_of_ascii t) (proj1 (list_elem_of_In _ _) (code_listed t))).
  rewrite !ascii_N_embedding in Ht. by apply Bool.eqb_prop.
Qed.

Lemma startsWith_lower text query :
  Js.startsWith (Js.toLowerCase text) (Js.toLowerCase query)
  = Spec.starts_ci text query.
Proof.
  revert text. induction query as [|q query IH]; intros text;
    [by destruct text|].
  destruct text as [|t text]; [done|]. simpl.
  by rewrite IH, lower_char_same_letter.
Qed.

Lemma includes_lower text query :
  Js.includes (Js.toLowerCase text) (Js.toLowerCase query)
  = Spec.occurs_ci text query.
Proof.
  induction text as [|t text IH].
  - change (Js.includes (Js.toLowerCase "") (Js.toLowerCase query))
      with (Js.startsWith (Js.toLowerCase "") (Js.toLowerCase query) || false).
    by rewrite startsWith_lower.
  - change (Js.includes (Js.toLowerCase (String t text)) (Js.toLowerCase query))
      with (Js.startsWith (Js.toLowerCase (String t text)) (Js.toLowerCase query)
            || Js.includes (Js.toLowerCase text) (Js.toLowerCase query)).
    by rewrite IH, startsWith_lower.
Qed.

Lemma starts_ci_prefix text query :
  Spec.starts_ci text query = true ↔
  ∃ m b, text = m +:+ b ∧ Spec.equal_ci m query.
Proof.
  revert text. induction query as [|q query IH]; intros text.
  - split; [intros _; by exists "", text|by destruct text].
  - destruct text as [|t text]; simpl.
    + split; [done|]. intros (m & b & Heq & Hm). by destruct m.
    + rewrite andb_true_iff, IH. split.
      * intros (Ht & m & b & -> & Hm). by exists (String t m), b.
      * intros (m & b & Heq & Hm). destruct m as [|c m]; [done|].
        rewrite app_cons in Heq. injection Heq as -> ->.
        destruct Hm as [Hc Hm]. eauto.
Qed.

(** What "contains, whatever the case" says: a piece of the text is the
    query up to the case of its letters. *)
Lemma contains_ci_piece text query :
  Spec.contains_ci text query ↔
  ∃ a m b, text = a +:+ m +:+ b ∧ Spec.equal_ci m query.
Proof.
  unfold Spec.contains_ci. induction text as [|t text IH].
  - change (Spec.occurs_ci "" query) with (Spec.starts_ci "" query || false).
    rewrite orb_false_r, starts_ci_prefix. split.
    + intros (m & b & Heq & Hm). by exists "", m, b.
    + intros (a & m & b & Heq & Hm). destruct a; [by exists m, b|done].
  - change (Spec.occurs_ci (String t text) query)
      with (Spec.starts_ci (String t text) query || Spec.occurs_ci text query).
    rewrite orb_true_iff, starts_ci_prefix, IH. split.
    + intros [(m & b & Heq & Hm)|(a & m & b & Heq & Hm)].
      * by exists "", m, b.
      * exists (String t a), m, b. by rewrite app_cons, Heq.
    + intros (a & m & b & Heq & Hm). destruct a as [|c a].
      * left. by exists m, b.
      * right. rewrite app_cons in Heq. injection Heq as -> ->. eauto.
Qed.

End ignoring_case.

Section search.
Import Search.
Context (CITIES : list City) (zoneOffset : Z → string → Js.Res Js.jsnum).

Lemma offset_matches_decides now off c :
  offset_matches zoneOffset now off c
  = Js.Ok (bool_decide (zoneOffset now (tz c) = Js.Ok (Js.Num off))).
Proof.
  unfold offset_matches, Js.try_catch, Js.bind, Js.strict_eq.
  destruct (zoneOffset now (tz c)) as [[z|]|e].
  - f_equal. apply bool_decide_ext. split; [by intros ->|by intros [=]].
  - by rewrite bool_decide_eq_false_2.
  - by rewrite bool_decide_eq_false_2.
Qed.

Lemma filterM_offset now off l :
  Js.filterM (offset_matches zoneOffset now off) l
  = Js.Ok (filter (λ c, zoneOffset now (tz c) = Js.Ok (Js.Num off)) l).
Proof.
  induction l as [|c l IH]; [done|]. simpl.
  rewrite offset_matches_decides, IH. simpl.
  case_bool_decide; [by rewrite filter_cons_True|by rewrite filter_cons_False].
Qed.

Lemma name_loop q l acc seen :
  foldl (name_step q) (acc, seen) l
  = (acc ++ filter (λ c, Js.includes (Js.toLowerCase (name c)) q = true) l,
     seen ∪ list_to_set
              (name <$> filter (λ c, Js.includes (Js.toLowerCase (name c)) q = true) l)).
Proof.
  revert acc seen. induction l as [|c l IH]; intros acc seen; simpl.
  - rewrite app_nil_r. f_equal. by rewrite union_empty_r_L.
  - rewrite filter_cons.
    destruct (Js.includes (Js.toLowerCase (name c)) q) eqn:Hc.
    + rewrite decide_True by done. rewrite IH, <- app_assoc. f_equal.
      rewrite fmap_cons, list_to_set_cons. by rewrite (assoc_L (∪)).
    + rewrite decide_False by done. apply IH.
Qed.

Lemma country_loop q (seen : gset string) l acc :
  foldl (country_step q seen) acc l
  = acc ++ filter (λ c, (name c ∉ seen) ∧
                        Js.includes (Js.toLowerCase (country c)) q = true) l.
Proof.
  revert acc. induction l as [|c l IH]; intros acc; simpl.
  - by rewrite app_nil_r.
  - rewrite filter_cons. unfold country_step at 2.
    destruct (decide (name c ∈ seen)) as [Hs|Hs].
    + rewrite bool_decide_eq_true_2 by done. simpl.
      rewrite decide_False by tauto. apply IH.
    + rewrite bool_decide_eq_false_2 by done. simpl.
      destruct (Js.includes (Js.toLowerCase (country c)) q) eqn:Hc.
      * rewrite decide_True by done. by rewrite IH, <- app_assoc.
      * rewrite decide_False by (intros [_ ?]; done). apply IH.
Qed.

(** [seen] holds the name of a catalog city exactly when the city is
    among the name matches. *)
Lemma seen_names q c :
  c ∈ CITIES →
  name c ∈ (name <$> filter (λ c, Js.includes (Js.toLowerCase (name c)) q = true) CITIES)
  ↔ c ∈ filter (λ c, Js.includes (Js.toLowerCase (name c)) q = true) CITIES.
Proof.
  intros Hc. split.
  - intros (c' & Heq & [Hq _]%list_elem_of_filter)%list_elem_of_fmap.
    apply list_elem_of_filter. split; [by rewrite Heq|done].
  - apply list_elem_of_fmap_2.
Qed.

Lemma free_text_branch now query :
  Js.toLowerCase (Js.trim query) ≠ "" →
  OffsetQuery.parseOffsetQuery (Js.toLowerCase (Js.trim query)) = None →
  ∃ r, search CITIES zoneOffset now query = Js.Ok r ∧
       results r = Spec.free_text_results CITIES query ∧
       grouped r = groupByCountry (results r) ∧
       (showGroups r = false →
        ∀ c d, c ∈ results r → d ∈ results r → country c = country d).
Proof.
  intros Hne Hnone. unfold search. rewrite Hnone.
  rewrite bool_decide_eq_false_2
    by (destruct (Js.toLowerCase (Js.trim query)); done).
  rewrite name_loop, country_loop. simpl.
  eexists. split; [reflexivity|]. simpl.
  set (q := Js.toLowerCase (Js.trim query)).
  set (a := filter (λ c, Js.includes (Js.toLowerCase (name c)) q = true) CITIES).
  assert (Ha : a = filter (λ c, Spec.contains_ci (name c) (Js.trim query)) CITIES).
  { unfold a. apply filter_iff_in. intros c _.
    unfold Spec.contains_ci, q. by rewrite includes_lower. }
  rewrite (filter_iff_in _
             (λ c, (c ∉ a) ∧ Spec.contains_ci (country c) (Js.trim query)) CITIES).
  2:{ intros c Hc. unfold Spec.contains_ci. rewrite <- includes_lower. fold q.
      rewrite union_empty_l_L, elem_of_list_to_set. unfold a.
      rewrite (seen_names q c Hc). done. }
  split.
  { unfold Spec.free_text_results. cbv zeta. by rewrite <- Ha. }
  split; [done|].
  intros Hshow c d Hc Hd.
  apply orb_false_elim in Hshow as [_ Hmulti].
  apply bool_decide_eq_false in Hmulti.
  match type of Hmulti with ¬ (1 < size ?X)%nat => set (CS := X) in * end.
  assert (HcS : country c ∈ CS).
  { apply elem_of_list_to_set. by apply list_elem_of_fmap_2. }
  assert (HdS : country d ∈ CS).
  { apply elem_of_list_to_set. by apply list_elem_of_fmap_2. }
  destruct (decide (country c = country d)) as [|Hcd]; [done|].
  destruct Hmulti.
  assert (Hsub : ({[country c; country d]} : gset string) ⊆ CS).
  { intros x [Hx|Hx]%elem_of_union; apply elem_of_singleton in Hx; by subst. }
  apply subseteq_size in Hsub.
  rewrite size_union in Hsub by (apply disjoint_singleton_l; by rewrite elem_of_singleton).
  rewrite !size_singleton in Hsub. lia.
Qed.

Lemma offset_branch now query off :
  OffsetQuery.parseOffsetQuery (Js.toLowerCase (Js.trim query)) = Some off →
  search CITIES zoneOffset now query
  = Js.Ok (mkSearchResult
             (Spec.offset_results CITIES zoneOffset now off)
             (groupByCountry (Spec.offset_results CITIES zoneOffset now off))
             true).
Proof.
  intros Hoff. unfold search. rewrite Hoff.
  rewrite bool_decide_eq_false_2
    by (destruct (Js.toLowerCase (Js.trim query)); done).
  by rewrite filterM_offset.
Qed.

Lemma empty_branch now query :
  Js.toLowerCase (Js.trim query) = "" →
  search CITIES zoneOffset now query = Js.Ok (mkSearchResult [] [] false).
Proof. intros Hq. unfold search. by rewrite Hq. Qed.

(** The memo always returns, and what it returns is consistent. *)
Lemma search_returns now query :
  ∃ r, search CITIES zoneOffset now query = Js.Ok r ∧
       (length (results r) ≤ 12)%nat ∧
       grouped r = groupByCountry (results r) ∧
       (showGroups r = false → Spec.adjacent_by_country (results r)).
Proof.
  destruct (decide (Js.toLowerCase (Js.trim query) = "")) as [Hq|Hq].
  { rewrite empty_branch by done. eexists. split; [done|]. simpl.
    repeat split. lia. }
  destruct (OffsetQuery.parseOffsetQuery (Js.toLowerCase (Js.trim query)))
    as [off|] eqn:Hoff.
  { rewrite (offset_branch now query off) by done. eexists. split; [done|]. simpl.
    split; [|done]. unfold Spec.offset_results. rewrite length_take. lia. }
  destruct (free_text_branch now query Hq Hoff) as (r & -> & Hres & Hg & Hshow).
  exists r. split; [done|]. split; [|split; [done|]].
  - rewrite Hres. unfold Spec.free_text_results. rewrite length_take. lia.
  - intros Hs. specialize (Hshow Hs). clear -Hshow.
    induction (results r) as [|c l IH]; [done|]. simpl. split.
    + destruct l as [|d l]; [done|]. left. apply Hshow; [by left|right; by left].
    + apply IH. intros c' d' Hc' Hd'. apply Hshow; by right.
Qed.


(** C1, amended: the flattened groups are the ungrouped results in
    another order, the partition by country: the same cities, the
    countries in the order of their first city and the cities of each
    country in their order; the two sequences are equal exactly when
    the cities of each country stand together in the ungrouped list,
    which is the case whenever the results are shown without groups. *)
Theorem grouped_flatten_is_partition now query :
  ∃ r, search CITIES zoneOffset now query = Js.Ok r ∧
       grouped r
       = (λ '(k, v), mkGroup k v) <$> Spec.partition_by_country (results r) ∧
       flatten (grouped r) ≡ₚ results r ∧
       (∀ k, filter (λ c, country c = k) (flatten (grouped r))
             = filter (λ c, country c = k) (results r)) ∧
       (flatten (grouped r) = results r
        ↔ Spec.adjacent_by_country (results r)) ∧
       (showGroups r = false →
        flatten (grouped r) = results r ∧ flatResults r = results r).
Proof.
  destruct (search_returns now query) as (r & Hr & _ & Hg & Hshow).
  exists r. split; [done|].
  assert (Hflat : flatten (grouped r) = Spec.grouped_order (results r)).
  { rewrite Hg. apply flatten_groupByCountry. }
  split; [by rewrite Hg, groupByCountry_partition|].
  rewrite Hflat.
  split; [apply by_country_Permutation|].
  split; [intros k; apply by_country_filter|].
  split; [apply by_country_fixed|].
  intros Hs. split; [by apply by_country_fixed, Hshow|].
  unfold flatResults. by rewrite Hs.
Qed.

(** C4: a query that is not empty and is no offset query returns the
    name matches in catalog order, then the country matches that are
    no name matches in catalog order, cut to 12; and no query returns
    more than 12 cities.  A text matches when a piece of it is the
    trimmed query up to the case of the letters. *)
Theorem free_text_search :
  (∀ now query,
     Js.toLowerCase (Js.trim query) ≠ "" →
     OffsetQuery.parseOffsetQuery (Js.toLowerCase (Js.trim query)) = None →
     ∃ r, search CITIES zoneOffset now query = Js.Ok r ∧
          results r = Spec.free_text_results CITIES query ∧
          (length (results r) ≤ 12)%nat) ∧
  (∀ now query,
     ∃ r, search CITIES zoneOffset now query = Js.Ok r ∧
          (length (results r) ≤ 12)%nat) ∧
  (∀ text query,
     Spec.contains_ci text query ↔
     ∃ a m b, text = a +:+ m +:+ b ∧ Spec.equal_ci m query).
Proof.
  split; [|split].
  - intros now query Hne Hnone.
    destruct (free_text_branch now query Hne Hnone) as (r & Hr & Hres & _).
    exists r. split; [done|]. split; [done|].
    rewrite Hres. unfold Spec.free_text_results. rewrite length_take. lia.
  - intros now query.
    destruct (search_returns now query) as (r & Hr & Hlen & _). eauto.
  - exact contains_ci_piece.
Qed.

(** C5: an offset query returns the catalog cities whose zone has the
    requested offset at the one timestamp [now], in catalog order, cut
    to 12, shown in groups by country; a city whose zone lookup throws
    or gives no offset is left out, and the search itself returns. *)
Theorem offset_search now query off :
  OffsetQuery.parseOffsetQuery (Js.toLowerCase (Js.trim query)) = Some off →
  ∃ r, search CITIES zoneOffset now query = Js.Ok r ∧
       results r = Spec.offset_results CITIES zoneOffset now off ∧
       showGroups r = true ∧
       grouped r
       = (λ '(k, v), mkGroup k v) <$> Spec.partition_by_country (results r) ∧
       flatResults r = Spec.grouped_order (results r) ∧
       (∀ c, c ∈ results r →
             c ∈ CITIES ∧ zoneOffset now (tz c) = Js.Ok (Js.Num off)) ∧
       (∀ c, zoneOffset now (tz c) = Js.Ok Js.NaN ∨
             (∃ e, zoneOffset now (tz c) = Js.Throw e) →
             c ∉ results r).
Proof.
  intros Hoff. rewrite (offset_branch now query off Hoff).
  eexists. split; [reflexivity|]. simpl.
  split; [done|]. split; [done|].
  split; [apply groupByCountry_partition|].
  split; [apply flatten_groupByCountry|].
  assert (Hin : ∀ c, c ∈ Spec.offset_results CITIES zoneOffset now off →
                     c ∈ CITIES ∧ zoneOffset now (tz c) = Js.Ok (Js.Num off)).
  { intros c Hc. unfold Spec.offset_results in Hc.
    apply elem_of_take in Hc as (i & Hi & _).
    apply list_elem_of_lookup_2, list_elem_of_filter in Hi. tauto. }
  split; [exact Hin|].
  intros c Hfail Hc. apply Hin in Hc as [_ Hc]. rewrite Hc in Hfail.
  destruct Hfail as [?|[e ?]]; done.
Qed.

End search.

(** C1, as stated, fails: for the query ["UTC+1"] the results are
    Paris, Madrid, Marseille in catalog order, and the flattened groups
    put Marseille next to Paris. *)
Lemma grouping_moves_marseille :
  ∃ r, Search.search Sample.CITIES Sample.zoneOffset 0 "UTC+1" = Js.Ok r ∧
       Search.results r = [Sample.Paris; Sample.Madrid; Sample.Marseille] ∧
       Search.flatten (Search.grouped r)
       = [Sample.Paris; Sample.Marseille; Sample.Madrid] ∧
       Search.flatResults r = Search.flatten (Search.grouped r) ∧
       Search.flatten (Search.grouped r) ≠ Search.results r.
Proof.
  eexists. split; [by vm_compute|]. simpl.
  split; [done|]. split; [done|]. split; [done|]. discriminate.
Qed.

Lemma free_text_search_witness :
  ∃ r, Search.search Sample.CITIES Sample.zoneOffset 0 " Ar " = Js.Ok r ∧
       Search.results r = [Sample.Paris; Sample.Marseille] ∧
       (length (Search.results r) ≤ 12)%nat.
Proof.
  destruct (proj1 (free_text_search Sample.CITIES Sample.zoneOffset) 0 " Ar ")
    as (r & Hr & Hres & Hlen).
  - by vm_compute.
  - by vm_compute.
  - exists r. split; [exact Hr|]. split; [|exact Hlen].
    rewrite Hres. by vm_compute.
Defined.

Lemma offset_search_witness :
  ∃ r, Search.search Sample.CITIES Sample.zoneOffset 0 " GMT " = Js.Ok r ∧
       Search.results r = [Sample.London] ∧
       (Sample.Atlantis ∉ Search.results r) ∧
       (Sample.Lemuria ∉ Search.results r).
Proof.
  destruct (offset_search Sample.CITIES Sample.zoneOffset 0 " GMT " 0)
    as (r & Hr & Hres & _ & _ & _ & _ & Hfail); [by vm_compute|].
  exists r. split; [exact Hr|]. split; [rewrite Hres; by vm_compute|].
  split; apply Hfail.
  - left. by vm_compute.
  - left. by vm_compute.
Defined.

(** ** The URL *)

Section url_strings.

Lemma string_forall_app p a b :
  Spec.string_forall p (a +:+ b)
  = Spec.string_forall p a && Spec.string_forall p b.
Proof.
  induction a as [|c a IH]; [done|]. rewrite app_cons. simpl.
  by rewrite IH, andb_assoc.
Qed.

Lemma string_forall_impl (p1 p2 : ascii → bool) s :
  (∀ c, p1 c = true → p2 c = true) →
  Spec.string_forall p1 s = true → Spec.string_forall p2 s = true.
Proof.
  intros Himp. induction s as [|c s IH]; [done|]. simpl.
  intros [Hc Hs]%andb_prop. by rewrite (Himp c Hc), IH.
Qed.

Lemma rev_app_app s t : String.rev_app s t = String.rev s +:+ t.
Proof.
  unfold String.rev. revert t. induction s as [|c s IH]; intros t; [done|].
  simpl. rewrite IH, (IH (String c "")). by rewrite app_assoc_s.
Qed.

Lemma rev_cons c s : String.rev (String c s) = String.rev s +:+ String c "".
Proof. unfold String.rev at 1. simpl. apply rev_app_app. Qed.

Lemma rev_app_distr s t : String.rev (s +:+ t) = String.rev t +:+ String.rev s.
Proof.
  induction s as [|c s IH]; [by rewrite app_empty_l, app_empty_r|].
  by rewrite app_cons, !rev_cons, IH, app_assoc_s.
Qed.

Lemma rev_involutive s : String.rev (String.rev s) = s.
Proof.
  induction s as [|c s IH]; [done|].
  by rewrite rev_cons, rev_app_distr, IH.
Qed.

Lemma string_forall_rev p s :
  Spec.string_forall p (String.rev s) = Spec.string_forall p s.
Proof.
  induction s as [|c s IH]; [done|].
  rewrite rev_cons, string_forall_app, IH. simpl.
  by rewrite andb_true_r, andb_comm.
Qed.

End url_strings.

Section url_pipeline.
Import Url.

Lemma strip_leading_id s :
  Spec.string_forall (λ c, negb (code c <=? 32)%N) s = true → strip_leading s = s.
Proof.
  destruct s as [|c s]; [done|]. simpl. intros [Hc _]%andb_prop.
  apply negb_true_iff in Hc. by rewrite Hc.
Qed.

Lemma strip_id s :
  Spec.string_forall (λ c, negb (code c <=? 32)%N) s = true → strip s = s.
Proof.
  intros Hs. unfold strip. rewrite (strip_leading_id s Hs).
  rewrite strip_leading_id by (by rewrite string_forall_rev).
  apply rev_involutive.
Qed.

Lemma remove_tab_newline_id s :
  Spec.string_forall (λ c, negb (code c <=? 32)%N) s = true →
  remove_tab_newline s = s.
Proof.
  induction s as [|c s IH]; [done|]. simpl. intros [Hc Hs]%andb_prop.
  rewrite IH by done.
  assert (bool_decide (c = "009"%char) || bool_decide (c = "010"%char)
          || bool_decide (c = "013"%char) = false) as ->; [|done].
  repeat case_bool_decide; subst; done.
Qed.

Lemma cut_absent stop s :
  Spec.string_forall (λ c, negb (bool_decide (c = stop))) s = true →
  cut stop s = (s, None).
Proof.
  induction s as [|c s IH]; [done|]. simpl. intros [Hc Hs]%andb_prop.
  apply negb_true_iff in Hc. by rewrite Hc, IH.
Qed.

Lemma cut_app stop a b :
  Spec.string_forall (λ c, negb (bool_decide (c = stop))) a = true →
  cut stop (a +:+ String stop b) = (a, Some b).
Proof.
  induction a as [|c a IH]; simpl.
  - intros _. by rewrite bool_decide_eq_true_2.
  - intros [Hc Ha]%andb_prop. apply negb_true_iff in Hc.
    by rewrite Hc, IH.
Qed.

Lemma encode_query_id s :
  Spec.string_forall (λ c, negb (in_query_set c)) s = true → encode_query s = s.
Proof.
  induction s as [|c s IH]; [done|]. simpl. intros [Hc Hs]%andb_prop.
  apply negb_true_iff in Hc. by rewrite Hc, IH.
Qed.

Lemma split_go_app sep cur a b :
  Spec.string_forall (λ c, negb (bool_decide (c = sep))) a = true →
  Js.split_go sep cur (a +:+ String sep b)
  = String.rev (String.rev_app a cur) :: Js.split_go sep "" b.
Proof.
  revert cur. induction a as [|c a IH]; intros cur; simpl.
  - intros _. by rewrite bool_decide_eq_true_2.
  - intros [Hc Ha]%andb_prop. apply negb_true_iff in Hc.
    by rewrite Hc, IH.
Qed.

Lemma split_go_last sep cur a :
  Spec.string_forall (λ c, negb (bool_decide (c = sep))) a = true →
  Js.split_go sep cur a = [String.rev (String.rev_app a cur)].
Proof.
  revert cur. induction a as [|c a IH]; intros cur; simpl; [done|].
  intros [Hc Ha]%andb_prop. apply negb_true_iff in Hc. by rewrite Hc, IH.
Qed.

Lemma rev_rev_app a : String.rev (String.rev_app a "") = a.
Proof. apply rev_involutive. Qed.

Lemma split_join sep parts :
  parts ≠ [] →
  Forall (λ p, Spec.string_forall (λ c, negb (bool_decide (c = sep))) p = true) parts →
  Js.split sep (Js.join (String sep "") parts) = parts.
Proof.
  intros Hne Hall. unfold Js.split.
  induction Hall as [|p parts Hp Hall IH]; [done|].
  destruct parts as [|p' parts].
  - simpl. rewrite split_go_last by done. by rewrite rev_rev_app.
  - change (Js.join (String sep "") (p :: p' :: parts))
      with (p +:+ String sep (Js.join (String sep "") (p' :: parts))).
    rewrite split_go_app by done. rewrite rev_rev_app. f_equal. by apply IH.
Qed.

Lemma plus_to_space_id s :
  Spec.string_forall (λ c, negb (bool_decide (c = "+"%char))) s = true →
  plus_to_space s = s.
Proof.
  induction s as [|c s IH]; [done|]. simpl. intros [Hc Hs]%andb_prop.
  apply negb_true_iff in Hc. by rewrite Hc, IH.
Qed.

Lemma percent_decode_other c rest :
  c ≠ "%"%char → percent_decode (String c rest) = String c (percent_decode rest).
Proof.
  intros Hc. simpl. destruct rest as [|a [|b r]]; try done.
  rewrite bool_decide_eq_false_2 by done. done.
Qed.

Lemma percent_decode_encodeSpaces s :
  Spec.string_forall (λ c, negb (bool_decide (c = "%"%char))) s = true →
  percent_decode (encodeSpaces s) = s.
Proof.
  induction s as [|c s IH]; [done|]. simpl. intros [Hc Hs]%andb_prop.
  apply negb_true_iff, bool_decide_eq_false in Hc.
  case_bool_decide as Hsp.
  - subst. change ("%20" +:+ encodeSpaces s)
      with (String "%" (String "2" (String "0" (encodeSpaces s)))).
    change (percent_decode (String "%" (String "2" (String "0" (encodeSpaces s)))))
      with (String " " (percent_decode (encodeSpaces s))).
    by rewrite IH.
  - rewrite percent_decode_other by done. by rewrite IH.
Qed.

Lemma encodeSpaces_app a b :
  encodeSpaces (a +:+ b) = encodeSpaces a +:+ encodeSpaces b.
Proof.
  induction a as [|c a IH]; [done|]. rewrite app_cons. simpl.
  rewrite IH. case_bool_decide; [|done]. by rewrite app_assoc_s.
Qed.

Lemma encodeSpaces_join names :
  encodeSpaces (Js.join "," names) = Js.join "," (encodeSpaces <$> names).
Proof.
  induction names as [|n names IH]; [done|].
  destruct names as [|n' names]; [done|].
  change (Js.join "," (n :: n' :: names))
    with (n +:+ "," +:+ Js.join "," (n' :: names)).
  rewrite !encodeSpaces_app, IH. done.
Qed.

Lemma string_forall_join p sep parts :
  Spec.string_forall p sep = true →
  Forall (λ s, Spec.string_forall p s = true) parts →
  Spec.string_forall p (Js.join sep parts) = true.
Proof.
  intros Hsep Hall. induction Hall as [|s parts Hs Hall IH]; [done|].
  destruct parts as [|s' parts]; [done|].
  change (Js.join sep (s :: s' :: parts))
    with (s +:+ sep +:+ Js.join sep (s' :: parts)).
  by rewrite !string_forall_app, Hs, Hsep, IH.
Qed.

Lemma string_forall_encodeSpaces p s :
  p "%"%char = true → p "2"%char = true → p "0"%char = true →
  Spec.string_forall (λ c, p c || bool_decide (c = " "%char)) s = true →
  Spec.string_forall p (encodeSpaces s) = true.
Proof.
  intros H1 H2 H3. induction s as [|c s IH]; [done|]. simpl.
  intros [Hc Hs]%andb_prop. case_bool_decide as Hsp.
  - rewrite string_forall_app. simpl. by rewrite H1, H2, H3, IH.
  - simpl. rewrite orb_false_r in Hc. by rewrite Hc, IH.
Qed.

End url_pipeline.

Section url_roundtrip.
Import Url.

(** Decides a fact about every character by running through all 256. *)
Ltac all_chars :=
  let c := fresh "c" in
  intros c; destruct c as [[] [] [] [] [] [] [] []]; vm_compute;
  first [reflexivity | discriminate | intros; discriminate | intros; reflexivity
        | intros ? ?; discriminate ].

(** *** Characters *)

Lemma plain_url_char c : Spec.url_plain c = true → Spec.url_char c = true.
Proof. revert c. all_chars. Qed.

Lemma plain_path_char c : Spec.url_plain c = true → Spec.path_char c = true.
Proof. revert c. all_chars. Qed.

Lemma plain_not_percent c :
  Spec.url_plain c = true → negb (bool_decide (c = "%"%char)) = true.
Proof. revert c. all_chars. Qed.

Lemma plain_visible c : Spec.url_plain c = true → (32 <? code c)%N = true.
Proof. revert c. all_chars. Qed.

Lemma path_char_not x :
  x ∈ ["#"; "?"]%char →
  ∀ c, Spec.path_char c = true → negb (bool_decide (c = x)) = true.
Proof.
  intros Hx c Hc. apply negb_true_iff, bool_decide_eq_false. intros ->.
  revert Hc. repeat (apply elem_of_cons in Hx as [->|Hx]; [by vm_compute|]).
  by apply elem_of_nil in Hx.
Qed.

Lemma url_char_not x :
  x ∈ ["#"; "&"; "+"; "009"; "010"; "013"]%char →
  ∀ c, Spec.url_char c = true → negb (bool_decide (c = x)) = true.
Proof.
  intros Hx c Hc. apply negb_true_iff, bool_decide_eq_false. intros ->.
  revert Hc. repeat (apply elem_of_cons in Hx as [->|Hx]; [by vm_compute|]).
  by apply elem_of_nil in Hx.
Qed.

Lemma query_set_ascii c : in_query_set c = false → (code c <? 128)%N = true.
Proof. revert c. all_chars. Qed.

Lemma query_set_not_percent c : in_query_set c = true → c ≠ "%"%char.
Proof. intros Hc ->. by vm_compute in Hc. Qed.

Lemma query_set_not_hex c : in_query_set c = true → Spec.is_hex c = false.
Proof. revert c. all_chars. Qed.

Lemma is_hex_value a :
  Spec.is_hex a = match hex_value a with Some _ => true | None => false end.
Proof. revert a. all_chars. Qed.

(** What a character is written as in the query is made of [%] and
    digits, none of which is written in another way. *)
Lemma percent_encode_written c :
  in_query_set c = true →
  Spec.string_forall Invariant.written_char (percent_encode c) = true.
Proof. revert c. all_chars. Qed.

Lemma percent_encode_head c :
  in_query_set c = true → ∃ r, percent_encode c = String "%" r.
Proof.
  intros _. unfold percent_encode, utf8_char.
  destruct (code c <? 128)%N; simpl; eauto.
Qed.

(** Decoding what a character was written as gives its bytes. *)
Lemma percent_decode_encode c u :
  in_query_set c = true →
  percent_decode (percent_encode c +:+ u) = utf8_char c +:+ percent_decode u.
Proof.
  revert c. intros c.
  destruct c as [[] [] [] [] [] [] [] []]; intros Hc;
    try (by vm_compute in Hc); reflexivity.
Qed.

Lemma utf8_decode_char c u :
  utf8_decode (utf8_char c +:+ u) = String c (utf8_decode u).
Proof.
  destruct c as [[] [] [] [] [] [] [] []]; destruct u as [|b u]; reflexivity.
Qed.

Lemma utf8_round_trip s : utf8_decode (utf8_encode s) = s.
Proof.
  induction s as [|c s IH]; [done|]. simpl.
  by rewrite utf8_decode_char, IH.
Qed.

Lemma utf8_encode_ascii s :
  Spec.string_forall (λ c, (code c <? 128)%N) s = true → utf8_encode s = s.
Proof.
  induction s as [|c s IH]; [done|]. simpl. intros [Hc Hs]%andb_prop.
  unfold utf8_char. by rewrite Hc, IH.
Qed.

(** *** The query as the browser writes it *)

Lemma encode_query_app a b :
  encode_query (a +:+ b) = encode_query a +:+ encode_query b.
Proof.
  induction a as [|c a IH]; [done|]. rewrite app_cons. simpl. rewrite IH.
  destruct (in_query_set c); [by rewrite app_assoc_s|done].
Qed.

Lemma encode_query_encodeSpaces s :
  encode_query (encodeSpaces s) = encode_query s.
Proof.
  induction s as [|c s IH]; [done|]. simpl. case_bool_decide as Hc.
  - subst. rewrite encode_query_app, IH. done.
  - simpl. by rewrite IH.
Qed.

Lemma encode_query_written s :
  Spec.string_forall
    (λ c, in_query_set c || negb (bool_decide (c ∈ ["&"; "+"]%char)))
    s = true →
  Spec.string_forall Invariant.written_char (encode_query s) = true.
Proof.
  induction s as [|c s IH]; [done|]. simpl. intros [Hc Hs]%andb_prop.
  destruct (in_query_set c) eqn:Hset.
  - by rewrite string_forall_app, percent_encode_written, IH.
  - simpl. unfold Invariant.written_char at 1. rewrite Hset. simpl in *.
    by rewrite Hc, IH.
Qed.

Lemma written_char_ascii c :
  Invariant.written_char c = true → (code c <? 128)%N = true.
Proof. revert c. all_chars. Qed.

Lemma written_char_not x :
  x ∈ ["#"; "&"; "+"]%char →
  ∀ c, Invariant.written_char c = true → negb (bool_decide (c = x)) = true.
Proof.
  intros Hx c Hc. apply negb_true_iff, bool_decide_eq_false. intros ->.
  revert Hc. repeat (apply elem_of_cons in Hx as [->|Hx]; [by vm_compute|]).
  by apply elem_of_nil in Hx.
Qed.

(** *** Percent escapes *)

(** The text that follows does not go on with a hexadecimal digit. *)
Lemma escape_at_short c a :
  Spec.escape_at (String c (String a "")) = false.
Proof. done. Qed.

Lemma escape_at_percent c u :
  Spec.escape_at (String c (String "%" u)) = false.
Proof. destruct u; simpl; [done|]. by rewrite andb_false_r. Qed.

Lemma escape_at_stop c a x u :
  Spec.is_hex x = false → Spec.escape_at (String c (String a (String x u))) = false.
Proof. intros Hx. simpl. rewrite Hx. apply andb_false_r. Qed.

Lemma escape_at_other c u :
  c ≠ "%"%char → Spec.escape_at (String c u) = false.
Proof.
  intros Hc. destruct u as [|a [|b r]]; try done. simpl.
  by rewrite bool_decide_eq_false_2.
Qed.

Lemma percent_decode_literal c u :
  Spec.escape_at (String c u) = false →
  percent_decode (String c u) = String c (percent_decode u).
Proof.
  destruct u as [|a [|b r]]; try done. simpl.
  rewrite !is_hex_value.
  destruct (bool_decide (c = "%"%char)); [|done].
  destruct (hex_value a); [|done]. by destruct (hex_value b).
Qed.

(** Whether an escape starts at [c] is settled by the two characters
    after it; it is not changed by what follows a text, when that does
    not go on with a hexadecimal digit, nor by the way the browser
    writes the text. *)
Lemma escape_at_app c a b :
  Spec.escape_at (String c a) = false →
  (∀ x u, b = String x u → Spec.is_hex x = false) →
  Spec.escape_at (String c (a +:+ b)) = false.
Proof.
  intros Ha Hb. destruct a as [|x [|y r]].
  - rewrite app_empty_l. destruct b as [|z [|w b]]; [done|done|].
    simpl. rewrite (Hb z _ eq_refl). by rewrite andb_false_r.
  - change (String x "" +:+ b) with (String x b).
    destruct b as [|z b]; [done|]. apply escape_at_stop. eauto.
  - exact Ha.
Qed.

Lemma escape_at_encode c s t :
  Spec.escape_at (String c s) = false →
  (∀ x u, t = String x u → Spec.is_hex x = false) →
  Spec.escape_at (String c (encode_query s +:+ t)) = false.
Proof.
  intros Hs Ht. destruct s as [|x s].
  { by apply (escape_at_app c ""). }
  simpl encode_query. destruct (in_query_set x) eqn:Hx.
  { destruct (percent_encode_head x Hx) as [r ->].
    rewrite !app_cons. apply escape_at_percent. }
  rewrite app_cons. destruct s as [|y s].
  { rewrite app_empty_l. destruct t as [|z t]; [done|].
    apply escape_at_stop. eauto. }
  simpl encode_query. destruct (in_query_set y) eqn:Hy.
  - destruct (percent_encode_head y Hy) as [r ->].
    rewrite !app_cons. by apply escape_at_stop.
  - exact Hs.
Qed.

(** Decoding a text as the browser writes it gives its bytes. *)
Lemma percent_decode_encode_query s t :
  Spec.no_escape s = true →
  (∀ x u, t = String x u → Spec.is_hex x = false) →
  percent_decode (encode_query s +:+ t) = utf8_encode s +:+ percent_decode t.
Proof.
  intros Hs Ht. induction s as [|c s IH]; [done|].
  apply andb_prop in Hs as [Hc Hs]. apply negb_true_iff in Hc.
  simpl encode_query. simpl utf8_encode. destruct (in_query_set c) eqn:Hset.
  - by rewrite !app_assoc_s, percent_decode_encode, IH.
  - rewrite app_cons, percent_decode_literal by (by apply escape_at_encode).
    rewrite IH by done. unfold utf8_char. by rewrite query_set_ascii.
Qed.

Lemma decode_encode_query s :
  Spec.no_escape s = true →
  utf8_decode (percent_decode (encode_query s)) = s.
Proof.
  intros Hs. rewrite <- (app_empty_r (encode_query s)).
  rewrite percent_decode_encode_query by done.
  simpl. by rewrite app_empty_r, utf8_round_trip.
Qed.

Lemma no_escape_app a b :
  Spec.no_escape a = true → Spec.no_escape b = true →
  (∀ x u, b = String x u → Spec.is_hex x = false) →
  Spec.no_escape (a +:+ b) = true.
Proof.
  intros Ha Hb Hstop. induction a as [|c a IH]; [done|].
  apply andb_prop in Ha as [Hc Ha]. apply negb_true_iff in Hc.
  rewrite app_cons. cbn [Spec.no_escape].
  rewrite (escape_at_app c a b Hc Hstop). simpl. by apply IH.
Qed.

Lemma no_escape_join names :
  Forall (λ n, Spec.no_escape n = true) names →
  Spec.no_escape (Js.join "," names) = true.
Proof.
  induction 1 as [|n names Hn Hall IH]; [done|].
  destruct names as [|n' names]; [done|].
  change (Js.join "," (n :: n' :: names))
    with (n +:+ String "," (Js.join "," (n' :: names))).
  apply no_escape_app.
  - exact Hn.
  - cbn [Spec.no_escape]. by rewrite IH, escape_at_other.
  - by intros x u [= <- _].
Qed.

Lemma no_percent_no_escape s :
  Spec.string_forall (λ c, negb (bool_decide (c = "%"%char))) s = true →
  Spec.no_escape s = true.
Proof.
  induction s as [|c s IH]; [done|]. intros [Hc Hs]%andb_prop.
  cbn [Spec.no_escape]. rewrite IH by done.
  apply negb_true_iff, bool_decide_eq_false in Hc.
  by rewrite escape_at_other.
Qed.

(** *** From the URL to the search string *)

Lemma strip_leading_head s :
  (∀ c r, s = String c r → (32 <? code c)%N = true) → strip_leading s = s.
Proof.
  destruct s as [|c s]; [done|]. intros Hc. simpl.
  specialize (Hc c s eq_refl). apply N.ltb_lt in Hc.
  by rewrite (proj2 (N.leb_gt _ _)).
Qed.

Lemma strip_ends s :
  (∀ c r, s = String c r → (32 <? code c)%N = true) →
  (∀ c r, String.rev s = String c r → (32 <? code c)%N = true) →
  strip s = s.
Proof.
  intros Hhead Hlast. unfold strip.
  rewrite (strip_leading_head s Hhead), strip_leading_head by done.
  apply rev_involutive.
Qed.

Lemma ends_visibly_app a b : Spec.ends_visibly b → Spec.ends_visibly (a +:+ b).
Proof.
  unfold Spec.ends_visibly. rewrite rev_app_distr.
  by destruct (String.rev b).
Qed.

Lemma ends_visibly_last s c r :
  Spec.ends_visibly s → String.rev s = String c r → (32 <? code c)%N = true.
Proof.
  unfold Spec.ends_visibly. intros Hs Heq. rewrite Heq in Hs.
  by apply N.ltb_lt.
Qed.

Lemma remove_tab_newline_none s :
  Spec.string_forall
    (λ c, negb (bool_decide (c ∈ ["#"; "009"; "010"; "013"]%char))) s = true →
  remove_tab_newline s = s.
Proof.
  induction s as [|c s IH]; [done|]. simpl. intros [Hc Hs]%andb_prop.
  rewrite IH by done.
  apply negb_true_iff, bool_decide_eq_false in Hc.
  rewrite !bool_decide_eq_false_2; [done|..]; intros ->; apply Hc.
  - do 3 right. by left.
  - do 2 right. by left.
  - right. by left.
Qed.

Lemma kept_not_hash c :
  negb (bool_decide (c ∈ ["#"; "009"; "010"; "013"]%char)) = true →
  negb (bool_decide (c = "#"%char)) = true.
Proof. revert c. all_chars. Qed.

(** Stripping the front of a URL takes away from the path only. *)
Lemma strip_leading_path p rest :
  (∀ c r, rest = String c r → (32 <? code c)%N = true) →
  ∃ p', strip_leading (p +:+ rest) = p' +:+ rest ∧
        ∀ f, Spec.string_forall f p = true → Spec.string_forall f p' = true.
Proof.
  intros Hrest. induction p as [|c p (p' & IH & Hp')].
  - exists "". split; [|done]. rewrite !app_empty_l.
    by apply strip_leading_head.
  - rewrite app_cons. simpl. destruct (code c <=? 32)%N.
    + exists p'. split; [done|]. intros f [_ Hf]%andb_prop. by apply Hp'.
    + exists (String c p). by rewrite app_cons.
Qed.

Lemma remove_tab_newline_app a b :
  remove_tab_newline (a +:+ b) = remove_tab_newline a +:+ remove_tab_newline b.
Proof.
  induction a as [|c a IH]; [by rewrite !app_empty_l|].
  rewrite app_cons. simpl. rewrite IH.
  by destruct (bool_decide (c = "009"%char) || bool_decide (c = "010"%char)
               || bool_decide (c = "013"%char)).
Qed.

Lemma string_forall_remove f s :
  Spec.string_forall f s = true →
  Spec.string_forall f (remove_tab_newline s) = true.
Proof.
  induction s as [|c s IH]; [done|]. simpl. intros [Hc Hs]%andb_prop.
  destruct (bool_decide (c = "009"%char) || bool_decide (c = "010"%char)
            || bool_decide (c = "013"%char)); [by apply IH|].
  simpl. by rewrite Hc, IH.
Qed.

(** The search string the browser reports for the URL written. *)
Lemma location_search_query pathname query :
  Spec.url_pathname pathname →
  query ≠ "" →
  Spec.string_forall
    (λ c, negb (bool_decide (c ∈ ["#"; "009"; "010"; "013"]%char))) query = true →
  Spec.ends_visibly query →
  location_search (pathname +:+ "?" +:+ query) = "?" +:+ encode_query query.
Proof.
  intros Hp Hne Hq Hend. unfold location_search.
  destruct (strip_leading_path pathname ("?" +:+ query)) as (p' & Hstrip & Hp').
  { intros c r Heq. by injection Heq as <- _. }
  assert (Hs : strip (pathname +:+ "?" +:+ query) = p' +:+ "?" +:+ query).
  { unfold strip. rewrite Hstrip. rewrite strip_leading_head.
    - apply rev_involutive.
    - intros c r. apply ends_visibly_last.
      by apply ends_visibly_app, (ends_visibly_app "?"). }
  rewrite Hs, remove_tab_newline_app.
  rewrite (remove_tab_newline_none ("?" +:+ query))
    by (by rewrite string_forall_app, Hq).
  specialize (Hp' _ Hp). apply (string_forall_remove _ p') in Hp'.
  set (path := remove_tab_newline p') in *.
  rewrite cut_absent.
  2:{ rewrite !string_forall_app.
      rewrite (string_forall_impl _ _ _
                 (path_char_not "#"%char ltac:(by left)) Hp').
      rewrite (string_forall_impl _ _ _ kept_not_hash Hq). done. }
  change (path +:+ "?" +:+ query) with (path +:+ String "?" query).
  rewrite cut_app.
  2:{ apply (string_forall_impl _ _ _
               (path_char_not "?"%char ltac:(right; by left)) Hp'). }
  by rewrite bool_decide_eq_false_2.
Qed.

(** *** From the search string to the parameters *)

Lemma encode_query_join_amp parts :
  encode_query (Js.join "&" parts) = Js.join "&" (encode_query <$> parts).
Proof.
  induction parts as [|p parts IH]; [done|].
  destruct parts as [|p' parts]; [done|].
  change (Js.join "&" (p :: p' :: parts))
    with (p +:+ "&" +:+ Js.join "&" (p' :: parts)).
  by rewrite !encode_query_app, IH.
Qed.

(** The parameters the browser hands back for the parts that were written. *)
Lemma params_of_parts parts :
  parts ≠ [] →
  Forall (λ p, p ≠ "" ∧ Spec.string_forall Invariant.written_char p = true) parts →
  URLSearchParams ("?" +:+ Js.join "&" parts) = parse_pair <$> parts.
Proof.
  intros Hne Hall. unfold URLSearchParams.
  change ("?" +:+ Js.join "&" parts) with (String "?" (Js.join "&" parts)).
  cbv beta iota.
  rewrite utf8_encode_ascii.
  2:{ apply string_forall_join; [done|].
      eapply Forall_impl; [exact Hall|]. intros p [_ Hp]. revert Hp.
      apply string_forall_impl, written_char_ascii. }
  rewrite split_join; [|done|].
  2:{ eapply Forall_impl; [exact Hall|]. intros p [_ Hp]. revert Hp.
      apply string_forall_impl, written_char_not. right. by left. }
  f_equal. clear Hne. induction Hall as [|p parts [Hp _] _ IH]; [done|].
  simpl. rewrite bool_decide_eq_false_2 by done. simpl. by rewrite IH.
Qed.

Lemma url_char_written c :
  Spec.url_char c = true →
  in_query_set c || negb (bool_decide (c ∈ ["&"; "+"]%char)) = true.
Proof. revert c. all_chars. Qed.

Lemma url_char_kept c :
  Spec.url_char c = true →
  negb (bool_decide (c ∈ ["#"; "009"; "010"; "013"]%char)) = true.
Proof. revert c. all_chars. Qed.

(** One parameter, written and read back. *)
Lemma parse_written key value :
  key = "compare" ∨ key = "home" →
  Spec.url_text value →
  key +:+ "=" +:+ encode_query value ≠ "" ∧
  Spec.string_forall Invariant.written_char
    (key +:+ "=" +:+ encode_query value) = true ∧
  parse_pair (key +:+ "=" +:+ encode_query value) = (key, value).
Proof.
  intros Hkey [Hchars Hesc].
  assert (Hv : Spec.string_forall Invariant.written_char (encode_query value) = true).
  { apply encode_query_written. revert Hchars.
    apply string_forall_impl, url_char_written. }
  split; [|split].
  - by destruct Hkey as [-> | ->].
  - rewrite !string_forall_app, Hv. by destruct Hkey as [-> | ->].
  - unfold parse_pair.
    change (key +:+ "=" +:+ encode_query value)
      with (key +:+ String "=" (encode_query value)).
    rewrite cut_app by (by destruct Hkey as [-> | ->]).
    simpl default. unfold decode_component.
    rewrite (plus_to_space_id (encode_query value)).
    2:{ revert Hv. apply string_forall_impl, written_char_not.
        do 2 right. by left. }
    rewrite decode_encode_query by done.
    by destruct Hkey as [-> | ->].
Qed.

(** *** The catalog *)

Lemma find_by_name CITIES c :
  NoDup (name <$> CITIES) → c ∈ CITIES →
  List.find (λ d, bool_decide (name d = name c)) CITIES = Some c.
Proof.
  induction CITIES as [|d l IH]; [by intros _ ?%elem_of_nil|].
  rewrite fmap_cons, NoDup_cons, elem_of_cons. intros [Hd Hnd] Hc. simpl.
  case_bool_decide as Hname.
  - destruct Hc as [->|Hc]; [done|]. destruct Hd. rewrite Hname.
    by apply list_elem_of_fmap_2.
  - destruct Hc as [->|Hc]; [done|]. by apply IH.
Qed.

Lemma lookup_names_pinned CITIES pinned :
  NoDup (name <$> CITIES) → Forall (λ c, c ∈ CITIES) pinned →
  lookup_names CITIES (name <$> pinned) = pinned.
Proof.
  intros Hnd Hall. unfold lookup_names.
  induction Hall as [|c pinned Hc _ IH]; [done|].
  csimpl. rewrite find_by_name by done. simpl. by rewrite IH.
Qed.

Lemma lookup_names_sound CITIES names c :
  c ∈ lookup_names CITIES names → c ∈ CITIES ∧ name c ∈ names.
Proof.
  unfold lookup_names. rewrite list_elem_of_omap.
  intros (n & Hn & Hfind). apply find_some in Hfind as [Hin Hname].
  apply bool_decide_eq_true in Hname. subst.
  split; [by apply list_elem_of_In|done].
Qed.

Lemma lookup_names_unknown CITIES n names :
  n ∉ (name <$> CITIES) →
  lookup_names CITIES (n :: names) = lookup_names CITIES names.
Proof.
  intros Hn. unfold lookup_names. csimpl.
  destruct (List.find _ CITIES) as [c|] eqn:Hfind; [|done].
  apply find_some in Hfind as [Hin Hname].
  apply bool_decide_eq_true in Hname. destruct Hn. subst.
  apply list_elem_of_fmap_2. by apply list_elem_of_In.
Qed.

Lemma trim_names names :
  Forall Spec.url_name names → Js.trim <$> names = names.
Proof.
  induction 1 as [|n names (_ & Hn & _) _ IH]; [done|].
  csimpl. by rewrite Hn, IH.
Qed.

Lemma join_nonempty sep p parts : p ≠ "" → Js.join sep (p :: parts) ≠ "".
Proof.
  intros Hp. destruct parts as [|p' parts]; [done|].
  change (Js.join sep (p :: p' :: parts))
    with (p +:+ sep +:+ Js.join sep (p' :: parts)).
  destruct p; [done|]. by rewrite app_cons.
Qed.

(** *** Writing the URL and opening it again *)

Lemma zone_nonempty z : Spec.ends_visibly z → z ≠ "".
Proof. by intros Hz ->. Qed.

Lemma string_forall_encodeSpaces_all p s :
  p "%"%char = true → p "2"%char = true → p "0"%char = true →
  Spec.string_forall p s = true →
  Spec.string_forall p (encodeSpaces s) = true.
Proof.
  intros H1 H2 H3 Hs. apply string_forall_encodeSpaces; try done.
  revert Hs. apply string_forall_impl. intros c Hc. by rewrite Hc.
Qed.

(** The text of the [compare] parameter for names the URL carries. *)
Lemma compare_text names :
  Forall Spec.url_name names → Spec.url_text (Js.join "," names).
Proof.
  intros Hall. split.
  - apply string_forall_join; [done|].
    eapply Forall_impl; [exact Hall|]. by intros n (_ & _ & _ & ? & _).
  - apply no_escape_join.
    eapply Forall_impl; [exact Hall|]. by intros n (_ & _ & _ & _ & ?).
Qed.

Lemma home_query_kept home :
  Spec.url_text home →
  Spec.string_forall
    (λ c, negb (bool_decide (c ∈ ["#"; "009"; "010"; "013"]%char)))
    ("home=" +:+ home) = true.
Proof.
  intros [Hh _]. rewrite string_forall_app.
  by rewrite (string_forall_impl _ _ _ url_char_kept Hh).
Qed.

(** Writing the URL and opening it again gives back the pinned set and
    the home zone, for names and zones the URL carries. *)
Lemma reload_carried CITIES browserTz pathname st :
  Spec.url_pathname pathname →
  NoDup (name <$> CITIES) →
  Forall (λ c, c ∈ CITIES ∧ Spec.url_name (name c)) (Explorer.pinnedCities st) →
  (length (Explorer.pinnedCities st) ≤ 4)%nat →
  Spec.url_zone (Explorer.homeTz st) →
  Explorer.pinnedCities (reload CITIES browserTz pathname st)
    = Explorer.pinnedCities st ∧
  Explorer.homeTz (reload CITIES browserTz pathname st) = Explorer.homeTz st.
Proof.
  intros Hpath Hnd Hpinned Hlen [Hhome Hend].
  destruct st as [home pinned hl hid]. simpl in *.
  assert (Hne : home ≠ "") by (by apply zone_nonempty).
  assert (Hnames : Forall Spec.url_name (name <$> pinned)).
  { apply Forall_fmap. eapply Forall_impl; [exact Hpinned|]. by intros c [_ ?]. }
  assert (Hin : Forall (λ c, c ∈ CITIES) pinned).
  { eapply Forall_impl; [exact Hpinned|]. by intros c [? _]. }
  destruct (parse_written "home" home (or_intror eq_refl) Hhome)
    as (Hh1 & Hh2 & Hh3).
  unfold reload, syncUrl, mount. cbv zeta.
  simpl Explorer.pinnedCities. simpl Explorer.homeTz.
  destruct pinned as [|c pinned].
  - rewrite bool_decide_eq_false_2 by (simpl; lia). rewrite app_nil_l.
    change (Js.join "&" ["home=" +:+ home]) with ("home=" +:+ home).
    rewrite location_search_query;
      [|done|done|by apply home_query_kept|by apply ends_visibly_app].
    rewrite encode_query_app.
    change (encode_query "home=" +:+ encode_query home)
      with (Js.join "&" ["home" +:+ "=" +:+ encode_query home]).
    rewrite params_of_parts by (done || by repeat constructor).
    rewrite list_fmap_singleton, Hh3.
    change (get "compare" [("home", home)]) with (@None string).
    change (get "home" [("home", home)]) with (Some home).
    unfold truthy. rewrite bool_decide_eq_false_2 by done. done.
  - rewrite bool_decide_eq_true_2 by (simpl; lia).
    set (J := Js.join "," (name <$> c :: pinned)).
    assert (HV : Js.join "," ((λ c, encodeSpaces (name c)) <$> c :: pinned)
                 = encodeSpaces J).
    { unfold J. rewrite encodeSpaces_join. by rewrite <- list_fmap_compose. }
    rewrite HV.
    assert (HJ : Spec.url_text J) by (by apply compare_text).
    destruct (parse_written "compare" J (or_introl eq_refl) HJ)
      as (Hc1 & Hc2 & Hc3).
    change (["compare=" +:+ encodeSpaces J] ++ ["home=" +:+ home])
      with ["compare=" +:+ encodeSpaces J; "home=" +:+ home].
    change (Js.join "&" ["compare=" +:+ encodeSpaces J; "home=" +:+ home])
      with (("compare=" +:+ encodeSpaces J) +:+ "&" +:+ ("home=" +:+ home)).
    rewrite location_search_query; [|done| | |].
    2:{ by rewrite app_assoc_s. }
    2:{ rewrite !string_forall_app.
        rewrite string_forall_encodeSpaces_all; try done.
        - by rewrite (string_forall_impl _ _ _ url_char_kept (proj1 Hhome)).
        - destruct HJ as [HJ _]. revert HJ.
          apply string_forall_impl, url_char_kept. }
    2:{ by apply ends_visibly_app, ends_visibly_app, ends_visibly_app. }
    rewrite !encode_query_app, encode_query_encodeSpaces, !app_assoc_s.
    change (encode_query "compare=" +:+ encode_query J +:+ encode_query "&"
            +:+ encode_query "home=" +:+ encode_query home)
      with (Js.join "&" ["compare" +:+ "=" +:+ encode_query J;
                         "home" +:+ "=" +:+ encode_query home]).
    rewrite params_of_parts by (done || by repeat constructor).
    rewrite !fmap_cons, fmap_nil, Hc3, Hh3.
    change (get "compare" [("compare", J); ("home", home)]) with (Some J).
    change (get "home" [("compare", J); ("home", home)]) with (Some home).
    assert (Hjoin : J ≠ "").
    { unfold J. rewrite fmap_cons. apply join_nonempty.
      by apply Forall_cons in Hnames as [(? & _) _]. }
    unfold truthy. rewrite !bool_decide_eq_false_2 by done.
    simpl default. cbv beta iota. simpl negb. cbv iota.
    unfold J. rewrite split_join.
    2:{ done. }
    2:{ eapply Forall_impl; [exact Hnames|]. by intros n (_ & _ & ? & _). }
    rewrite trim_names, lookup_names_pinned by done.
    rewrite bool_decide_eq_true_2 by (simpl; lia).
    rewrite (bool_decide_eq_false_2 (home = "")) by done.
    by rewrite take_ge by done.
Qed.

(** A text in plain characters is one the URL carries. *)
Lemma plain_text s :
  Spec.string_forall Spec.url_plain s = true → Spec.url_text s.
Proof.
  intros Hs. split.
  - revert Hs. apply string_forall_impl, plain_url_char.
  - apply no_percent_no_escape. revert Hs.
    apply string_forall_impl, plain_not_percent.
Qed.

Lemma plain_zone z :
  z ≠ "" → Spec.string_forall Spec.url_plain z = true → Spec.url_zone z.
Proof.
  intros Hne Hz. split; [by apply plain_text|].
  unfold Spec.ends_visibly.
  destruct (String.rev z) as [|c r] eqn:Hrev.
  - apply Hne. by rewrite <- (rev_involutive z), Hrev.
  - rewrite <- string_forall_rev, Hrev in Hz. simpl in Hz.
    apply andb_prop in Hz as [Hc _]. by apply N.ltb_lt, plain_visible.
Qed.

Lemma reload_plain CITIES browserTz pathname st :
  Spec.string_forall Spec.url_plain pathname = true →
  NoDup (name <$> CITIES) →
  Forall (λ c, c ∈ CITIES ∧ Spec.url_name (name c)) (Explorer.pinnedCities st) →
  (length (Explorer.pinnedCities st) ≤ 4)%nat →
  Explorer.homeTz st ≠ "" →
  Spec.string_forall Spec.url_plain (Explorer.homeTz st) = true →
  Explorer.pinnedCities (reload CITIES browserTz pathname st)
    = Explorer.pinnedCities st ∧
  Explorer.homeTz (reload CITIES browserTz pathname st) = Explorer.homeTz st.
Proof.
  intros Hpath Hnd Hpinned Hlen Hne Hhome.
  apply reload_carried; try done.
  - revert Hpath. apply string_forall_impl, plain_path_char.
  - by apply plain_zone.
Qed.

End url_roundtrip.

(** The pinned set the mount effect reads from the URL has at most
    four entries, and holds a city twice when the URL names it twice. *)
Lemma mount_at_most_four CITIES browserTz search st :
  (length (Explorer.pinnedCities st) ≤ 4)%nat →
  (length (Explorer.pinnedCities (Url.mount CITIES browserTz search st)) ≤ 4)%nat.
Proof.
  intros Hlen. unfold Url.mount. cbv zeta. simpl Explorer.pinnedCities.
  destruct (Url.truthy _); [|done].
  case_bool_decide; [|done]. rewrite length_take. lia.
Qed.

Lemma mount_repeated_name :
  Explorer.pinnedCities
    (Url.mount Sample.CITIES (Js.Throw "no Intl")
       "?compare=Tokyo,Tokyo&home=Asia/Tokyo" Explorer.initial)
  = [Sample.Tokyo; Sample.Tokyo].
Proof. by vm_compute. Qed.

(** C6, as the code has it: the mount effect takes the pinned set from
    the [compare] parameter without the check by name that
    [handleCityPin] makes before it adds a city.  Opened with
    [?compare=Tokyo,Tokyo], the page starts with Tokyo pinned twice,
    and the pin actions that follow keep a repeated name: pinning
    London leaves Tokyo twice, and unpinning Tokyo leaves Tokyo pinned.
    The search-select path on a pinned Tokyo adds nothing. *)
Theorem pinned_set_repeats_name_from_url :
  let st :=
    Url.mount Sample.CITIES (Js.Throw "no Intl") "?compare=Tokyo,Tokyo"
      Explorer.initial in
  Explorer.pinnedCities st = [Sample.Tokyo; Sample.Tokyo] ∧
  ¬ Spec.pin_invariant (Explorer.pinnedCities st) ∧
  Explorer.pinnedCities (Explorer.run st [Explorer.Toggle Sample.London])
  = [Sample.Tokyo; Sample.Tokyo; Sample.London] ∧
  ¬ Spec.pin_invariant
      (Explorer.pinnedCities (Explorer.run st [Explorer.Toggle Sample.London])) ∧
  Explorer.pinnedCities (Explorer.run st [Explorer.Toggle Sample.Tokyo])
  = [Sample.Tokyo] ∧
  Explorer.pinnedCities
    (Explorer.run Explorer.initial
       [Explorer.Toggle Sample.Tokyo; Explorer.Select Sample.Tokyo])
  = [Sample.Tokyo].
Proof.
  intros st.
  assert (Hst : Explorer.pinnedCities st = [Sample.Tokyo; Sample.Tokyo])
    by (by vm_compute).
  assert (Hrun : Explorer.pinnedCities
                   (Explorer.run st [Explorer.Toggle Sample.London])
                 = [Sample.Tokyo; Sample.Tokyo; Sample.London])
    by (by vm_compute).
  split; [exact Hst|]. split; [|split; [exact Hrun|split; [|split]]].
  - rewrite Hst. intros [_ Hnd]. apply NoDup_cons in Hnd as [Hnot _].
    apply Hnot. by left.
  - rewrite Hrun. intros [_ Hnd]. apply NoDup_cons in Hnd as [Hnot _].
    apply Hnot. by left.
  - by vm_compute.
  - by vm_compute.
Qed.

(** C9, as stated, fails.  A name with a comma is cut in two when the
    [compare] list is split, and neither half is in the catalog; the
    zone [Etc/GMT+5] is written to the URL as it is, and the [+] is
    read back as a space.  In the same way a [#] ends the home zone, an
    [&] ends it, a percent escape in it is read as one character, a
    space at its end is cut off, a tab is taken out, and the empty zone
    is replaced by the default; a name with a space in front is read
    as the name without it, and the empty name and the names with [&],
    [#], [+] or a percent escape are not found; and behind a pathname
    with a [?] the parameters are not found. *)
Lemma url_round_trip_losses :
  (let st := Explorer.mkState "Europe/London" [Sample.Washington] [] ∅ in
   Url.syncUrl "/" st = "/?compare=Washington,%20D.C.&home=Europe/London" ∧
   Explorer.pinnedCities
     (Url.reload (Sample.Washington :: Sample.CITIES) (Js.Throw "no Intl") "/" st)
   = [] ∧
   [] ≠ Explorer.pinnedCities st) ∧
  (let st := Explorer.mkState "Etc/GMT+5" [Sample.Tokyo] [] ∅ in
   Url.syncUrl "/" st = "/?compare=Tokyo&home=Etc/GMT+5" ∧
   Explorer.homeTz (Url.reload Sample.CITIES (Js.Throw "no Intl") "/" st)
   = "Etc/GMT 5" ∧
   "Etc/GMT 5" ≠ Explorer.homeTz st) ∧
  (let home_after (home : string) :=
     Explorer.homeTz
       (Url.reload Sample.CITIES (Js.Throw "no Intl") "/"
          (Explorer.mkState home [] [] ∅)) in
   home_after "a#b" = "a" ∧ home_after "a&b" = "a" ∧
   home_after "%41" = "A" ∧ home_after "UTC " = "UTC" ∧
   home_after (String "a" (String "009" "b")) = "ab" ∧
   home_after "" = Explorer.homeTz Explorer.initial ∧
   Explorer.homeTz Explorer.initial ≠ "") ∧
  (let names_after (n : string) :=
     let c := mkCity n "Japan" "Asia/Tokyo" (357 # 10) (1397 # 10) in
     name <$> Explorer.pinnedCities
       (Url.reload (c :: Sample.CITIES) (Js.Throw "no Intl") "/"
          (Explorer.mkState "UTC" [c] [] ∅)) in
   names_after " Tokyo" = ["Tokyo"] ∧ names_after "" = [] ∧
   names_after "A&B" = [] ∧ names_after "A#B" = [] ∧
   names_after "A+B" = [] ∧ names_after "A%2CB" = []) ∧
  (let st := Explorer.mkState "Asia/Tokyo" [] [] ∅ in
   Explorer.homeTz (Url.reload Sample.CITIES (Js.Throw "no Intl") "/a?b" st)
   = Explorer.homeTz Explorer.initial ∧
   Explorer.homeTz Explorer.initial ≠ Explorer.homeTz st).
Proof.
  split; [|split; [|split; [|split]]].
  - split; [by vm_compute|]. split; [by vm_compute|]. discriminate.
  - split; [by vm_compute|]. split; [by vm_compute|]. discriminate.
  - by vm_compute.
  - by vm_compute.
  - split; [by vm_compute|]. by vm_compute.
Qed.

(** C9, amended: for a catalog with unique names, a pinned set of at
    most four catalog cities and a home zone, the URL written for the
    state gives back the same pinned set and home zone when it is
    opened, provided the URL carries the names and the zone: none of
    them has [#], [&], [+], a tab or a line break, or [%] followed by
    two hexadecimal digits; a name is not empty, has no comma and no
    white space at either end; the zone does not end in a space or a
    control character, which leaves the empty zone out; and the
    pathname has no [?] and no [#].  All other characters are carried, the
    letters beyond ASCII and the quotes among them.  Pins Tokyo, London
    with home America/New_York are written as [compare=Tokyo,London]
    and [home=America/New_York]; on opening, the pinned set is the
    first four catalog cities named in [compare], and a name the
    catalog does not have adds nothing. *)
Theorem url_round_trip :
  (∀ CITIES browserTz pathname st,
     Spec.url_pathname pathname →
     NoDup (name <$> CITIES) →
     Forall (λ c, c ∈ CITIES ∧ Spec.url_name (name c)) (Explorer.pinnedCities st) →
     (length (Explorer.pinnedCities st) ≤ 4)%nat →
     Spec.url_zone (Explorer.homeTz st) →
     Explorer.pinnedCities (Url.reload CITIES browserTz pathname st)
       = Explorer.pinnedCities st ∧
     Explorer.homeTz (Url.reload CITIES browserTz pathname st)
       = Explorer.homeTz st) ∧
  Url.syncUrl "/"
    (Explorer.mkState "America/New_York" [Sample.Tokyo; Sample.London] [] ∅)
  = "/?compare=Tokyo,London&home=America/New_York" ∧
  (∀ CITIES browserTz search st cp,
     Url.get "compare" (Url.URLSearchParams search) = Some cp →
     cp ≠ "" →
     let found := Url.lookup_names CITIES (Js.trim <$> Js.split "," cp) in
     found ≠ [] →
     Explorer.pinnedCities (Url.mount CITIES browserTz search st) = take 4 found ∧
     (∀ c, c ∈ found → c ∈ CITIES)) ∧
  (∀ CITIES n names,
     n ∉ (name <$> CITIES) →
     Url.lookup_names CITIES (n :: names) = Url.lookup_names CITIES names).
Proof.
  split; [exact reload_carried|]. split; [by vm_compute|].
  split; [|exact lookup_names_unknown].
  intros CITIES browserTz search st cp Hget Hcp found Hfound.
  split; [|intros c Hc; by apply lookup_names_sound in Hc as [? _]].
  unfold Url.mount. cbv zeta. rewrite Hget. simpl Explorer.pinnedCities.
  rewrite (bool_decide_eq_false_2 (cp = "")) by done.
  fold found. simpl negb. cbv iota.
  rewrite bool_decide_eq_true_2; [done|].
  destruct found; [done|simpl; lia].
Qed.

Lemma url_round_trip_witness :
  let catalog := Sample.St_Johns :: Sample.Sao_Paulo :: Sample.CITIES in
  let st :=
    Explorer.mkState "a=b?c<d>"
      [Sample.Sao_Paulo; Sample.St_Johns; Sample.New_York] [] ∅ in
  Url.location_search (Url.syncUrl "/" st)
  = "?compare=S%C3%A3o%20Paulo,St.%20John%27s,New%20York&home=a=b?c%3Cd%3E" ∧
  Explorer.pinnedCities (Url.reload catalog (Js.Throw "no Intl") "/" st)
  = Explorer.pinnedCities st ∧
  Explorer.homeTz (Url.reload catalog (Js.Throw "no Intl") "/" st)
  = Explorer.homeTz st ∧
  Explorer.pinnedCities
    (Url.mount Sample.CITIES (Js.Throw "no Intl")
       "?compare=Tokyo,Gotham,London,Paris,Madrid,Sydney&home=Asia/Tokyo"
       Explorer.initial)
  = [Sample.Tokyo; Sample.London; Sample.Paris; Sample.Madrid].
Proof.
  intros catalog st. split; [by vm_compute|].
  assert (Hname : ∀ c, c ∈ Explorer.pinnedCities st →
                       c ∈ catalog ∧ Spec.url_name (name c)).
  { intros c Hc. simpl in Hc.
    repeat (apply elem_of_cons in Hc as [->|Hc];
            [split; [apply list_elem_of_In; vm_compute; tauto|by vm_compute]|]).
    by apply elem_of_nil in Hc. }
  destruct (proj1 url_round_trip catalog (Js.Throw "no Intl") "/" st)
    as [Hpinned Hhome].
  - by vm_compute.
  - apply (bool_decide_unpack _). by vm_compute.
  - by apply Forall_forall.
  - simpl; lia.
  - by vm_compute.
  - split; [exact Hpinned|]. split; [exact Hhome|]. by vm_compute.
Defined.

(** ** [formatOffset] and the offset query *)

Section format_props.
Import OffsetQuery.

Lemma round_trip_table : forallb Invariant.parses_back (seqZ (-5999) 11999) = true.
Proof. by vm_compute. Qed.

(** X1: the offset label [formatOffset] writes for a zone, typed into
    the search box, is read as the offset it was written for, for every
    offset of up to 99 hours and 59 minutes either way. *)
Theorem formatOffset_parses_back m :
  -5999 ≤ m ≤ 5999 →
  parseOffsetQuery (Js.toLowerCase (Format.formatOffset (Js.Num m))) = Some m.
Proof.
  intros Hm. pose proof round_trip_table as Ht.
  rewrite forallb_forall in Ht. specialize (Ht m).
  apply (proj1 (bool_decide_eq_true _)), Ht, list_elem_of_In, elem_of_seqZ. lia.
Qed.

Lemma formatOffset_parses_back_witness :
  parseOffsetQuery (Js.toLowerCase (Format.formatOffset (Js.Num (-330)))) = Some (-330).
Proof. apply formatOffset_parses_back. lia. Defined.

Lemma digit_value_range c : Js.is_digit c = true → 0 ≤ Js.digit_value c ≤ 9.
Proof. destruct c as [[] [] [] [] [] [] [] []]; try done; by vm_compute. Qed.

Lemma hour_field_range hh h : Spec.hour_field hh h → 0 ≤ h ≤ 99.
Proof.
  intros (Hd & Hlen & ->).
  destruct hh as [|a [|b [|? ?]]]; simpl in Hlen; try lia; simpl in Hd.
  - apply andb_prop in Hd as [Ha _]. apply digit_value_range in Ha.
    unfold Js.parseInt. simpl. lia.
  - apply andb_prop in Hd as [Ha [Hb _]%andb_prop].
    apply digit_value_range in Ha, Hb. unfold Js.parseInt. simpl. lia.
Qed.

Lemma minute_field_range mm m : Spec.minute_field mm m → 0 ≤ m ≤ 99.
Proof.
  intros [[_ ->]|(dd & _ & Hd & Hlen & ->)]; [lia|].
  destruct dd as [|a [|b [|? ?]]]; simpl in Hlen; try lia; simpl in Hd.
  apply andb_prop in Hd as [Ha [Hb _]%andb_prop].
  apply digit_value_range in Ha, Hb. unfold Js.parseInt. simpl. lia.
Qed.

(** X2: an offset query never yields more than 99 hours and 99
    minutes either way, that is 6039 minutes. *)
Theorem parseOffsetQuery_range q v :
  parseOffsetQuery q = Some v → -6039 ≤ v ≤ 6039.
Proof.
  intros [[_ ->]|(sgn & h & m & Hq & ->)]%parseOffsetQuery_sound; [lia|].
  destruct Hq as (lit & ws1 & sg & ws2 & hh & mm & _ & _ & _ & Hsg & _ & Hh & Hm).
  apply hours_written_field, hour_field_range in Hh.
  apply minutes_written_field, minute_field_range in Hm.
  destruct Hsg as [[_ ->]|[[_ ->]|[_ ->]]]; lia.
Qed.

Lemma parseOffsetQuery_range_witness :
  parseOffsetQuery "utc-99:99" = Some (-6039) ∧ -6039 ≤ -6039 ≤ 6039.
Proof.
  split; [reflexivity|]. by apply (parseOffsetQuery_range "utc-99:99").
Defined.

End format_props.

Section offset_symmetry.
Import OffsetQuery.

Lemma bare_literal_longer lit c r :
  Spec.literal_field lit → bare_literal (lit +:+ String c r) = false.
Proof. by intros [-> | ->]. Qed.

Lemma literal_app lit r : Spec.literal_field lit → literal (lit +:+ r) = Some r.
Proof. by intros [-> | ->]. Qed.

Lemma spaces_sign_plus ws r :
  Spec.string_forall Js.is_space ws = true →
  sign (spaces (ws +:+ String "+" r)) = (Some "+"%char, r).
Proof. intros Hws. unfold spaces. by rewrite trimStart_spaces. Qed.

Lemma spaces_sign_minus ws r :
  Spec.string_forall Js.is_space ws = true →
  sign (spaces (ws +:+ String "-" r)) = (Some "-"%char, r).
Proof. intros Hws. unfold spaces. by rewrite trimStart_spaces. Qed.

Lemma app_nonempty ws c r : ∃ c' r', ws +:+ String c r = String c' r'.
Proof. destruct ws as [|c' ws]; [by exists c, r|]. by exists c', (ws +:+ String c r). Qed.

(** X3: the two literals are interchangeable: a query gives the same
    offset with [utc] as with [gmt]. *)
Theorem parseOffsetQuery_utc_gmt r :
  parseOffsetQuery ("utc" +:+ r) = parseOffsetQuery ("gmt" +:+ r).
Proof.
  unfold parseOffsetQuery, regex_match.
  rewrite !literal_app by (by left + by right).
  destruct r as [|c r]; [done|].
  by rewrite !bare_literal_longer by (by left + by right).
Qed.

(** X4: a minus sign negates what the plus sign gives, whatever
    follows; and the plus sign can be left out before a character
    that is neither white space nor a sign. *)
Theorem parseOffsetQuery_sign lit ws r :
  Spec.literal_field lit →
  Spec.string_forall Js.is_space ws = true →
  parseOffsetQuery (lit +:+ ws +:+ String "-" r)
    = Z.opp <$> parseOffsetQuery (lit +:+ ws +:+ String "+" r) ∧
  (∀ c r', r = String c r' →
     Js.is_space c = false → c ≠ "+"%char → c ≠ "-"%char →
     parseOffsetQuery (lit +:+ ws +:+ String "+" r)
     = parseOffsetQuery (lit +:+ ws +:+ r)).
Proof.
  intros Hlit Hws. split.
  - unfold parseOffsetQuery, regex_match. rewrite !literal_app by done.
    destruct (app_nonempty ws "-" r) as (c1 & r1 & H1).
    destruct (app_nonempty ws "+" r) as (c2 & r2 & H2).
    rewrite H1, H2, !bare_literal_longer by done. rewrite <- H1, <- H2.
    simpl. rewrite spaces_sign_plus, spaces_sign_minus by done.
    destruct (hours (spaces r)) as [[hh r4]|]; [|done]. simpl.
    destruct (minutes r4) as [mm|]; [|done]. simpl. f_equal. lia.
  - intros c r' -> Hc Hp Hm.
    unfold parseOffsetQuery, regex_match. rewrite !literal_app by done.
    destruct (app_nonempty ws "+" (String c r')) as (c1 & r1 & H1).
    destruct (app_nonempty ws c r') as (c2 & r2 & H2).
    rewrite H1, H2, !bare_literal_longer by done. rewrite <- H1, <- H2.
    simpl. rewrite spaces_sign_plus by done.
    unfold spaces at 3. rewrite trimStart_spaces by done.
    assert (Hsp : Js.trimStart (String c r') = String c r') by (simpl; by rewrite Hc).
    rewrite Hsp.
    assert (Hsg : sign (String c r') = (None, String c r')).
    { unfold sign. destruct c as [[] [] [] [] [] [] [] []]; done. }
    rewrite Hsg. unfold spaces. rewrite Hsp.
    destruct (hours (String c r')) as [[hh r4]|]; [|done]. simpl.
    by destruct (minutes r4) as [mm|].
Qed.

Lemma parseOffsetQuery_sign_witness :
  parseOffsetQuery ("gmt" +:+ " " +:+ String "-" " 5:30")
    = Z.opp <$> parseOffsetQuery ("gmt" +:+ " " +:+ String "+" " 5:30")
  ∧ parseOffsetQuery ("gmt" +:+ " " +:+ String "+" "9")
    = parseOffsetQuery ("gmt" +:+ " " +:+ "9").
Proof.
  split.
  - apply (parseOffsetQuery_sign "gmt" " " " 5:30"); [by right|reflexivity].
  - apply (proj2 (parseOffsetQuery_sign "gmt" " " "9" (or_intror eq_refl) eq_refl)
             "9"%char ""); done.
Defined.

End offset_symmetry.

(** ** More on the search *)

Section grouping_more.
Import Search.

(** X5: the groups [groupByCountry] makes are well formed: no two
    headers are the same country, no group is empty, every city of a
    group has the country of its header, and the cities of a group
    keep the order of the list. *)
Theorem groupByCountry_wellformed l :
  NoDup (group_country <$> groupByCountry l) ∧
  Forall (λ g, cities g ≠ [] ∧
               Forall (λ c, country c = group_country g) (cities g) ∧
               cities g `sublist_of` l)
    (groupByCountry l).
Proof.
  rewrite groupByCountry_partition. unfold Spec.partition_by_country. split.
  - assert (Hkeys : ∀ (g : string → list City) (ks : list string),
              group_country <$> ((λ '(k, v), mkGroup k v) <$> ((λ k, (k, g k)) <$> ks))
              = ks).
    { intros g ks. induction ks as [|k ks IH]; [done|]. csimpl. by rewrite IH. }
    rewrite Hkeys. apply first_seen_NoDup.
  - rewrite <- list_fmap_compose.
    apply Forall_fmap, Forall_forall. intros k Hk. simpl.
    apply first_seen_elem, list_elem_of_fmap in Hk as (c & -> & Hc).
    split; [|split].
    + intros Hnil.
      assert (Hin : c ∈ filter (λ c0, country c0 = country c) l)
        by (by apply list_elem_of_filter).
      rewrite Hnil in Hin. by apply elem_of_nil in Hin.
    + apply Forall_forall. by intros d [Hd _]%list_elem_of_filter.
    + apply sublist_filter.
Qed.

End grouping_more.

Section search_more.
Import Search.
Context (CITIES : list City) (zoneOffset : Z → string → Js.Res Js.jsnum).

Lemma trim_blank s : Spec.string_forall Js.is_space s = true → Js.trim s = "".
Proof.
  intros Hs. unfold Js.trim, Js.trimEnd.
  rewrite <- (app_empty_r s), trimStart_spaces by done. done.
Qed.

(** X6: a query of white space only gives no results, shown without
    groups, whatever the date library does. *)
Theorem blank_query now query :
  Spec.string_forall Js.is_space query = true →
  search CITIES zoneOffset now query = Js.Ok (mkSearchResult [] [] false).
Proof. intros Hq. apply empty_branch. by rewrite trim_blank. Qed.

Lemma take_short {A} (l : list A) n :
  (length (take n l) < n)%nat → take n l = l.
Proof. rewrite length_take. intros H. apply take_ge. lia. Qed.

Lemma free_text_elem query c :
  c ∈ Spec.free_text_results CITIES query →
  c ∈ CITIES ∧
  (Spec.contains_ci (name c) (Js.trim query) ∨
   Spec.contains_ci (country c) (Js.trim query)).
Proof.
  unfold Spec.free_text_results. intros Hc%subseteq_take.
  rewrite elem_of_app, !list_elem_of_filter in Hc. tauto.
Qed.

(** X7: every city a free-text query returns is a catalog city whose
    name or country contains the query; and when fewer than twelve
    come back, every such catalog city is among them. *)
Theorem free_text_sound_complete now query r :
  Js.toLowerCase (Js.trim query) ≠ "" →
  OffsetQuery.parseOffsetQuery (Js.toLowerCase (Js.trim query)) = None →
  search CITIES zoneOffset now query = Js.Ok r →
  (∀ c, c ∈ results r →
        c ∈ CITIES ∧
        (Spec.contains_ci (name c) (Js.trim query) ∨
         Spec.contains_ci (country c) (Js.trim query))) ∧
  ((length (results r) < 12)%nat →
   ∀ c, c ∈ CITIES →
        Spec.contains_ci (name c) (Js.trim query) ∨
        Spec.contains_ci (country c) (Js.trim query) →
        c ∈ results r).
Proof.
  intros Hne Hnone Hr.
  destruct (free_text_branch CITIES zoneOffset now query Hne Hnone)
    as (r' & Hr' & Hres & _).
  rewrite Hr in Hr'. injection Hr' as <-. rewrite Hres. split.
  - intros c. apply free_text_elem.
  - unfold Spec.free_text_results. intros Hlen c Hc Hmatch.
    rewrite take_short by done.
    rewrite elem_of_app, !list_elem_of_filter.
    destruct (decide (Spec.contains_ci (name c) (Js.trim query))); [tauto|].
    right. split; [|done]. split; [|tauto]. by intros [? _].
Qed.

Lemma NoDup_fmap_sublist {A B} (f : A → B) (l k : list A) :
  l `sublist_of` k → NoDup (f <$> k) → NoDup (f <$> l).
Proof.
  intros Hs Hnd. apply (sublist_NoDup _ (f <$> k)); [done|]. by apply fmap_sublist.
Qed.

Lemma free_text_NoDup query :
  NoDup (name <$> CITIES) →
  NoDup (name <$> Spec.free_text_results CITIES query).
Proof.
  intros Hnd. unfold Spec.free_text_results.
  eapply NoDup_fmap_sublist; [apply sublist_take|].
  rewrite fmap_app. apply NoDup_app. split; [|split].
  - eapply NoDup_fmap_sublist; [apply sublist_filter|done].
  - intros n (c & -> & Hc)%list_elem_of_fmap (d & Heq & Hd)%list_elem_of_fmap.
    apply list_elem_of_filter in Hd as [[Hnot _] Hd]. apply Hnot.
    assert (c = d) as <-; [|done].
    apply list_elem_of_filter in Hc as [_ Hc].
    apply list_elem_of_lookup in Hc as [i Hi], Hd as [j Hj].
    assert (i = j) as ->.
    { eapply NoDup_lookup; [exact Hnd|..]; rewrite list_lookup_fmap.
      - by rewrite Hi.
      - rewrite Hj. simpl. by rewrite Heq. }
    congruence.
  - eapply NoDup_fmap_sublist; [apply sublist_filter|done].
Qed.

(** X8: over a catalog without repeated names, no name comes twice in
    the results, nor in the sequence the arrow keys walk: the rows of
    the list have distinct keys, and every result is a catalog city. *)
Theorem results_distinct now query r :
  NoDup (name <$> CITIES) →
  search CITIES zoneOffset now query = Js.Ok r →
  NoDup (name <$> results r) ∧
  NoDup (name <$> flatResults r) ∧
  (∀ c, c ∈ flatResults r ↔ c ∈ results r) ∧
  (∀ c, c ∈ results r → c ∈ CITIES).
Proof.
  intros Hnd Hr.
  assert (Hres : NoDup (name <$> results r) ∧ ∀ c, c ∈ results r → c ∈ CITIES).
  { destruct (decide (Js.toLowerCase (Js.trim query) = "")) as [Hq|Hq].
    { rewrite empty_branch in Hr by done. injection Hr as <-. simpl.
      split; [constructor|by intros c ?%elem_of_nil]. }
    destruct (OffsetQuery.parseOffsetQuery (Js.toLowerCase (Js.trim query)))
      as [off|] eqn:Hoff.
    { rewrite (offset_branch CITIES zoneOffset now query off) in Hr by done.
      injection Hr as <-. simpl. unfold Spec.offset_results. split.
      - eapply NoDup_fmap_sublist; [|exact Hnd].
        etrans; [apply sublist_take|apply sublist_filter].
      - intros c Hc%subseteq_take. by apply list_elem_of_filter in Hc as [_ ?]. }
    destruct (free_text_branch CITIES zoneOffset now query Hq Hoff)
      as (r' & Hr' & Hres & _).
    rewrite Hr in Hr'. injection Hr' as <-. rewrite Hres. split.
    - by apply free_text_NoDup.
    - intros c Hc. by apply free_text_elem in Hc as [? _]. }
  destruct Hres as [Hnames Hin].
  assert (Hperm : flatResults r ≡ₚ results r).
  { destruct (search_returns CITIES zoneOffset now query) as (r' & Hr' & _ & Hg & _).
    rewrite Hr in Hr'. injection Hr' as <-.
    unfold flatResults. destruct (showGroups r); [|done].
    rewrite Hg, flatten_groupByCountry. apply by_country_Permutation. }
  split; [done|]. split; [by rewrite Hperm|]. split; [|done].
  intros c. by rewrite Hperm.
Qed.

End search_more.

Lemma blank_query_witness :
  Search.search Sample.CITIES Sample.zoneOffset 0 "   "
  = Js.Ok (Search.mkSearchResult [] [] false).
Proof. by apply blank_query. Defined.

Lemma free_text_sound_complete_witness :
  ∃ r, Search.search Sample.CITIES Sample.zoneOffset 0 " Ar " = Js.Ok r ∧
       Sample.Paris ∈ Search.results r ∧
       Sample.Marseille ∈ Search.results r ∧
       (∀ c, c ∈ Search.results r →
             c ∈ Sample.CITIES ∧
             (Spec.contains_ci (name c) "Ar" ∨ Spec.contains_ci (country c) "Ar")).
Proof.
  assert (∃ r, Search.search Sample.CITIES Sample.zoneOffset 0 " Ar " = Js.Ok r ∧
               (length (Search.results r) < 12)%nat) as (r & Hr & Hlen).
  { eexists. split; [reflexivity|]. vm_compute. lia. }
  destruct (free_text_sound_complete Sample.CITIES Sample.zoneOffset 0 " Ar " r)
    as [Hsound Hcomplete].
  - by vm_compute.
  - by vm_compute.
  - exact Hr.
  - exists r. split; [exact Hr|]. split; [|split; [|exact Hsound]].
    + apply (Hcomplete Hlen).
      * apply list_elem_of_In. vm_compute. tauto.
      * left. by vm_compute.
    + apply (Hcomplete Hlen).
      * apply list_elem_of_In. vm_compute. tauto.
      * left. by vm_compute.
Defined.

Lemma results_distinct_witness :
  ∃ r, Search.search Sample.CITIES Sample.zoneOffset 0 "utc+1" = Js.Ok r ∧
       NoDup (name <$> Search.flatResults r).
Proof.
  destruct (Search.search Sample.CITIES Sample.zoneOffset 0 "utc+1") as [r|e] eqn:Hr;
    [|by vm_compute in Hr].
  exists r. split; [done|].
  refine (proj1 (proj2 (results_distinct Sample.CITIES Sample.zoneOffset
                          0 "utc+1" r _ Hr))).
  apply (bool_decide_unpack _). by vm_compute.
Defined.

(** ** The search box as a component *)

Section searchbox.
Import SearchBox.
Context (CITIES : list City) (zoneOffset : Z → string → Js.Res Js.jsnum).

Local Abbreviation Inv := (Invariant.box_invariant CITIES zoneOffset).

Lemma search_total now text :
  ∃ r, Search.search CITIES zoneOffset now text = Js.Ok r.
Proof. destruct (search_returns CITIES zoneOffset now text) as (r & Hr & _). eauto. Qed.

Lemma setQuery_spec text now w :
  Inv w →
  ∃ w', setQuery CITIES zoneOffset text now w = Js.Ok w' ∧
        query (box w') = text ∧
        open (box w') = open (box w) ∧
        activeIndex (box w') = activeIndex (box w) ∧
        Explorer.pinnedCities (app w') = Explorer.pinnedCities (app w) ∧
        Explorer.hiddenCities (app w') = Explorer.hiddenCities (app w) ∧
        Explorer.homeTz (app w') = Explorer.homeTz (app w) ∧
        Explorer.highlightedCities (app w') = Search.results (memo (box w')) ∧
        (∃ now', Search.search CITIES zoneOffset now' text = Js.Ok (memo (box w'))).
Proof.
  intros (_ & Hhl & Hmemo). unfold setQuery. case_bool_decide as Hq.
  - exists w. subst. repeat split; try done.
  - destruct (search_total now text) as [r Hr]. rewrite Hr. simpl.
    eexists. split; [done|]. simpl. repeat split; eauto.
Qed.

Lemma empty_memo now r :
  Search.search CITIES zoneOffset now "" = Js.Ok r →
  r = Search.mkSearchResult [] [] false.
Proof. rewrite empty_branch by done. by intros [= <-]. Qed.

Lemma clearSearch_spec w :
  Inv w →
  ∃ w', clearSearch CITIES zoneOffset w = Js.Ok w' ∧ Inv w' ∧
        query (box w') = "" ∧ activeIndex (box w') = -1 ∧
        open (box w') = false ∧
        Explorer.highlightedCities (app w') = [] ∧
        Explorer.pinnedCities (app w') = Explorer.pinnedCities (app w) ∧
        Explorer.hiddenCities (app w') = Explorer.hiddenCities (app w) ∧
        Explorer.homeTz (app w') = Explorer.homeTz (app w).
Proof.
  intros Hinv. unfold clearSearch.
  destruct (setQuery_spec "" 0 w Hinv)
    as (w1 & -> & Hq & _ & _ & Hp & Hh & Hhome & _ & now' & Hm).
  simpl. eexists. split; [done|]. simpl.
  apply empty_memo in Hm as Hm'.
  split; [|by repeat split].
  split; [simpl; lia|]. split; [simpl; by rewrite Hm'|].
  exists now'. simpl. by rewrite Hq.
Qed.

Lemma handleSelect_spec city w :
  Inv w →
  Inv (handleSelect city w) ∧
  memo (box (handleSelect city w)) = memo (box w) ∧
  query (box (handleSelect city w)) = query (box w) ∧
  Explorer.homeTz (app (handleSelect city w)) = Explorer.homeTz (app w) ∧
  (Explorer.pinnedCities (app (handleSelect city w)) = Explorer.pinnedCities (app w)
   ∨ Explorer.pinnedCities (app (handleSelect city w))
     = Explorer.pinnedCities (app w) ++ [city]).
Proof.
  intros (Hi & Hhl & Hmemo). unfold handleSelect, Invariant.box_invariant.
  destruct (Explorer.some _ _) eqn:Hsome; simpl.
  - split; [|by auto]. split; [lia|]. split; [done|]. exact Hmemo.
  - split; [split; [lia|split; [done|exact Hmemo]]|]. do 3 (split; [done|]).
    assert (¬ Spec.is_pinned city (Explorer.pinnedCities (app w))) as Hn.
    { rewrite <- some_is_pinned. by rewrite Hsome. }
    rewrite (pin_when_absent _ _ Hn). case_decide; simpl; auto.
Qed.

Lemma step_spec w e :
  Inv w →
  ∃ w', step CITIES zoneOffset w e = Js.Ok w' ∧ Inv w' ∧
        Explorer.homeTz (app w') = Explorer.homeTz (app w) ∧
        (Explorer.pinnedCities (app w') = Explorer.pinnedCities (app w)
         ∨ ∃ c, Explorer.pinnedCities (app w')
                = Explorer.pinnedCities (app w) ++ [c] ∧
                (e = ClickResult c ∨
                 (e = KeyDown Enter ∧ c ∈ Search.flatResults (memo (box w))))).
Proof.
  intros Hinv. destruct e as [text now| |key|city| |]; simpl.
  - destruct (setQuery_spec text now w Hinv)
      as (w1 & -> & Hq & _ & _ & Hp & Hh & Hhome & Hhl & now' & Hm).
    simpl. eexists. split; [done|]. simpl. split; [|by auto].
    unfold Invariant.box_invariant. simpl.
    split; [lia|]. split; [done|]. exists now'. by rewrite Hq.
  - eexists. split; [done|]. split; [|by auto]. exact Hinv.
  - destruct key; simpl.
    + destruct (clearSearch_spec w Hinv) as (w' & -> & Hinv' & _ & _ & _ & _ & Hp & _ & Hhome).
      exists w'. auto.
    + eexists. split; [done|]. split; [|by auto].
      destruct Hinv as (Hi & Hhl & Hmemo). unfold Invariant.box_invariant. simpl.
      split; [lia|]. split; [done|exact Hmemo].
    + eexists. split; [done|]. split; [|by auto].
      destruct Hinv as (Hi & Hhl & Hmemo). unfold Invariant.box_invariant. simpl.
      split; [lia|]. split; [done|exact Hmemo].
    + case_bool_decide as Hi; [|eexists; split; [done|]; by auto].
      destruct (JsExtra.index _ _) as [city|] eqn:Hidx;
        [|eexists; split; [done|]; by auto].
      eexists. split; [done|].
      destruct (handleSelect_spec city w Hinv) as (Hinv' & _ & _ & Hhome & Hp).
      split; [done|]. split; [done|].
      destruct Hp as [Hp|Hp]; [by left|right]. exists city. split; [done|]. right.
      split; [done|]. unfold JsExtra.index in Hidx.
      rewrite bool_decide_eq_true_2 in Hidx by done.
      by eapply list_elem_of_lookup_2.
    + eexists. split; [done|]. by auto.
  - eexists. split; [done|].
    destruct (handleSelect_spec city w Hinv) as (Hinv' & _ & _ & Hhome & Hp).
    split; [done|]. split; [done|].
    destruct Hp as [Hp|Hp]; [by left|right]. exists city. auto.
  - destruct (clearSearch_spec w Hinv) as (w' & -> & Hinv' & _ & _ & _ & _ & Hp & _ & Hhome).
    exists w'. auto.
  - eexists. split; [done|]. split; [|by auto]. exact Hinv.
Qed.

Lemma initial_box_invariant : Inv initial.
Proof.
  split; [simpl; lia|]. split; [done|]. exists 0. by rewrite empty_branch.
Qed.


Lemma run_spec w es :
  Inv w →
  ∃ w', run CITIES zoneOffset w es = Js.Ok w' ∧ Inv w' ∧
        Explorer.homeTz (app w') = Explorer.homeTz (app w) ∧
        Explorer.pinnedCities (app w) `prefix_of` Explorer.pinnedCities (app w').
Proof.
  revert w. induction es as [|e es IH]; intros w Hinv; simpl.
  { exists w. split; [done|]. split; [done|]. split; [done|]. reflexivity. }
  destruct (step_spec w e Hinv) as (w1 & -> & Hinv1 & Hhome1 & Hp1). simpl.
  destruct (IH w1 Hinv1) as (w' & -> & Hinv' & Hhome' & Hp').
  exists w'. split; [done|]. split; [done|]. split; [congruence|].
  etrans; [|exact Hp'].
  destruct Hp1 as [->|(c & -> & _)]; [done|]. by apply prefix_app_r.
Qed.

(** X9: whatever is typed, clicked or keyed in the search box, the box
    keeps working, its active row stays a row of the list (or -1, or 0
    on an empty list), and the map highlights the results shown. *)
Theorem search_box_invariant es :
  ∃ w, run CITIES zoneOffset initial es = Js.Ok w ∧
       Invariant.box_invariant CITIES zoneOffset w.
Proof.
  destruct (run_spec initial es initial_box_invariant) as (w & Hr & Hinv & _).
  eauto.
Qed.

(** X10: the search box never unpins and never changes the home zone: the
    pinned set before any run of its events is a prefix of the one
    after. *)
Theorem search_box_only_appends es w :
  Invariant.box_invariant CITIES zoneOffset w →
  ∃ w', run CITIES zoneOffset w es = Js.Ok w' ∧
        Explorer.homeTz (app w') = Explorer.homeTz (app w) ∧
        Explorer.pinnedCities (app w) `prefix_of` Explorer.pinnedCities (app w').
Proof.
  intros Hinv. destruct (run_spec w es Hinv) as (w' & Hr & _ & Hh & Hp). eauto.
Qed.

Lemma arrow_downs k w :
  let n := Z.of_nat (length (Search.flatResults (memo (box w)))) in
  run CITIES zoneOffset w (replicate (S k) (KeyDown ArrowDown))
  = Js.Ok (setActiveIndex
             (Z.min (activeIndex (box w) + Z.of_nat (S k)) (n - 1)) w).
Proof.
  intros n. revert w n. induction k as [|k IH]; intros w n.
  { simpl. unfold n. reflexivity. }
  change (replicate (S (S k)) (KeyDown ArrowDown))
    with (KeyDown ArrowDown :: replicate (S k) (KeyDown ArrowDown)).
  cbn [run step handleKeyDown Js.bind]. rewrite IH.
  unfold setActiveIndex. simpl. do 3 f_equal. fold n. lia.
Qed.

(** X11: after a query was typed, pressing the down arrow [k+1] times and
    then Enter selects the city in row [k] of the list the arrow keys
    walk, or the last row when the list is shorter. *)
Theorem arrows_then_enter k w c :
  activeIndex (box w) = -1 →
  Search.flatResults (memo (box w))
    !! Nat.min k (length (Search.flatResults (memo (box w))) - 1) = Some c →
  run CITIES zoneOffset w (replicate (S k) (KeyDown ArrowDown) ++ [KeyDown Enter])
  = Js.Ok (handleSelect c w).
Proof.
  intros Hi Hc.
  assert (Hrun : ∀ es1 es2 w0 w1,
            run CITIES zoneOffset w0 es1 = Js.Ok w1 →
            run CITIES zoneOffset w0 (es1 ++ es2) = run CITIES zoneOffset w1 es2).
  { induction es1 as [|e es1 IH]; intros es2 w0 w1; simpl; [by intros [= ->]|].
    destruct (step CITIES zoneOffset w0 e) as [w2|]; [|done]. simpl. apply IH. }
  rewrite (Hrun _ _ _ _ (arrow_downs k w)). rewrite Hi. simpl.
  set (flat := Search.flatResults (memo (box w))) in *.
  assert (Hlen : (0 < length flat)%nat).
  { apply lookup_lt_Some in Hc. lia. }
  set (j := Z.min (-1 + Z.of_nat (S k)) (Z.of_nat (length flat) - 1)).
  assert (Hj : j = Z.of_nat (Nat.min k (length flat - 1))) by (unfold j; lia).
  rewrite bool_decide_eq_true_2 by lia.
  unfold JsExtra.index. rewrite bool_decide_eq_true_2 by lia.
  rewrite Hj, Nat2Z.id, Hc. f_equal.
  unfold handleSelect. simpl. by destruct (negb _).
Qed.

End searchbox.

Lemma search_box_only_appends_witness :
  ∃ w', SearchBox.run Sample.CITIES Sample.zoneOffset SearchBox.initial
          [SearchBox.Change "utc+1" 0; SearchBox.KeyDown SearchBox.ArrowDown;
           SearchBox.KeyDown SearchBox.Enter; SearchBox.KeyDown SearchBox.Escape]
        = Js.Ok w' ∧
        Explorer.homeTz (SearchBox.app w') = "Europe/Sarajevo" ∧
        [] `prefix_of` Explorer.pinnedCities (SearchBox.app w').
Proof.
  apply (search_box_only_appends Sample.CITIES Sample.zoneOffset _ SearchBox.initial).
  apply initial_box_invariant.
Defined.

Lemma arrows_then_enter_witness :
  let r := Search.mkSearchResult
             [Sample.Paris; Sample.Madrid; Sample.Marseille]
             (Search.groupByCountry [Sample.Paris; Sample.Madrid; Sample.Marseille])
             true in
  let w := SearchBox.mkWorld (SearchBox.mkBox "utc+1" true (-1) r) Explorer.initial in
  SearchBox.run Sample.CITIES Sample.zoneOffset w
    [SearchBox.KeyDown SearchBox.ArrowDown; SearchBox.KeyDown SearchBox.ArrowDown;
     SearchBox.KeyDown SearchBox.Enter]
  = Js.Ok (SearchBox.handleSelect Sample.Marseille w).
Proof.
  intros r w.
  apply (arrows_then_enter Sample.CITIES Sample.zoneOffset 1 w Sample.Marseille).
  - reflexivity.
  - reflexivity.
Defined.

(** ** The home zone picker *)

Section substrings.

Lemma startsWith_prefix s p : Js.startsWith s p = true ↔ ∃ b, s = p +:+ b.
Proof.
  revert s. induction p as [|a p IH]; intros s.
  - split; [intros _; by exists s|by destruct s].
  - destruct s as [|b s]; simpl.
    + split; [done|by intros [t Ht]].
    + rewrite andb_true_iff, bool_decide_eq_true, IH. split.
      * intros [-> [t ->]]. by exists t.
      * intros [t Ht]. rewrite app_cons in Ht. injection Ht as -> ->. eauto.
Qed.

Lemma includes_substring s q :
  Js.includes s q = true ↔ ∃ a b, s = a +:+ q +:+ b.
Proof.
  induction s as [|c s IH].
  - change (Js.includes "" q) with (Js.startsWith "" q || false).
    rewrite orb_false_r, startsWith_prefix. split.
    + intros [b Hb]. by exists "", b.
    + intros [a [b Hab]]. destruct a; [by exists b|done].
  - change (Js.includes (String c s) q)
      with (Js.startsWith (String c s) q || Js.includes s q).
    rewrite orb_true_iff, startsWith_prefix, IH. split.
    + intros [[b Hb]|[a [b Hab]]]; [by exists "", b|].
      exists (String c a), b. by rewrite app_cons, Hab.
    + intros [a [b Hab]]. destruct a as [|c' a].
      * left. by exists b.
      * right. rewrite app_cons in Hab. injection Hab as -> ->. eauto.
Qed.

Lemma includes_empty s : Js.includes s "" = true.
Proof. by destruct s. Qed.

Lemma includes_trans s t u :
  Js.includes s t = true → Js.includes t u = true → Js.includes s u = true.
Proof.
  rewrite !includes_substring. intros [a [b ->]] [a' [b' ->]].
  exists (a +:+ a'), (b' +:+ b). by rewrite !app_assoc_s.
Qed.

Lemma is_space_lower c : Js.is_space (Js.lower_char c) = Js.is_space c.
Proof. by destruct c as [[] [] [] [] [] [] [] []]. Qed.

Lemma toLowerCase_app a b :
  Js.toLowerCase (a +:+ b) = Js.toLowerCase a +:+ Js.toLowerCase b.
Proof.
  induction a as [|c a IH]; [done|]. rewrite app_cons. simpl.
  by rewrite IH.
Qed.

Lemma toLowerCase_rev s :
  Js.toLowerCase (String.rev s) = String.rev (Js.toLowerCase s).
Proof.
  induction s as [|c s IH]; [done|]. simpl Js.toLowerCase at 2.
  by rewrite !rev_cons, toLowerCase_app, IH.
Qed.

Lemma toLowerCase_trimStart s :
  Js.trimStart (Js.toLowerCase s) = Js.toLowerCase (Js.trimStart s).
Proof.
  induction s as [|c s IH]; [done|]. simpl. rewrite is_space_lower.
  by destruct (Js.is_space c).
Qed.

End substrings.

(** X12: the two search boxes normalise a query alike: the zone picker
    lowers the case and then trims, the city search trims and then
    lowers the case, and both give the same text. *)
Theorem trim_toLowerCase_commute query :
  Js.trim (Js.toLowerCase query) = Js.toLowerCase (Js.trim query).
Proof.
  unfold Js.trim, Js.trimEnd.
  by rewrite toLowerCase_trimStart, <- toLowerCase_rev,
    toLowerCase_trimStart, toLowerCase_rev.
Qed.

Section picker.
Import Picker.

Lemma filtered_filter allTzs query :
  filtered allTzs query
  = List.filter (λ tz, Js.includes (Js.toLowerCase tz)
                         (Js.trim (Js.toLowerCase query))) allTzs.
Proof.
  unfold filtered. case_bool_decide as Hq; [|done]. rewrite Hq.
  induction allTzs as [|tz l IH]; [done|]. simpl.
  by rewrite includes_empty, <- IH.
Qed.

Lemma sublist_filter_impl {A} (p1 p2 : A → bool) l :
  (∀ x, p2 x = true → p1 x = true) →
  List.filter p2 l `sublist_of` List.filter p1 l.
Proof.
  intros Himp. induction l as [|x l IH]; [done|]. simpl.
  destruct (p2 x) eqn:H2.
  - rewrite (Himp x H2). by constructor.
  - destruct (p1 x); [by constructor|done].
Qed.

(** X13: a query that contains an earlier one narrows the zone list:
    the rows for the longer query are a sublist of the rows for the
    shorter one, in the same order. *)
Theorem filtered_narrows allTzs q1 q2 :
  Js.includes (Js.trim (Js.toLowerCase q2)) (Js.trim (Js.toLowerCase q1)) = true →
  filtered allTzs q2 `sublist_of` filtered allTzs q1.
Proof.
  intros Hinc. rewrite !filtered_filter. apply sublist_filter_impl.
  intros tz Htz. by eapply includes_trans.
Qed.

Lemma split_go_segments sep cur s :
  Spec.string_forall (λ c, negb (bool_decide (c = sep))) cur = true →
  Forall (λ p, Spec.string_forall (λ c, negb (bool_decide (c = sep))) p = true)
    (Js.split_go sep cur s).
Proof.
  revert cur. induction s as [|c s IH]; intros cur Hcur; simpl.
  - constructor; [|done]. by rewrite string_forall_rev.
  - case_bool_decide as Hc.
    + constructor; [by rewrite string_forall_rev|]. by apply IH.
    + apply IH. simpl. rewrite Hcur. by rewrite bool_decide_eq_false_2.
Qed.

Lemma split_go_nonempty sep cur s : Js.split_go sep cur s ≠ [].
Proof.
  revert cur. induction s as [|c s IH]; intros cur; simpl; [done|].
  by case_bool_decide.
Qed.

Lemma replace_char_label s :
  Spec.string_forall (λ c, negb (bool_decide (c = "/"%char))) s = true →
  Spec.string_forall Invariant.label_char
    (JsExtra.replace_char "_" " " s) = true.
Proof.
  induction s as [|c s IH]; [done|].
  intros [Hc Hs]%andb_prop. cbn [JsExtra.replace_char].
  destruct (bool_decide (c = "_"%char)) eqn:Hu.
  - rewrite app_cons, app_empty_l. simpl. by apply IH.
  - simpl. unfold Invariant.label_char at 1. rewrite Hc, Hu. simpl.
    by apply IH.
Qed.

(** X14: the short label of a zone is always made from the text after
    the last slash (the fallback to the whole value is never taken),
    and holds neither a slash nor an underscore. *)
Theorem displayLabel_chars value :
  (∃ segment, last (Js.split "/" value) = Some segment
     ∧ displayLabel value = JsExtra.replace_char "_" " " segment)
  ∧ Spec.string_forall Invariant.label_char (displayLabel value) = true.
Proof.
  unfold displayLabel, Js.split.
  pose proof (split_go_segments "/" "" value eq_refl) as Hall.
  pose proof (split_go_nonempty "/" "" value) as Hne.
  destruct (last (Js.split_go "/" "" value)) as [seg|] eqn:Hlast.
  - split; [by exists seg|]. apply replace_char_label.
    apply last_Some in Hlast as [l' Hl']. rewrite Hl' in Hall.
    by apply Forall_app in Hall as [_ [Hseg _]%Forall_cons].
  - by apply last_None in Hlast.
Qed.

(** X15: the label of [area/.../place] is [place] with its underscores
    turned into spaces, and a value without a slash is its own last
    segment. *)
Theorem displayLabel_last_segment area place :
  Spec.string_forall (λ c, negb (bool_decide (c = "/"%char))) place = true →
  displayLabel (area +:+ String "/" place) = JsExtra.replace_char "_" " " place
  ∧ displayLabel place = JsExtra.replace_char "_" " " place.
Proof.
  intros Hplace. unfold displayLabel, Js.split.
  assert (Hlast : ∀ s cur,
    last (Js.split_go "/" cur (s +:+ String "/" place)) = Some place).
  { induction s as [|c s IH]; intros cur.
    - rewrite app_empty_l. simpl.
      rewrite split_go_last by done. by rewrite rev_rev_app.
    - rewrite app_cons. simpl. case_bool_decide; [|apply IH].
      specialize (IH "").
      destruct (Js.split_go "/" "" (s +:+ String "/" place)); [done|].
      done. }
  split; [by rewrite Hlast|].
  rewrite split_go_last by done. by rewrite rev_rev_app.
Qed.

Lemma displayLabel_last_segment_witness :
  displayLabel ("America/Argentina" +:+ String "/" "Buenos_Aires") = "Buenos Aires"
  ∧ displayLabel "Buenos_Aires" = "Buenos Aires".
Proof. exact (displayLabel_last_segment "America/Argentina" "Buenos_Aires" eq_refl). Defined.

Lemma filtered_narrows_witness :
  filtered fallbackTzList "  Ame" `sublist_of` filtered fallbackTzList "am".
Proof. apply (filtered_narrows fallbackTzList "am" "  Ame"). reflexivity. Defined.

End picker.

(** ** The derived values of the cards *)

Section derived_props.
Import Derived.

Lemma formatDiff_cases n :
  (n = Js.Num 0 ∧ Utils.formatDiff n = "same time") ∨
  (∃ d body, n = Js.Num d ∧ 0 < d ∧ Utils.formatDiff n = String "+" body) ∨
  (∃ d body, n = Js.Num d ∧ d < 0 ∧ Utils.formatDiff n = String "-" body) ∨
  (n = Js.NaN ∧ Utils.formatDiff n = "-NaNh NaNm").
Proof.
  destruct n as [d|]; [|do 3 right; split; [done|by vm_compute]].
  rewrite formatDiff_diff_text. unfold Spec.diff_text.
  destruct (decide (d = 0)) as [->|Hd]; [by left|].
  destruct (decide (0 < d)).
  - right; left. eexists d, _. split; [done|]. split; [done|]. reflexivity.
  - right; right; left. eexists d, _. split; [done|]. split; [lia|]. reflexivity.
Qed.

Lemma pinned_entry_diff setZone now home c d :
  pinned_entry setZone now home c = Js.Ok [d] →
  diff d = Utils.formatDiff (diffMinutes d).
Proof.
  unfold pinned_entry.
  destruct (setZone now (tz c)) as [zt|]; [|done]. simpl.
  destruct (setZone now home) as [ht|]; [|done]. simpl.
  by intros [= <-].
Qed.

Lemma pinnedDerived_entry setZone now home pinned d :
  d ∈ pinnedDerived setZone now home pinned →
  ∃ n c, now = Some n ∧ c ∈ pinned ∧ pinned_entry setZone n home c = Js.Ok [d].
Proof.
  unfold pinnedDerived. destruct now as [n|]; [|by intros ?%elem_of_nil].
  case_bool_decide; [by intros ?%elem_of_nil|].
  rewrite list_elem_of_bind. intros (c & Hd & Hc). exists n, c.
  split; [done|]. split; [done|].
  destruct (pinned_entry setZone n home c) as [l|] eqn:He; [|by apply elem_of_nil in Hd].
  unfold pinned_entry in He.
  destruct (setZone n (tz c)) as [zt|]; [|done]. simpl in He.
  destruct (setZone n home) as [ht|]; [|done]. simpl in He.
  injection He as <-. apply list_elem_of_singleton in Hd. by subst.
Qed.

(** X16: the two panels colour a difference the same way. *)
Theorem diff_colours_agree setZone now home pinned d :
  d ∈ pinnedDerived setZone now home pinned →
  pinnedDiffColour d = hoveredDiffColour (diff d).
Proof.
  intros (n & c & _ & _ & He)%pinnedDerived_entry.
  apply pinned_entry_diff in He.
  unfold pinnedDiffColour, hoveredDiffColour. rewrite He.
  destruct (formatDiff_cases (diffMinutes d))
    as [[-> ->]|[(x & body & -> & Hx & ->)|[(x & body & -> & Hx & ->)|[-> ->]]]];
    try done.
  - rewrite !(bool_decide_eq_false_2 (String "+" body = "same time")) by done.
    simpl. rewrite bool_decide_eq_true_2 by done. by destruct body.
  - rewrite !(bool_decide_eq_false_2 (String "-" body = "same time")) by done.
    simpl. by rewrite bool_decide_eq_false_2 by lia.
Qed.

(** X17: before the first tick, when [now] is null or 0, there are no
    cards.  For any other timestamp a card is made for each pinned city
    whose zone and the home zone the date library resolves without
    throwing, in pinned order, and the other pinned cities get no card;
    so with a library that never throws, as for a zone it does not
    know, whose date it hands out as not valid, every pinned city has
    its card. *)
Theorem pinnedDerived_cities setZone home pinned :
  pinnedDerived setZone None home pinned = [] ∧
  pinnedDerived setZone (Some 0) home pinned = [] ∧
  (∀ n, n ≠ 0 →
     city <$> pinnedDerived setZone (Some n) home pinned
     = List.filter (λ c, JsExtra.returns (setZone n (tz c))
                         && JsExtra.returns (setZone n home)) pinned) ∧
  (∀ n, n ≠ 0 →
     (∀ zone, JsExtra.returns (setZone n zone) = true) →
     city <$> pinnedDerived setZone (Some n) home pinned = pinned).
Proof.
  assert (Hcards : ∀ n, n ≠ 0 →
            city <$> pinnedDerived setZone (Some n) home pinned
            = List.filter (λ c, JsExtra.returns (setZone n (tz c))
                                && JsExtra.returns (setZone n home)) pinned).
  { intros n Hn. unfold pinnedDerived. rewrite bool_decide_eq_false_2 by done.
    induction pinned as [|c pinned IH]; [done|].
    rewrite bind_cons, fmap_app, IH. simpl. unfold pinned_entry.
    destruct (setZone n (tz c)) as [zt|]; [|done]. simpl.
    destruct (setZone n home) as [ht|]; done. }
  split; [done|]. split; [done|]. split; [exact Hcards|].
  intros n Hn Hall. rewrite (Hcards n Hn).
  clear Hcards. induction pinned as [|c pinned IH]; [done|].
  assert (Hc : JsExtra.returns (setZone n (tz c))
               && JsExtra.returns (setZone n home) = true)
    by (by rewrite !Hall).
  simpl. rewrite Hc. f_equal. exact IH.
Qed.

Lemma pinnedDerived_cities_witness :
  let setZone (now : Z) (zone : string) : Js.Res DateTime :=
    match Sample.zoneOffset now zone with
    | Js.Ok (Js.Num o) =>
        Js.Ok (mkDateTime (Js.Num o) (Js.Num 12) (Js.Num 0) (Js.Num 0) None
                 (λ _, "12:00:00"))
    | Js.Ok Js.NaN =>
        Js.Ok (mkDateTime Js.NaN Js.NaN Js.NaN Js.NaN None
                 (λ _, "Invalid DateTime"))
    | Js.Throw e => Js.Throw e
    end in
  let pinned := [Sample.Tokyo; Sample.Lemuria; Sample.Paris] in
  pinnedDerived setZone None "Europe/London" pinned = [] ∧
  pinnedDerived setZone (Some 0) "Europe/London" pinned = [] ∧
  city <$> pinnedDerived setZone (Some 1) "Europe/London" pinned = pinned ∧
  diff <$> pinnedDerived setZone (Some 1) "Europe/London" pinned
  = ["+9h"; "-NaNh NaNm"; "+1h"].
Proof.
  intros setZone pinned.
  destruct (pinnedDerived_cities setZone "Europe/London" pinned)
    as (Hnull & Hzero & Hcards & _).
  split; [exact Hnull|]. split; [exact Hzero|]. split.
  - rewrite (Hcards 1) by done. by vm_compute.
  - by vm_compute.
Defined.

End derived_props.

Section derived_more.
Import Derived.

(** X18: swapping home and target flips the sign of the difference text
    and nothing else. *)
Theorem formatDiff_mirror (target home : Z) :
  home < target →
  ∃ body,
    Utils.formatDiff (Js.sub (Js.Num target) (Js.Num home)) = String "+" body ∧
    Utils.formatDiff (Js.sub (Js.Num home) (Js.Num target)) = String "-" body.
Proof.
  intros Hlt. simpl. rewrite !formatDiff_diff_text. unfold Spec.diff_text.
  replace (Z.abs (home - target)) with (Z.abs (target - home)) by lia.
  destruct (decide (target - home = 0)); [lia|].
  destruct (decide (home - target = 0)); [lia|].
  destruct (decide (0 < target - home)); [|lia].
  destruct (decide (0 < home - target)); [lia|].
  eexists. split; reflexivity.
Qed.

Lemma formatDiff_mirror_witness :
  ∃ body,
    Utils.formatDiff (Js.sub (Js.Num 330) (Js.Num (-300))) = String "+" body ∧
    Utils.formatDiff (Js.sub (Js.Num (-300)) (Js.Num 330)) = String "-" body.
Proof. apply formatDiff_mirror. lia. Defined.

(** X19: when the date library gives no offset for the home zone (an
    unknown zone name, as a URL can carry one), every card shows the
    difference as [-NaNh NaNm] in the colour of a negative
    difference. *)
Theorem invalid_home_diff setZone n home pinned ht d :
  setZone n home = Js.Ok ht →
  offset ht = Js.NaN →
  d ∈ pinnedDerived setZone (Some n) home pinned →
  diff d = "-NaNh NaNm" ∧
  pinnedDiffColour d = orange ∧
  pinnedDiffText d = "-NaNh NaNm vs home".
Proof.
  intros Hhome Hnan (n' & c & [= <-] & _ & He)%pinnedDerived_entry.
  unfold pinned_entry in He.
  destruct (setZone n (tz c)) as [zt|]; [|done]. simpl in He.
  rewrite Hhome in He. simpl in He. injection He as <-.
  unfold pinnedDiffColour, pinnedDiffText. simpl. rewrite Hnan.
  by destruct (offset zt).
Qed.

Lemma invalid_home_diff_witness :
  let ht := mkDateTime Js.NaN (Js.Num 12) (Js.Num 0) (Js.Num 0) None (λ _, "") in
  let zt := mkDateTime (Js.Num 540) (Js.Num 12) (Js.Num 0) (Js.Num 0) None (λ _, "") in
  let setZone (now : Z) (zone : string) : Js.Res DateTime :=
    match Sample.zoneOffset now zone with
    | Js.Ok o => Js.Ok (mkDateTime o (Js.Num 12) (Js.Num 0) (Js.Num 0) None (λ _, ""))
    | Js.Throw e => Js.Throw e
    end in
  let d := mkPinned Sample.Tokyo zt "UTC+09:00" "-NaNh NaNm" Js.NaN "" "" "" true in
  diff d = "-NaNh NaNm" ∧
  pinnedDiffColour d = orange ∧
  pinnedDiffText d = "-NaNh NaNm vs home".
Proof.
  intros ht zt setZone d.
  apply (invalid_home_diff setZone 1 (tz Sample.Atlantis) [Sample.Tokyo] ht d).
  - reflexivity.
  - reflexivity.
  - change (d ∈ [d]). by apply list_elem_of_singleton.
Defined.

Lemma diff_colours_agree_witness :
  let zt := mkDateTime (Js.Num 540) (Js.Num 12) (Js.Num 0) (Js.Num 0) None (λ _, "") in
  let setZone (now : Z) (zone : string) : Js.Res DateTime :=
    match Sample.zoneOffset now zone with
    | Js.Ok o => Js.Ok (mkDateTime o (Js.Num 12) (Js.Num 0) (Js.Num 0) None (λ _, ""))
    | Js.Throw e => Js.Throw e
    end in
  let d := mkPinned Sample.Tokyo zt "UTC+09:00" "+9h" (Js.Num 540) "" "" "" true in
  pinnedDiffColour d = hoveredDiffColour (diff d).
Proof.
  intros zt setZone d.
  apply (diff_colours_agree setZone (Some 1) "Europe/London" [Sample.Tokyo] d).
  change (d ∈ [d]). by apply list_elem_of_singleton.
Defined.

End derived_more.

(** ** More on the pinned set, the map and the URL *)

Section explorer_more.
Import Explorer.

Lemma pin_updater_present city prev :
  NoDup (name <$> prev) → Spec.is_pinned city prev →
  pin_updater city prev = Fresh (filter (λ c, name c ≠ name city) prev).
Proof.
  intros Hnd Hp.
  destruct (pin_updater_cases city prev)
    as [[Hn _]|(l1 & c & l2 & -> & Hc & Hl1 & ->)]; [done|].
  f_equal. rewrite fmap_app, fmap_cons, Hc in Hnd.
  apply NoDup_app in Hnd as (_ & _ & [Hl2 _]%NoDup_cons).
  rewrite filter_app, filter_cons_False by (intros H; by apply H).
  by rewrite !filter_name_absent.
Qed.

Lemma filter_name_gone (city : City) (l : list City) :
  name city ∉ (name <$> filter (λ c, name c ≠ name city) l).
Proof.
  intros (c & Hc & [Hne _]%list_elem_of_filter)%list_elem_of_fmap. done.
Qed.

(** X20: the remove button of the tooltip takes the city out of the
    pinned set and keeps the other pins in their order, puts its name
    in the hidden set, and no city of that name is drawn on the map
    afterwards, unless the search is highlighting it. *)
Theorem removeFromMap_removes city st :
  NoDup (name <$> pinnedCities st) →
  let st' := removeFromMap city st in
  pinnedCities st' = filter (λ c, name c ≠ name city) (pinnedCities st) ∧
  name city ∈ hiddenCities st' ∧
  highlightedCities st' = highlightedCities st ∧
  (∀ CITIES FEATURED c,
     name city ∉ (name <$> highlightedCities st) →
     c ∈ visibleCities CITIES FEATURED st' → name c ≠ name city).
Proof.
  intros Hnd st'.
  assert (Hp : pinnedCities st'
               = filter (λ c, name c ≠ name city) (pinnedCities st)).
  { unfold st', removeFromMap. cbv zeta.
    destruct (some _ (pinnedCities st)) eqn:Hsome; simpl.
    - apply some_is_pinned in Hsome. by rewrite pin_updater_present.
    - rewrite filter_name_absent; [done|].
      intros Hin%some_is_pinned. by rewrite Hin in Hsome. }
  assert (Hh : name city ∈ hiddenCities st').
  { unfold st', removeFromMap. cbv zeta. simpl.
    apply elem_of_union. right. by apply elem_of_singleton. }
  assert (Hl : highlightedCities st' = highlightedCities st).
  { unfold st', removeFromMap. cbv zeta. simpl. by destruct (some _ _). }
  split; [exact Hp|]. split; [exact Hh|]. split; [exact Hl|].
  intros CITIES FEATURED c Hhl Hvis Heq.
  apply visible_iff in Hvis as [_ [Hv|[Hv|[Hv _]]]].
  - rewrite Hl, Heq in Hv. done.
  - rewrite Hp, Heq in Hv. by apply filter_name_gone in Hv.
  - rewrite Heq in Hv. done.
Qed.

Lemma removeFromMap_removes_witness :
  let st := mkState "Europe/Sarajevo" [Sample.Tokyo; Sample.London] [] ∅ in
  pinnedCities (removeFromMap Sample.London st) = [Sample.Tokyo] ∧
  "London" ∈ hiddenCities (removeFromMap Sample.London st).
Proof.
  intros st.
  assert (Hnd : NoDup (name <$> pinnedCities st)).
  { apply (bool_decide_unpack _). by vm_compute. }
  destruct (removeFromMap_removes Sample.London st Hnd) as (Hp & Hh & _).
  split; [rewrite Hp; reflexivity|exact Hh].
Defined.

(** X21: toggling a city that is not pinned twice, with room for it,
    gives back the pinned set; the hidden set has lost the name. *)
Theorem toggle_twice city st :
  ¬ Spec.is_pinned city (pinnedCities st) →
  NoDup (name <$> pinnedCities st) →
  (length (pinnedCities st) < 4)%nat →
  let st' := handleCityPin city (handleCityPin city st) in
  pinnedCities st' = pinnedCities st ∧
  hiddenCities st' = hiddenCities st ∖ {[name city]}.
Proof.
  intros Hn Hnd Hlen st'. split.
  - unfold st'. rewrite !handleCityPin_pinned.
    rewrite (pin_when_absent city (pinnedCities st)) by done.
    case_decide; [lia|]. simpl.
    rewrite pin_updater_present.
    + simpl. rewrite filter_app, filter_name_absent by done.
      rewrite filter_cons_False by (intros H'; by apply H').
      by rewrite filter_nil, app_nil_r.
    + rewrite fmap_app. apply NoDup_app. split; [done|].
      split; [|apply NoDup_singleton].
      intros n Hin ->%list_elem_of_singleton. done.
    + unfold Spec.is_pinned. rewrite fmap_app, elem_of_app. right. by left.
  - unfold st', handleCityPin. simpl. unfold unhide_updater.
    destruct (decide (name city ∈ hiddenCities st)) as [Hin|Hin].
    + rewrite (bool_decide_eq_true_2 _ Hin). simpl.
      rewrite bool_decide_eq_false_2; [done|].
      rewrite elem_of_difference, elem_of_singleton. tauto.
    + rewrite (bool_decide_eq_false_2 _ Hin). simpl.
      rewrite (bool_decide_eq_false_2 _ Hin). simpl.
      apply set_eq. intros n. rewrite elem_of_difference, elem_of_singleton.
      split; [|tauto]. intros Hn'. split; [done|]. by intros ->.
Qed.

Lemma toggle_twice_witness :
  let st := mkState "Europe/Sarajevo" [Sample.Paris] [] {["Tokyo"]} in
  pinnedCities (handleCityPin Sample.Tokyo (handleCityPin Sample.Tokyo st))
  = [Sample.Paris].
Proof.
  intros st.
  refine (proj1 (toggle_twice Sample.Tokyo st _ _ _)).
  - unfold Spec.is_pinned. simpl. intros H.
    apply elem_of_cons in H as [H|H]; [discriminate H|by apply elem_of_nil in H].
  - apply (bool_decide_unpack _). by vm_compute.
  - simpl. lia.
Defined.

End explorer_more.

Section mount_more.
Import Url.

(** X22: opening a URL never pins a city from outside the catalog nor
    more than four cities, never leaves the home zone empty, and does
    not touch the highlighted and hidden cities. *)
Theorem mount_wellformed CITIES browserTz search st :
  Explorer.homeTz st ≠ "" →
  (length (Explorer.pinnedCities st) ≤ 4)%nat →
  Forall (λ c, c ∈ CITIES) (Explorer.pinnedCities st) →
  let st' := mount CITIES browserTz search st in
  Explorer.homeTz st' ≠ "" ∧
  (length (Explorer.pinnedCities st') ≤ 4)%nat ∧
  Forall (λ c, c ∈ CITIES) (Explorer.pinnedCities st') ∧
  Explorer.highlightedCities st' = Explorer.highlightedCities st ∧
  Explorer.hiddenCities st' = Explorer.hiddenCities st.
Proof.
  intros Hhome Hlen Hall st'.
  split; [|split; [by apply mount_at_most_four|split; [|done]]].
  - unfold st', mount. cbv zeta. simpl Explorer.homeTz.
    destruct (get "home" (URLSearchParams search)) as [h|]; simpl.
    + case_bool_decide; simpl; [|done].
      destruct browserTz as [b|e]; [|done]. simpl.
      by case_bool_decide.
    + destruct browserTz as [b|e]; [|done]. simpl.
      by case_bool_decide.
  - unfold st', mount. cbv zeta. simpl Explorer.pinnedCities.
    destruct (truthy _); [|done]. case_bool_decide; [|done].
    apply Forall_take, Forall_forall.
    intros c Hc. by apply lookup_names_sound in Hc as [? _].
Qed.

Lemma mount_wellformed_witness :
  Explorer.homeTz
    (mount Sample.CITIES (Js.Ok "") "?compare=Gotham&home=" Explorer.initial)
  ≠ "".
Proof.
  refine (proj1 (mount_wellformed Sample.CITIES (Js.Ok "")
                   "?compare=Gotham&home=" Explorer.initial _ _ _)).
  - done.
  - simpl. lia.
  - constructor.
Defined.

Lemma fallbackTzList_plain :
  Forall (λ tz, tz ≠ "" ∧ Spec.string_forall Spec.url_plain tz = true)
    Picker.fallbackTzList.
Proof. apply (bool_decide_unpack _). by vm_compute. Qed.

(** X23: every zone of the built-in list of the picker survives the
    URL: after picking it, the URL written for the state gives back
    that home zone, and the pinned set, when opened. *)
Theorem picked_zone_survives_reload CITIES browserTz pathname tz p :
  tz ∈ Picker.fallbackTzList →
  Spec.string_forall Spec.url_plain pathname = true →
  NoDup (name <$> CITIES) →
  Forall (λ c, c ∈ CITIES ∧ Spec.url_name (name c)) (Explorer.pinnedCities p.2) →
  (length (Explorer.pinnedCities p.2) ≤ 4)%nat →
  let st := (Picker.handleSelect tz p).2 in
  Explorer.homeTz (reload CITIES browserTz pathname st) = tz ∧
  Explorer.pinnedCities (reload CITIES browserTz pathname st)
  = Explorer.pinnedCities p.2.
Proof.
  intros Htz Hpath Hnd Hpinned Hlen st.
  pose proof fallbackTzList_plain as Hplain.
  rewrite Forall_forall in Hplain. destruct (Hplain tz Htz) as [Hne Hchars].
  destruct (reload_plain CITIES browserTz pathname st) as [Hp Hh]; try done.
Qed.

Lemma picked_zone_survives_reload_witness :
  Explorer.homeTz
    (reload Sample.CITIES (Js.Throw "no Intl") "/"
       (Picker.handleSelect "America/Argentina/Buenos_Aires"
          (Picker.mkState true "bue",
           Explorer.mkState "Europe/Sarajevo" [Sample.Tokyo] [] ∅)).2)
  = "America/Argentina/Buenos_Aires".
Proof.
  refine (proj1 (picked_zone_survives_reload Sample.CITIES (Js.Throw "no Intl") "/"
                   "America/Argentina/Buenos_Aires"
                   (Picker.mkState true "bue",
                    Explorer.mkState "Europe/Sarajevo" [Sample.Tokyo] [] ∅)
                   _ _ _ _ _)).
  - apply (bool_decide_unpack _). by vm_compute.
  - reflexivity.
  - apply (bool_decide_unpack _). by vm_compute.
  - constructor; [|constructor]. split.
    + apply (bool_decide_unpack _). by vm_compute.
    + by vm_compute.
  - simpl. lia.
Defined.

End mount_more.

(** ** The theme and the hover timer *)

Section theme.
Import Theme.

(** X24: the class the script of the layout puts on the page before the
    first paint is the class the component settles on once mounted:
    dark unless the stored theme is [light]; the stored value is then
    the theme of the component. *)
Theorem theme_no_flash p :
  let before := prepaint (Js.Ok (getItem "tz-theme" p)) p in
  let '(theme, after) := visit p in
  darkClass after = darkClass before ∧
  darkClass after = bool_decide (theme = dark) ∧
  getItem "tz-theme" after = Some (to_string theme).
Proof.
  unfold visit. cbv zeta.
  set (before := prepaint (Js.Ok (getItem "tz-theme" p)) p).
  assert (Hget : getItem "tz-theme" before = getItem "tz-theme" p).
  { unfold before, prepaint, getItem. by case_bool_decide. }
  assert (Hclass : darkClass before
                   = negb (bool_decide (getItem "tz-theme" p = Some "light"))).
  { unfold before, prepaint. by case_bool_decide. }
  change (syncTheme false initial before) with before.
  unfold mountTheme. rewrite Hget, Hclass.
  split; [|split].
  - unfold syncTheme, setItem, classList_toggle. simpl.
    destruct (bool_decide (getItem "tz-theme" p = Some "light")); [done|].
    by destruct (bool_decide (getItem "tz-theme" p = Some "dark")).
  - done.
  - unfold syncTheme, setItem, classList_toggle, getItem. simpl.
    by rewrite lookup_insert_eq.
Qed.

(** X25: the theme survives a reload: whatever theme the mounted
    component has synced to the page, the next visit starts in it. *)
Theorem theme_persists t p :
  (visit (syncTheme true t p)).1 = t.
Proof.
  set (q := syncTheme true t p).
  change ((visit q).1)
    with (mountTheme (prepaint (Js.Ok (getItem "tz-theme" q)) q) initial).
  assert (Hq : getItem "tz-theme" q = Some (to_string t)).
  { unfold q, syncTheme, setItem, getItem. simpl. by rewrite lookup_insert_eq. }
  assert (Hget : getItem "tz-theme" (prepaint (Js.Ok (getItem "tz-theme" q)) q)
                 = getItem "tz-theme" q).
  { unfold prepaint, getItem. by case_bool_decide. }
  unfold mountTheme. rewrite Hget, Hq. by destruct t.
Qed.

End theme.

Section hover.
Import Hover.
Context {P R : Type} (place : City → R → option P) (clock : Z → string → string).

Lemma scheduleDismiss_pending (s : State P) :
  Invariant.timer_invariant s →
  pending (scheduleDismiss s) = {[fresh s]} ∧
  timer (scheduleDismiss s) = Some (fresh s).
Proof.
  intros Hinv. unfold scheduleDismiss.
  destruct (timer s) as [t|] eqn:Ht; simpl; (split; [|done]).
  - apply set_eq. intros id.
    rewrite elem_of_union, elem_of_difference, !elem_of_singleton.
    split; [|tauto]. intros [[Hin Hne]|?]; [|done].
    apply Hinv in Hin. rewrite Ht in Hin. by simplify_eq.
  - apply set_eq. intros id. rewrite elem_of_union, !elem_of_singleton.
    split; [|tauto]. intros [Hin|?]; [|done].
    apply Hinv in Hin. by rewrite Ht in Hin.
Qed.

Lemma cancelDismiss_pending (s : State P) :
  Invariant.timer_invariant s → pending (cancelDismiss s) = ∅.
Proof.
  intros Hinv. unfold cancelDismiss.
  destruct (timer s) as [t|] eqn:Ht; simpl.
  - apply set_eq. intros id. rewrite elem_of_difference, elem_of_singleton.
    split; [|by intros ?%elem_of_empty]. intros [Hin Hne].
    apply Hinv in Hin. rewrite Ht in Hin. by simplify_eq.
  - apply set_eq. intros id. split; [|by intros ?%elem_of_empty].
    intros Hin. apply Hinv in Hin. by rewrite Ht in Hin.
Qed.

Lemma empty_invariant (s : State P) :
  pending s = ∅ → Invariant.timer_invariant s.
Proof. intros He id Hin. rewrite He in Hin. by apply elem_of_empty in Hin. Qed.

Lemma handleCityHover_enter now city svgRect (s : State P) :
  Invariant.timer_invariant s →
  pending (handleCityHover place clock (Some now) (Some city) (Some svgRect) s) = ∅.
Proof.
  intros Hinv. unfold handleCityHover.
  destruct (place city svgRect); simpl; by apply cancelDismiss_pending.
Qed.

Lemma step_timer_invariant (s : State P) (e : Event R) :
  Invariant.timer_invariant s → Invariant.timer_invariant (step place clock s e).
Proof.
  intros Hinv.
  assert (Hsched : Invariant.timer_invariant (scheduleDismiss s)).
  { destruct (scheduleDismiss_pending s Hinv) as [Hp Ht].
    intros id. rewrite Hp, Ht. by intros ->%elem_of_singleton. }
  destruct e as [now city svgRect|now| | | |id]; simpl.
  - destruct svgRect as [r|], now as [n|]; try exact Hsched.
    by apply empty_invariant, handleCityHover_enter.
  - exact Hsched.
  - by apply empty_invariant, cancelDismiss_pending.
  - exact Hsched.
  - exact Hinv.
  - unfold timeout. case_bool_decide; [|done]. simpl.
    intros id'. simpl. rewrite elem_of_difference. intros [Hin _]. by apply Hinv.
Qed.

Lemma run_timer_invariant (s : State P) (es : list (Event R)) :
  Invariant.timer_invariant s → Invariant.timer_invariant (run place clock s es).
Proof.
  unfold run. revert s. induction es as [|e es IH]; intros s Hinv; [done|].
  simpl. by apply IH, step_timer_invariant.
Qed.

Lemma initial_timer_invariant : Invariant.timer_invariant (initial (P := P)).
Proof. by apply empty_invariant. Qed.

(** X26: whatever the mouse does, at most one dismiss timeout is pending,
    and it is the one the component remembers: no timeout is left
    behind that could close a tooltip shown later. *)
Theorem hover_one_timer (es : list (Event R)) :
  let s := run place clock initial es in
  Invariant.timer_invariant s ∧ (size (pending s) ≤ 1)%nat.
Proof.
  intros s.
  assert (Hinv : Invariant.timer_invariant s)
    by apply run_timer_invariant, initial_timer_invariant.
  split; [exact Hinv|].
  destruct (timer s) as [t|] eqn:Ht.
  - assert (Hsub : pending s ⊆ {[t]}).
    { intros id Hin. apply Hinv in Hin. rewrite Ht in Hin.
      apply elem_of_singleton. by simplify_eq. }
    apply subseteq_size in Hsub. by rewrite size_singleton in Hsub.
  - assert (He : pending s = ∅).
    { apply set_eq. intros id. split; [|by intros ?%elem_of_empty].
      intros Hin. apply Hinv in Hin. by rewrite Ht in Hin. }
    rewrite He, size_empty. lia.
Qed.

(** X27: once the mouse is on a dot or on the tooltip, no timeout
    closes the tooltip: every timeout that fires then leaves the state
    as it is, until the mouse leaves again. *)
Theorem hover_enter_stops_dismiss (es : list (Event R)) now city svgRect id :
  let s := run place clock initial es in
  timeout id (cancelDismiss s) = cancelDismiss s ∧
  timeout id (handleCityHover place clock (Some now) (Some city) (Some svgRect) s)
  = handleCityHover place clock (Some now) (Some city) (Some svgRect) s.
Proof.
  intros s.
  assert (Hinv : Invariant.timer_invariant s)
    by apply run_timer_invariant, initial_timer_invariant.
  unfold timeout. split.
  - rewrite cancelDismiss_pending by done.
    by rewrite bool_decide_eq_false_2 by apply not_elem_of_empty.
  - rewrite handleCityHover_enter by done.
    by rewrite bool_decide_eq_false_2 by apply not_elem_of_empty.
Qed.

End hover.
